(** * GrooveGalaxy: a shallow embedding of the game logic of [class Game]

    The embedding follows the methods of [class Game] one by one.  JavaScript
    numbers that only ever hold integers (wave, loop, budget, hit points,
    score, timers counted in frames) are [Z]; coordinates, speeds, times and
    probabilities are exact rationals [Q]; array indices are [nat].
    [Math.random()], [Date.now()] and [performance.now()] are inputs: a frame
    receives an [Env] that supplies them.

    State that is only drawn and never read back by the logic (pop-ups,
    particles, debris, stars, screen shake, muzzle and beat flashes, smoke,
    toast, projectile trails, colours, the low-HP flag, high scores) is
    left out.  Calls to [drumMachine.playSound(row)] are kept as a trace,
    [soundLog].  The step of the tutorial, which only the click handler
    reads, is kept beside the game in a [Page]. *)

From Stdlib Require Import Ascii String ZArith QArith Qround Qabs Qminmax List Bool
  Lia Lqa.
Import ListNotations.
Open Scope Z_scope.

(** ** Numbers *)

Definition Qleb (a b : Q) : bool := Qle_bool a b.
Definition Qltb (a b : Q) : bool := negb (Qle_bool b a).

(** [Math.round]: the nearest integer, halves going up. *)
Definition Qround_js (x : Q) : Z := Qfloor (x + (1 # 2)).

Definition zq (z : Z) : Q := inject_Z z.
Definition nq (n : nat) : Q := inject_Z (Z.of_nat n).

(** ** Arrays *)

(** [a[n] = v]; an index past the end extends the array, the holes reading
    as [d]. *)
Fixpoint setNth {A : Type} (d : A) (n : nat) (v : A) (l : list A) : list A :=
  match n, l with
  | O, [] => [v]
  | O, _ :: t => v :: t
  | S n', [] => d :: setNth d n' v []
  | S n', h :: t => h :: setNth d n' v t
  end.

(** [a.splice(i, 1)]; nothing happens when [i] is past the end. *)
Fixpoint splice {A : Type} (i : nat) (l : list A) : list A :=
  match i, l with
  | _, [] => []
  | O, _ :: t => t
  | S i', h :: t => h :: splice i' t
  end.

(** ** Entities *)

Set Primitive Projections.

Inductive Phase := playing | prepare | complete | cardpick | gameover.

Inductive CardId :=
| napalmRounds | chainLightning | homingBoost | volleyFire
| alienArmor | quickRespawn | lootDenial
| extraRow | tempoPush | doubleTime
| scramble | mirrorBeat
| damageBoost | hpBoost | speedBoost.

Inductive ProjType := cannon | burst | homing.

Inductive PowerType := pu_repair | pu_shield | pu_speed | pu_rapidfire | pu_spread.

Definition Phase_eqb (a b : Phase) : bool :=
  match a, b with
  | playing, playing | prepare, prepare | complete, complete
  | cardpick, cardpick | gameover, gameover => true
  | _, _ => false
  end.

Definition CardId_eq_dec (a b : CardId) : {a = b} + {a <> b}.
Proof. decide equality. Defined.

Definition ProjType_eqb (a b : ProjType) : bool :=
  match a, b with
  | cannon, cannon | burst, burst | homing, homing => true
  | _, _ => false
  end.

(** An alien object.  [hp], [maxHp] and [respawnIn] are absent on some
    aliens ([None] is [undefined]); [evolved] is absent on the aliens
    pushed by the scramble and mirror cards, where it reads as falsy.  The
    fields [damage] and [loopsAlive] are written and never read. *)
Record Alien := mkAlien {
  a_row : nat;
  a_col : nat;
  a_x : Q;
  a_y : Q;
  alive : bool;
  hp : option Z;
  maxHp : option Z;
  evolved : bool;
  respawnIn : option Z
}.

Record Projectile := mkProjectile {
  p_type : ProjType;
  p_x : Q;
  p_y : Q;
  p_speed : Q;
  p_damage : Z;
  p_row : nat;
  aliensOnStep : nat
}.

Record Bullet := mkBullet {
  b_x : Q;
  b_y : Q;
  b_speed : Q;
  b_vx : option Q;
  b_vy : option Q
}.

Record PowerUp := mkPowerUp {
  u_x : Q;
  u_y : Q;
  u_type : PowerType;
  u_speed : Q
}.

Record FireZone := mkFireZone {
  z_x : Q;
  z_y : Q;
  z_life : Z;
  damageTimer : Z
}.

Record Defender := mkDefender {
  d_x : Q;
  d_y : Q;
  d_width : Q;
  d_height : Q;
  d_speed : Q
}.

Record ActivePowerUps := mkActive {
  ap_shield : Z;
  ap_speedBoost : Z;
  ap_rapidFire : Z;
  ap_spreadShot : Z
}.

(** ** The game object *)

Record Game := mkGame {
  currentWave : Z;
  currentLoop : Z;
  loopsPerWave : Z;
  wavePhase : Phase;
  phaseTimer : Z;
  alienBudget : Z;
  alienBudgetMax : Z;
  budgetShakeTimer : Z;
  aiColumnHeatmap : list (option Z);
  aiAdapting : bool;
  evolvedCells : list (nat * nat);
  isBossWave : bool;
  upgrades : list CardId;
  currentCardChoices : list CardId;
  fireZones : list FireZone;
  defenderMaxHP : Z;
  defenderHP : Z;
  bossShield : Z;
  bossShieldTimer : Z;
  bossMissileTimer : Z;
  lastShotTime : Q;
  shotDelay : Q;
  aiAccuracy : Q;
  aiActive : bool;
  aiShotsPerTurn : nat;
  defender : Defender;
  gridRows : nat;
  score : Z;
  grid : list (list bool);
  aliens : list Alien;
  alienProjectiles : list Projectile;
  bullets : list Bullet;
  currentStep : nat;
  lastStepTime : Q;
  bpm : Z;
  stepInterval : Q;
  powerUps : list PowerUp;
  activePowerUps : ActivePowerUps;
  gameOver : bool;
  isPaused : bool;
  isStarted : bool;
  freezeFrames : Z;
  touchLeft : bool;
  touchRight : bool;
  soundLog : list nat
}.

Definition eta_Game (s : Game) : Game :=
  mkGame (currentWave s) (currentLoop s) (loopsPerWave s) (wavePhase s)
    (phaseTimer s) (alienBudget s) (alienBudgetMax s) (budgetShakeTimer s)
    (aiColumnHeatmap s) (aiAdapting s) (evolvedCells s) (isBossWave s)
    (upgrades s) (currentCardChoices s) (fireZones s) (defenderMaxHP s)
    (defenderHP s) (bossShield s) (bossShieldTimer s) (bossMissileTimer s)
    (lastShotTime s) (shotDelay s) (aiAccuracy s) (aiActive s)
    (aiShotsPerTurn s) (defender s) (gridRows s) (score s) (grid s)
    (aliens s) (alienProjectiles s) (bullets s) (currentStep s)
    (lastStepTime s) (bpm s) (stepInterval s) (powerUps s)
    (activePowerUps s) (gameOver s) (isPaused s) (isStarted s)
    (freezeFrames s) (touchLeft s) (touchRight s) (soundLog s).

(** An assignment [this.f = v] is the setter [set_f v]: the eta-expansion
    of the object with the field [f] abstracted. *)
Ltac make_setter eta p :=
  let v := fresh "v" in
  let s := fresh "s" in
  intros v s;
  let body := eval cbv delta [eta] beta in (eta s) in
  match eval pattern (p s) in body with
  | ?f _ => let t := eval cbv beta in (f v) in exact t
  end.

Definition set_currentWave : Z -> Game -> Game.
Proof. make_setter eta_Game currentWave. Defined.
Definition set_currentLoop : Z -> Game -> Game.
Proof. make_setter eta_Game currentLoop. Defined.
Definition set_wavePhase : Phase -> Game -> Game.
Proof. make_setter eta_Game wavePhase. Defined.
Definition set_phaseTimer : Z -> Game -> Game.
Proof. make_setter eta_Game phaseTimer. Defined.
Definition set_alienBudget : Z -> Game -> Game.
Proof. make_setter eta_Game alienBudget. Defined.
Definition set_alienBudgetMax : Z -> Game -> Game.
Proof. make_setter eta_Game alienBudgetMax. Defined.
Definition set_budgetShakeTimer : Z -> Game -> Game.
Proof. make_setter eta_Game budgetShakeTimer. Defined.
Definition set_aiColumnHeatmap : list (option Z) -> Game -> Game.
Proof. make_setter eta_Game aiColumnHeatmap. Defined.
Definition set_aiAdapting : bool -> Game -> Game.
Proof. make_setter eta_Game aiAdapting. Defined.
Definition set_evolvedCells : list (nat * nat) -> Game -> Game.
Proof. make_setter eta_Game evolvedCells. Defined.
Definition set_isBossWave : bool -> Game -> Game.
Proof. make_setter eta_Game isBossWave. Defined.
Definition set_upgrades : list CardId -> Game -> Game.
Proof. make_setter eta_Game upgrades. Defined.
Definition set_currentCardChoices : list CardId -> Game -> Game.
Proof. make_setter eta_Game currentCardChoices. Defined.
Definition set_fireZones : list FireZone -> Game -> Game.
Proof. make_setter eta_Game fireZones. Defined.
Definition set_defenderMaxHP : Z -> Game -> Game.
Proof. make_setter eta_Game defenderMaxHP. Defined.
Definition set_defenderHP : Z -> Game -> Game.
Proof. make_setter eta_Game defenderHP. Defined.
Definition set_bossShield : Z -> Game -> Game.
Proof. make_setter eta_Game bossShield. Defined.
Definition set_bossShieldTimer : Z -> Game -> Game.
Proof. make_setter eta_Game bossShieldTimer. Defined.
Definition set_bossMissileTimer : Z -> Game -> Game.
Proof. make_setter eta_Game bossMissileTimer. Defined.
Definition set_lastShotTime : Q -> Game -> Game.
Proof. make_setter eta_Game lastShotTime. Defined.
Definition set_shotDelay : Q -> Game -> Game.
Proof. make_setter eta_Game shotDelay. Defined.
Definition set_aiAccuracy : Q -> Game -> Game.
Proof. make_setter eta_Game aiAccuracy. Defined.
Definition set_aiShotsPerTurn : nat -> Game -> Game.
Proof. make_setter eta_Game aiShotsPerTurn. Defined.
Definition set_defender : Defender -> Game -> Game.
Proof. make_setter eta_Game defender. Defined.
Definition set_gridRows : nat -> Game -> Game.
Proof. make_setter eta_Game gridRows. Defined.
Definition set_score : Z -> Game -> Game.
Proof. make_setter eta_Game score. Defined.
Definition set_grid : list (list bool) -> Game -> Game.
Proof. make_setter eta_Game grid. Defined.
Definition set_aliens : list Alien -> Game -> Game.
Proof. make_setter eta_Game aliens. Defined.
Definition set_alienProjectiles : list Projectile -> Game -> Game.
Proof. make_setter eta_Game alienProjectiles. Defined.
Definition set_bullets : list Bullet -> Game -> Game.
Proof. make_setter eta_Game bullets. Defined.
Definition set_currentStep : nat -> Game -> Game.
Proof. make_setter eta_Game currentStep. Defined.
Definition set_lastStepTime : Q -> Game -> Game.
Proof. make_setter eta_Game lastStepTime. Defined.
Definition set_bpm : Z -> Game -> Game.
Proof. make_setter eta_Game bpm. Defined.
Definition set_stepInterval : Q -> Game -> Game.
Proof. make_setter eta_Game stepInterval. Defined.
Definition set_powerUps : list PowerUp -> Game -> Game.
Proof. make_setter eta_Game powerUps. Defined.
Definition set_activePowerUps : ActivePowerUps -> Game -> Game.
Proof. make_setter eta_Game activePowerUps. Defined.
Definition set_gameOver : bool -> Game -> Game.
Proof. make_setter eta_Game gameOver. Defined.
Definition set_isPaused : bool -> Game -> Game.
Proof. make_setter eta_Game isPaused. Defined.
Definition set_isStarted : bool -> Game -> Game.
Proof. make_setter eta_Game isStarted. Defined.
Definition set_freezeFrames : Z -> Game -> Game.
Proof. make_setter eta_Game freezeFrames. Defined.
Definition set_touchLeft : bool -> Game -> Game.
Proof. make_setter eta_Game touchLeft. Defined.
Definition set_touchRight : bool -> Game -> Game.
Proof. make_setter eta_Game touchRight. Defined.
Definition set_soundLog : list nat -> Game -> Game.
Proof. make_setter eta_Game soundLog. Defined.

Definition eta_Defender (s : Defender) : Defender :=
  mkDefender (d_x s) (d_y s) (d_width s) (d_height s) (d_speed s).
Definition set_d_x : Q -> Defender -> Defender.
Proof. make_setter eta_Defender d_x. Defined.
Definition set_d_speed : Q -> Defender -> Defender.
Proof. make_setter eta_Defender d_speed. Defined.

Definition eta_Active (s : ActivePowerUps) : ActivePowerUps :=
  mkActive (ap_shield s) (ap_speedBoost s) (ap_rapidFire s) (ap_spreadShot s).
Definition set_ap_shield : Z -> ActivePowerUps -> ActivePowerUps.
Proof. make_setter eta_Active ap_shield. Defined.
Definition set_ap_speedBoost : Z -> ActivePowerUps -> ActivePowerUps.
Proof. make_setter eta_Active ap_speedBoost. Defined.
Definition set_ap_rapidFire : Z -> ActivePowerUps -> ActivePowerUps.
Proof. make_setter eta_Active ap_rapidFire. Defined.
Definition set_ap_spreadShot : Z -> ActivePowerUps -> ActivePowerUps.
Proof. make_setter eta_Active ap_spreadShot. Defined.

Definition eta_Alien (s : Alien) : Alien :=
  mkAlien (a_row s) (a_col s) (a_x s) (a_y s) (alive s) (hp s) (maxHp s)
    (evolved s) (respawnIn s).
Definition set_alive : bool -> Alien -> Alien.
Proof. make_setter eta_Alien alive. Defined.
Definition set_hp : option Z -> Alien -> Alien.
Proof. make_setter eta_Alien hp. Defined.
Definition set_respawnIn : option Z -> Alien -> Alien.
Proof. make_setter eta_Alien respawnIn. Defined.

Definition eta_Projectile (s : Projectile) : Projectile :=
  mkProjectile (p_type s) (p_x s) (p_y s) (p_speed s) (p_damage s) (p_row s)
    (aliensOnStep s).
Definition set_p_x : Q -> Projectile -> Projectile.
Proof. make_setter eta_Projectile p_x. Defined.
Definition set_p_y : Q -> Projectile -> Projectile.
Proof. make_setter eta_Projectile p_y. Defined.
Definition set_p_damage : Z -> Projectile -> Projectile.
Proof. make_setter eta_Projectile p_damage. Defined.

Definition eta_FireZone (s : FireZone) : FireZone :=
  mkFireZone (z_x s) (z_y s) (z_life s) (damageTimer s).
Definition set_z_life : Z -> FireZone -> FireZone.
Proof. make_setter eta_FireZone z_life. Defined.
Definition set_damageTimer : Z -> FireZone -> FireZone.
Proof. make_setter eta_FireZone damageTimer. Defined.

(** ** Constants of the constructor that are never reassigned *)

Definition canvasWidth : Q := 800.
Definition canvasHeight : Q := 600.
Definition gridCols : nat := 16.
Definition cellWidth : Q := canvasWidth / nq gridCols.
Definition cellHeight : Q := 40.
Definition gridYOffset : Q := 100.
Definition alienCosts : list Z := [3; 2; 1; 2; 4].

(** [this.alienCosts[row] || 1] *)
Definition costOf (row : nat) : Z :=
  match nth_error alienCosts row with
  | Some c => if c =? 0 then 1 else c
  | None => 1
  end.

Definition cellX (col : nat) : Q := nq col * cellWidth + cellWidth / 2.
Definition cellY (row : nat) : Q := nq row * cellHeight + gridYOffset + cellHeight / 2.

(** [(60 / this.bpm) * 1000 / 4] *)
Definition stepIntervalOf (b : Z) : Q := (60 / zq b) * 1000 / 4.

(** [1 + ((this.bpm - 60) / (200 - 60)) * 1.5] *)
Definition speedScale (b : Z) : Q := 1 + ((zq b - 60) / (200 - 60)) * (3 # 2).

(** ** Grid and sets *)

(** [this.grid[row][col]], read where a missing row or cell is falsy. *)
Definition gridCell (g : list (list bool)) (row col : nat) : bool :=
  nth col (nth row g []) false.

(** [this.grid[row][col] = v] *)
Definition setCell (g : list (list bool)) (row col : nat) (v : bool) : list (list bool) :=
  setNth [] row (setNth false col v (nth row g [])) g.

(** [Array(rows).fill().map(() => Array(cols).fill(false))] *)
Definition emptyGrid (rows cols : nat) : list (list bool) :=
  repeat (repeat false cols) rows.

(** The set [evolvedCells]; the key [`${row},${col}`] is the pair. *)
Definition cellKey_eqb (a b : nat * nat) : bool :=
  Nat.eqb (fst a) (fst b) && Nat.eqb (snd a) (snd b).
Definition set_has (k : nat * nat) (s : list (nat * nat)) : bool :=
  existsb (cellKey_eqb k) s.
Definition set_delete (k : nat * nat) (s : list (nat * nat)) : list (nat * nat) :=
  filter (fun x => negb (cellKey_eqb k x)) s.
Definition set_add (k : nat * nat) (s : list (nat * nat)) : list (nat * nat) :=
  if set_has k s then s else s ++ [k].

(** [this.upgrades.id] is truthy *)
Definition hasUpgrade (c : CardId) (st : Game) : bool :=
  if in_dec CardId_eq_dec c (upgrades st) then true else false.

(** [for (let i = 0; i < n; i++)] as the list of the indices *)
Definition upto (n : nat) : list nat := seq 0 n.

(** ** The constructor, for a page opened without a pattern in the URL.

    [aiColumnHeatmap] is built by [Array(this.gridCols).fill(0)] before
    [gridCols] is assigned: [Array(undefined)] has length one. *)
Definition newGame : Game :=
  {| currentWave := 1; currentLoop := 1; loopsPerWave := 8;
     wavePhase := playing; phaseTimer := 0;
     alienBudget := 8; alienBudgetMax := 8; budgetShakeTimer := 0;
     aiColumnHeatmap := [Some 0]; aiAdapting := false;
     evolvedCells := []; isBossWave := false;
     upgrades := []; currentCardChoices := []; fireZones := [];
     defenderMaxHP := 60; defenderHP := 60;
     bossShield := 0; bossShieldTimer := 0; bossMissileTimer := 0;
     lastShotTime := 0%Q; shotDelay := 900%Q; aiAccuracy := (1 # 2)%Q;
     aiActive := true; aiShotsPerTurn := 1;
     defender := {| d_x := canvasWidth / 2; d_y := canvasHeight - 50;
                    d_width := 40; d_height := 30; d_speed := 5 |};
     gridRows := 3; score := 0;
     grid := emptyGrid 3 gridCols;
     aliens := []; alienProjectiles := []; bullets := [];
     currentStep := 0; lastStepTime := 0%Q; bpm := 120;
     stepInterval := stepIntervalOf 120;
     powerUps := [];
     activePowerUps := {| ap_shield := 0; ap_speedBoost := 0;
                          ap_rapidFire := 0; ap_spreadShot := 0 |};
     gameOver := false; isPaused := false; isStarted := false;
     freezeFrames := 0; touchLeft := false; touchRight := false;
     soundLog := [] |}.

(** ** Editing the pattern *)

(** The alien pushed by [toggleGridCell] and [loadPreset]: no [hp]. *)
Definition placedAlien (st : Game) (row col : nat) : Alien :=
  let isEvolved := set_has (row, col) (evolvedCells st) in
  {| a_row := row; a_col := col; a_x := cellX col; a_y := cellY row;
     alive := true; hp := None; maxHp := None; evolved := isEvolved;
     respawnIn := None |}.

Definition alienAt (row col : nat) (a : Alien) : bool :=
  Nat.eqb (a_row a) row && Nat.eqb (a_col a) col.

(** [toggleGridCell(row, col)].  Reading [this.grid[row][col]] with a row
    that does not exist throws a TypeError: [None]. *)
Definition toggleGridCell (row col : nat) (st : Game) : option Game :=
  match nth_error (grid st) row with
  | None => None
  | Some r =>
    Some (
    if nth col r false then
      let st := set_grid (setCell (grid st) row col false) st in
      let st := set_aliens (filter (fun a => negb (alienAt row col a)) (aliens st)) st in
      let cost := costOf row in
      let st := set_alienBudget (alienBudget st + cost) st in
      let st := if alienBudgetMax st <? alienBudget st
                then set_alienBudget (alienBudgetMax st) st else st in
      set_evolvedCells (set_delete (row, col) (evolvedCells st)) st
    else
      let cost := costOf row in
      if alienBudget st <? cost then
        set_budgetShakeTimer 20 st
      else
        let st := set_grid (setCell (grid st) row col true) st in
        let st := set_aliens (aliens st ++ [placedAlien st row col]) st in
        set_alienBudget (alienBudget st - cost) st)
  end.

(** [clearGrid()] *)
Definition clearGrid (st : Game) : Game :=
  let st := set_grid (emptyGrid (gridRows st) gridCols) st in
  let st := set_aliens [] st in
  set_alienBudget (alienBudgetMax st) st.

(** [pattern[row] && pattern[row][col] === 1] *)
Definition patternCell (pattern : list (list Z)) (row col : nat) : bool :=
  match nth_error pattern row with
  | Some r => match nth_error r col with
              | Some v => v =? 1
              | None => false
              end
  | None => false
  end.

(** The body of the two loops of [loadPreset], for one cell. *)
Definition loadPresetCell (pattern : list (list Z)) (col row : nat) (st : Game) : Game :=
  if patternCell pattern row col then
    let cost := costOf row in
    if cost <=? alienBudget st then
      let st := set_grid (setCell (grid st) row col true) st in
      let st := set_aliens (aliens st ++ [placedAlien st row col]) st in
      set_alienBudget (alienBudget st - cost) st
    else st
  else st.

(** [loadPreset(pattern)]: columns outside, rows inside. *)
Definition loadPreset (pattern : list (list Z)) (st : Game) : Game :=
  let st := clearGrid st in
  fold_left (fun st col =>
    fold_left (fun st row => loadPresetCell pattern col row st)
              (upto (gridRows st)) st)
    (upto gridCols) st.

(** [loadPatternFromURL()], the last call of the constructor.  [pattern]
    is what the hash of the page gives for [pattern]: the rows between the
    dashes, each as the integer that [parseInt(_, 16)] returns (a row that
    does not parse has no bit set and is 0 here); [urlBpm] is
    [parseInt(bpm)] when it is a number.  The cells are set without a
    charge on the budget, and their aliens have neither [hp] nor
    [evolved]. *)
Definition urlAlien (row col : nat) : Alien :=
  {| a_row := row; a_col := col; a_x := cellX col; a_y := cellY row;
     alive := true; hp := None; maxHp := None; evolved := false;
     respawnIn := None |}.

(** [if (rowBits & (1 << (15 - col)))] and its body *)
Definition urlCell (rows : list Z) (row col : nat) (st : Game) : Game :=
  if Z.testbit (nth row rows 0) (Z.of_nat (15 - col)) then
    let st := set_grid (setCell (grid st) row col true) st in
    set_aliens (aliens st ++ [urlAlien row col]) st
  else st.

(** The block [if (pattern) { ... }] *)
Definition loadUrlPattern (pattern : option (list Z)) (st : Game) : Game :=
  match pattern with
  | Some rows =>
    if (3 <=? length rows)%nat then
      let st := clearGrid st in
      fold_left (fun st row =>
        fold_left (fun st col => urlCell rows row col st) (upto 16) st)
        (upto (Nat.min (length rows) 3)) st
    else st
  | None => st
  end.

(** The block [if (bpm) { ... }] *)
Definition loadUrlBpm (urlBpm : option Z) (st : Game) : Game :=
  match urlBpm with
  | Some newBpm =>
    if (60 <=? newBpm) && (newBpm <=? 200) then
      let st := set_bpm newBpm st in
      let st := set_stepInterval (stepIntervalOf (bpm st)) st in
      set_defender
        (set_d_speed (zq (Qround_js (5 * speedScale (bpm st)))) (defender st)) st
    else st
  | None => st
  end.

Definition loadPatternFromURL (pattern : option (list Z)) (urlBpm : option Z)
  (st : Game) : Game :=
  loadUrlBpm urlBpm (loadUrlPattern pattern st).

(** [respawnAliens()].  The rows read are below [gridRows], which is the
    length of [grid] in every state the game builds. *)
Definition respawnedAlien (st : Game) (row col : nat) : Alien :=
  let isEvolved := set_has (row, col) (evolvedCells st) in
  let baseHP := if hasUpgrade alienArmor st then 2 else 1 in
  let baseHP := if isBossWave st then baseHP * 3 else baseHP in
  {| a_row := row; a_col := col; a_x := cellX col; a_y := cellY row;
     alive := true; hp := Some baseHP; maxHp := Some baseHP;
     evolved := isEvolved; respawnIn := None |}.

Definition respawnAliens (st : Game) : Game :=
  set_aliens
    (flat_map (fun row =>
       flat_map (fun col =>
         if gridCell (grid st) row col then [respawnedAlien st row col] else [])
         (upto gridCols))
       (upto (gridRows st)))
    st.

(** [updateAIForWave()] *)
Definition updateAIForWave (st : Game) : Game :=
  let w := currentWave st in
  let hpFor := 60 + (w - 1) * 15 in
  if w =? 1 then
    set_defenderMaxHP 60 (set_aiShotsPerTurn 1 (set_aiAccuracy (3 # 10)
      (set_shotDelay 1500 st)))
  else if w <=? 2 then
    set_defenderMaxHP hpFor (set_aiShotsPerTurn 1 (set_aiAccuracy (4 # 10)
      (set_shotDelay 1200 st)))
  else if w =? 3 then
    set_defenderMaxHP hpFor (set_aiShotsPerTurn 1 (set_aiAccuracy (5 # 10)
      (set_shotDelay 900 st)))
  else if w =? 4 then
    set_defenderMaxHP hpFor (set_aiShotsPerTurn 1 (set_aiAccuracy (65 # 100)
      (set_shotDelay 600 st)))
  else if w mod 5 =? 0 then
    let st := set_defenderMaxHP hpFor (set_aiShotsPerTurn 2 (set_aiAccuracy (8 # 10)
      (set_shotDelay 400 st))) in
    let st := set_defender
      (set_d_speed (zq (Qround_js (5 * speedScale (bpm st) * (3 # 2)))) (defender st)) st in
    set_bossMissileTimer (30 * 60) (set_bossShieldTimer (20 * 60) st)
  else if 10 <=? w then
    set_defenderMaxHP hpFor (set_aiShotsPerTurn 3 (set_aiAccuracy (9 # 10)
      (set_shotDelay 200 st)))
  else
    set_defenderMaxHP hpFor (set_aiShotsPerTurn 2 (set_aiAccuracy (85 # 100)
      (set_shotDelay 350 st))).

(** [restartGame()] *)
Definition restartGame (st : Game) : Game :=
  let st := set_currentWave 1 st in
  let st := set_currentLoop 1 st in
  let st := set_defenderHP (defenderMaxHP st) st in
  let st := set_score 0 st in
  let st := set_wavePhase playing st in
  let st := set_gameOver false st in
  let st := set_isBossWave false st in
  let st := set_upgrades [] st in
  let st := set_currentCardChoices [] st in
  let st := set_fireZones [] st in
  let st := set_alienBudget 8 st in
  let st := set_alienBudgetMax 8 st in
  let st := set_evolvedCells [] st in
  let st := set_aiAdapting false st in
  let st := set_aiColumnHeatmap (repeat (Some 0) gridCols) st in
  let st := set_defender (set_d_x (canvasWidth / 2) (defender st)) st in
  let st := set_bullets [] st in
  let st := set_alienProjectiles [] st in
  let st := set_powerUps [] st in
  let st := set_activePowerUps
    {| ap_shield := 0; ap_speedBoost := 0; ap_rapidFire := 0; ap_spreadShot := 0 |} st in
  let st := updateAIForWave st in
  respawnAliens st.

(** ** Cards *)

(** [getCardPool()], in its order. *)
Definition getCardPool : list CardId :=
  [napalmRounds; chainLightning; homingBoost; volleyFire;
   alienArmor; quickRespawn; lootDenial;
   extraRow; tempoPush; doubleTime;
   scramble; mirrorBeat].

(** [Math.floor(Math.random() * n)] for a draw [r]. *)
Definition randomIndex (r : Q) (n : nat) : nat := Z.to_nat (Qfloor (r * nq n)).

(** The first loop of [generateCardChoices]: [k] picks, each removed from
    the copy of the pool.  [rnd i] is the [i]-th draw of the call. *)
Fixpoint pickCards (rnd : nat -> Q) (i k : nat) (poolCopy choices : list CardId)
  : list CardId :=
  match k with
  | O => choices
  | S k' =>
    let index := randomIndex (rnd i) (length poolCopy) in
    match nth_error poolCopy index with
    | Some c => pickCards rnd (S i) k' (splice index poolCopy) (choices ++ [c])
    | None => pickCards rnd (S i) k' poolCopy choices
    end
  end.

(** The second loop: duplicates until there are three choices. *)
Fixpoint fillCards (rnd : nat -> Q) (i k : nat) (available choices : list CardId)
  : list CardId :=
  match k with
  | O => choices
  | S k' =>
    match nth_error available (randomIndex (rnd i) (length available)) with
    | Some c => fillCards rnd (S i) k' available (choices ++ [c])
    | None => fillCards rnd (S i) k' available choices
    end
  end.

(** [generateCardChoices()].  The loop bound [Math.min(3, poolCopy.length)]
    is read again at every turn while [poolCopy] shrinks: turn [i] runs
    when [i < min 3 (n - i)] for a pool of [n] cards, which gives one pick
    out of one or two cards, two out of three or four, three otherwise.
    The draws lie in [0, 1), so every index is inside its array. *)
Definition firstLoopTurns (n : nat) : nat :=
  match n with
  | 0 => 0
  | 1 => 1
  | 2 => 1
  | 3 => 2
  | 4 => 2
  | _ => 3
  end%nat.

Definition generateCardChoices (rnd : nat -> Q) (st : Game) : list CardId :=
  let available := filter (fun c => negb (hasUpgrade c st)) getCardPool in
  match available with
  | [] => [damageBoost; hpBoost; speedBoost]
  | _ =>
    let turns := firstLoopTurns (length available) in
    let choices := pickCards rnd 0 turns available [] in
    fillCards rnd turns (3 - length choices) available choices
  end.

(** The alien pushed by the scramble and mirror cards. *)
Definition cardAlien (st : Game) (row col : nat) : Alien :=
  {| a_row := row; a_col := col; a_x := cellX col; a_y := cellY row;
     alive := true; hp := Some (if hasUpgrade alienArmor st then 2 else 1);
     maxHp := None; evolved := false; respawnIn := None |}.

(** [!x] for a number that may be absent *)
Definition falsyZ (x : option Z) : bool :=
  match x with
  | None => true
  | Some v => v =? 0
  end.

(** One cell of the scramble card; [r] is its draw, made only when the
    cell is empty. *)
Definition scrambleCell (r : Q) (row col : nat) (st : Game) : Game :=
  if negb (gridCell (grid st) row col) && Qltb r (3 # 10) then
    let st := set_grid (setCell (grid st) row col true) st in
    set_aliens (aliens st ++ [cardAlien st row col]) st
  else st.

(** One column pair of the mirror card. *)
Definition mirrorCell (row col : nat) (st : Game) : Game :=
  let mirrorCol := (gridCols - 1 - col)%nat in
  if gridCell (grid st) row col && negb (gridCell (grid st) row mirrorCol) then
    let st := set_grid (setCell (grid st) row mirrorCol true) st in
    set_aliens (aliens st ++ [cardAlien st row mirrorCol]) st
  else if negb (gridCell (grid st) row col) && gridCell (grid st) row mirrorCol then
    let st := set_grid (setCell (grid st) row col true) st in
    set_aliens (aliens st ++ [cardAlien st row col]) st
  else st.

(** [applyUpgrade(card)]; [rnd row col] is the draw of the scramble card
    for a cell.  The cards that only show a pop-up change nothing. *)
Definition applyUpgrade (rnd : nat -> nat -> Q) (card : CardId) (st : Game) : Game :=
  match card with
  | alienArmor =>
    set_aliens (map (fun a => if falsyZ (hp a) then set_hp (Some 2) a else a)
                    (aliens st)) st
  | extraRow =>
    if Nat.eqb (gridRows st) 3 then
      let st := set_gridRows 4 st in
      set_grid (grid st ++ [repeat false gridCols]) st
    else st
  | tempoPush =>
    let st := set_bpm (bpm st + 20) st in
    let st := set_stepInterval (stepIntervalOf (bpm st)) st in
    set_defender (set_d_speed (zq (Qround_js (5 * speedScale (bpm st)))) (defender st)) st
  | scramble =>
    fold_left (fun st row =>
      fold_left (fun st col => scrambleCell (rnd row col) row col st)
                (upto gridCols) st)
      (upto (gridRows st)) st
  | mirrorBeat =>
    fold_left (fun st row =>
      fold_left (fun st col => mirrorCell row col st)
                (upto (gridCols / 2)) st)
      (upto (gridRows st)) st
  | hpBoost =>
    let st := set_defenderMaxHP (defenderMaxHP st + 15) st in
    set_defenderHP (defenderHP st + 15) st
  | speedBoost =>
    set_defender (set_d_speed (d_speed (defender st) + 1) (defender st)) st
  | _ => st
  end.

(** [this.upgrades[card.id] = true] *)
Definition markUpgrade (c : CardId) (st : Game) : Game :=
  if hasUpgrade c st then st else set_upgrades (upgrades st ++ [c]) st.

(** [selectCard(index)] *)
Definition selectCard (rnd : nat -> nat -> Q) (index : Z) (st : Game) : Game :=
  if (index <? 0) || (Z.of_nat (length (currentCardChoices st)) <=? index) then st
  else
    match nth_error (currentCardChoices st) (Z.to_nat index) with
    | None => st
    | Some card =>
      let st := applyUpgrade rnd card st in
      let st := markUpgrade card st in
      let st := set_currentWave (currentWave st + 1) st in
      let st := set_alienBudgetMax (Z.min 24 (8 + (currentWave st - 1) * 2)) st in
      let st := set_alienBudget (alienBudgetMax st) st in
      let st := set_aiAdapting false st in
      let st := set_aiColumnHeatmap (repeat (Some 0) gridCols) st in
      let st := updateAIForWave st in
      let st := set_isBossWave (currentWave st mod 5 =? 0) st in
      let st := set_wavePhase prepare st in
      let st := set_phaseTimer 0 st in
      let st := set_currentCardChoices [] st in
      respawnAliens st
    end.

(** ** The defender and its AI *)

Open Scope Q_scope.

(** What a frame reads from outside: the clocks and the random draws.
    Every call site of [Math.random()] that the logic depends on has its own
    draw: [rndShoot] for the accuracy roll of [updateAI], [rndDrop i] and
    [rndDropType i] for the two draws of [dropPowerUp] when bullet [i]
    kills an alien, [rndCard] for [generateCardChoices]. *)
Record Env := mkEnv {
  perfNow : Q;
  dateNow : Q;
  rndShoot : Q;
  rndDrop : nat -> Q;
  rndDropType : nat -> Q;
  rndCard : nat -> Q
}.

(** [moveDefender(direction)] *)
Definition moveDefender (direction : Z) (st : Game) : Game :=
  let d := defender st in
  let newX := d_x d + zq direction * d_speed d in
  if Qleb 0 newX && Qleb newX (canvasWidth - d_width d) then
    set_defender (set_d_x newX d) st
  else st.

Definition zoneWidth : Q := canvasWidth / 16.

(** The integers from [lo] to [hi], ascending: [for (z = lo; z <= hi; z++)]. *)
Definition zrange (lo hi : Z) : list Z :=
  map (fun k => (lo + Z.of_nat k)%Z) (seq 0 (Z.to_nat (hi - lo + 1))).

(** [threatMap[z]], [undefined] outside the array *)
Definition threatAt (tm : list Q) (z : Z) : option Q :=
  if z <? 0 then None else nth_error tm (Z.to_nat z).

(** [threatMap[z]] as a number: the zones of the search are inside the
    array, and for the zone of the defender [undefined || 0] is 0. *)
Definition threatValue (tm : list Q) (z : Z) : Q :=
  match threatAt tm z with
  | Some t => t
  | None => 0
  end.

(** [threatMap[z] += v], for [z] inside the array *)
Definition addThreat (z : Z) (v : Q) (tm : list Q) : list Q :=
  match threatAt tm z with
  | Some old => setNth 0 (Z.to_nat z) (old + v) tm
  | None => tm
  end.

(** [for (z = max(0, zone - 1); z <= min(15, zone + 1); z++)
       threatMap[z] += amount * (z === zone ? 1.0 : 0.5)] *)
Definition spreadThreat (zone : Z) (amount : Q) (tm : list Q) : list Q :=
  fold_left (fun tm z => addThreat z (amount * (if z =? zone then 1 else (1 # 2))) tm)
            (zrange (Z.max 0 (zone - 1)) (Z.min 15 (zone + 1))) tm.

(** One projectile of the scan.  A projectile of speed zero has an
    infinite or undefined time to impact in JavaScript and the time 0 here;
    both fail the test. *)
Definition timeToImpact (d : Defender) (proj : Projectile) : Q :=
  (d_y d - p_y proj) / p_speed proj.

Definition imminent (d : Defender) (proj : Projectile) : bool :=
  Qltb 0 (timeToImpact d proj) && Qltb (timeToImpact d proj) 50.

Definition projZone (proj : Projectile) : Z := Qfloor (p_x proj / zoneWidth).

Definition urgency (d : Defender) (proj : Projectile) : Q :=
  1 / (timeToImpact d proj + 1).

Definition projThreat (d : Defender) (tm : list Q) (proj : Projectile) : list Q :=
  if imminent d proj then spreadThreat (projZone proj) (urgency d proj) tm
  else tm.

(** One column of the adaptation scan; an absent or NaN heat is not
    [> 0]. *)
Definition heatThreat (heat : list (option Z)) (tm : list Q) (col : nat) : list Q :=
  match nth col heat None with
  | Some h =>
    if 0 <? h then
      spreadThreat (Qfloor ((nq col * cellWidth + cellWidth / 2) / zoneWidth))
                   (zq h * (3 # 10)) tm
    else tm
  | None => tm
  end.

(** The threat map of a frame. *)
Definition threatMap (st : Game) : list Q :=
  let tm := fold_left (projThreat (defender st)) (alienProjectiles st)
                      (repeat 0 16) in
  if aiAdapting st then
    fold_left (heatThreat (aiColumnHeatmap st)) (upto gridCols) tm
  else tm.

Definition defenderCenter (st : Game) : Q :=
  d_x (defender st) + d_width (defender st) / 2.

Definition currentZone (st : Game) : Z := Qfloor (defenderCenter st / zoneWidth).

(** [threatMap[currentZone] || 0] *)
Definition currentThreat (st : Game) : Q :=
  threatValue (threatMap st) (currentZone st).

(** The score of a zone in the search. *)
Definition zoneScore (tm : list Q) (cur z : Z) : Q :=
  let score := threatValue tm z * 3 in
  let score := score + zq (Z.abs (z - cur)) * (1 # 10) in
  let score := if (z <=? 1) || (14 <=? z) then score + (1 # 2) else score in
  score + zq (Z.abs (z - 8)) * (2 # 100).

(** One turn of the search; [None] is the initial [Infinity]. *)
Definition searchStep (tm : list Q) (cur : Z) (acc : Z * option Q) (z : Z)
  : Z * option Q :=
  let score := zoneScore tm cur z in
  match snd acc with
  | None => (z, Some score)
  | Some bestScore => if Qltb score bestScore then (z, Some score) else acc
  end.

Definition searchWindow (cur : Z) : list Z :=
  zrange (Z.max 0 (cur - 4)) (Z.min 15 (cur + 4)).

Definition bestZone (tm : list Q) (cur : Z) : Z :=
  fst (fold_left (searchStep tm cur) (searchWindow cur) (cur, None)).

(** The nearest alive alien: the first one at the least distance. *)
Definition nearestStep (center : Q) (acc : option (Alien * Q)) (a : Alien)
  : option (Alien * Q) :=
  if alive a then
    let distance := Qabs (a_x a - center) in
    match acc with
    | None => Some (a, distance)
    | Some (_, minDistance) =>
      if Qltb distance minDistance then Some (a, distance) else acc
    end
  else acc.

(** The direction chosen by the first half of [updateAI]. *)
Definition moveDir (st : Game) : Z :=
  let center := defenderCenter st in
  let canvasCenter := canvasWidth / 2 in
  let atLeftWall := Qleb (d_x (defender st)) 5 in
  let atRightWall := Qleb (canvasWidth - d_width (defender st) - 5) (d_x (defender st)) in
  let cur := currentZone st in
  if Qltb (3 # 10) (currentThreat st) then
    let best := bestZone (threatMap st) cur in
    if best <? cur then (-1)%Z
    else if cur <? best then 1%Z
    else if atLeftWall then 1%Z
    else if atRightWall then (-1)%Z
    else 0%Z
  else
    match fold_left (nearestStep center) (aliens st) None with
    | Some (nearestAlien, minDistance) =>
      if Qltb 10 minDistance then
        (if Qltb center (a_x nearestAlien) then 1 else -1)%Z
      else if Qltb 100 (Qabs (center - canvasCenter)) then
        (if Qltb center canvasCenter then 1 else -1)%Z
      else 0%Z
    | None =>
      if Qltb 100 (Qabs (center - canvasCenter)) then
        (if Qltb center canvasCenter then 1 else -1)%Z
      else 0%Z
    end.

(** [Math.sin(radians) * 10] and [Math.cos(radians) * 10] at fifteen
    degrees, to twelve digits. *)
Definition sin15x10 : Q := 2588190451025 # 1000000000000.
Definition cos15x10 : Q := 9659258262891 # 1000000000000.

(** [shoot()] *)
Definition shoot (st : Game) : Game :=
  let x := defenderCenter st in
  let y := d_y (defender st) in
  if 0 <? ap_spreadShot (activePowerUps st) then
    set_bullets (bullets st ++
      [ mkBullet x y 10 (Some (- sin15x10)) (Some (- cos15x10));
        mkBullet x y 10 (Some 0) (Some (- (10)));
        mkBullet x y 10 (Some sin15x10) (Some (- cos15x10)) ]) st
  else
    set_bullets (bullets st ++ [mkBullet x y 10 (Some 0) (Some (- (10)))]) st.

(** The five missiles of the boss barrage. *)
Definition bossMissile (st : Game) (i : nat) : Projectile :=
  {| p_type := homing;
     p_x := (canvasWidth / 6) * (nq i + (1 # 2));
     p_y := gridYOffset + nq (gridRows st) * cellHeight;
     p_speed := 3; p_damage := 15; p_row := 0; aliensOnStep := 1 |}.

(** The boss block at the end of [updateAI]. *)
Definition bossAI (st : Game) : Game :=
  if isBossWave st && (0 <? defenderHP st) then
    let st :=
      if negb (bossShieldTimer st =? 0) then
        let st := set_bossShieldTimer (bossShieldTimer st - 1)%Z st in
        if bossShieldTimer st =? 0 then
          set_bossShieldTimer (20 * 60) (set_bossShield 3 st)
        else st
      else st in
    if negb (bossMissileTimer st =? 0) then
      let st := set_bossMissileTimer (bossMissileTimer st - 1)%Z st in
      if bossMissileTimer st =? 0 then
        let st := set_alienProjectiles
                    (alienProjectiles st ++ map (bossMissile st) (upto 5)) st in
        set_bossMissileTimer (30 * 60) st
      else st
    else st
  else st.

(** The shooting block of [updateAI]. *)
Definition aiShooting (env : Env) (st : Game) : Game :=
  let currentTime := dateNow env in
  let effectiveShotDelay :=
    if 0 <? ap_rapidFire (activePowerUps st) then shotDelay st / 2 else shotDelay st in
  if Qleb effectiveShotDelay (currentTime - lastShotTime st) then
    let aliveAliens := filter alive (aliens st) in
    let st :=
      if negb (Nat.eqb (length aliveAliens) 0) && Qltb (rndShoot env) (aiAccuracy st)
      then fold_left (fun st _ => shoot st) (upto (aiShotsPerTurn st)) st
      else st in
    set_lastShotTime currentTime st
  else st.

(** [updateAI()].  The block that steers toward power-ups only assigns the
    local [moveDir] after the move has been made; it changes nothing. *)
Definition updateAI (env : Env) (st : Game) : Game :=
  if negb (aiActive st) || isPaused st || negb (Phase_eqb (wavePhase st) playing)
  then st
  else
    let dir := moveDir st in
    let st := if dir =? 0 then st else moveDefender dir st in
    let st := aiShooting env st in
    bossAI st.

(** ** Alien weapons *)

Definition aliveInCol (col : nat) (a : Alien) : bool :=
  Nat.eqb (a_col a) col && alive a.

(** [this.aliens.filter(a => a.col === alien.col && a.alive).length] *)
Definition countOnStep (st : Game) (col : nat) : nat :=
  length (filter (aliveInCol col) (aliens st)).

Definition isSalvo (st : Game) (alien : Alien) : bool :=
  (3 <=? countOnStep st (a_col alien))%nat.

Definition isSyncopated (alien : Alien) : bool :=
  Nat.eqb (a_col alien mod 2) 1.

Definition hasSilence (st : Game) (alien : Alien) : bool :=
  if (2 <=? a_col alien)%nat then
    negb (existsb (aliveInCol (a_col alien - 1)) (aliens st)) &&
    negb (existsb (aliveInCol (a_col alien - 2)) (aliens st))
  else false.

Definition damageMultiplier (st : Game) (alien : Alien) : Q :=
  let m := 1 in
  let m := if isSalvo st alien then m * (3 # 2) else m in
  let m := if isSyncopated alien then m * (13 # 10) else m in
  if hasSilence st alien then m * 2 else m.

(** The damage before the boss boost, the multipliers and the evolution
    bonus: the value of [baseDamage], [bulletDamage] or [homingDamage]
    after the two occupancy tests of its row. *)
Definition tierDamage (row n : nat) : Z :=
  match row with
  | 0%nat => if Nat.eqb n 3 then 18 else if Nat.eqb n 2 then 15 else 12
  | 1%nat => if (2 <=? n)%nat then 4 else 3
  | 2%nat => if Nat.eqb n 3 then 10 else if Nat.eqb n 2 then 8 else 6
  | _ => if (2 <=? n)%nat then 4 else 3
  end%Z.

(** The damage written on the projectiles of one shot. *)
Definition shotDamage (st : Game) (alien : Alien) : Z :=
  let d := tierDamage (a_row alien) (countOnStep st (a_col alien)) in
  let d := if isBossWave st then Qfloor (zq d * (3 # 2)) else d in
  let d := Qfloor (zq d * damageMultiplier st alien) in
  if evolved alien then (d + 2)%Z else d.

Definition bossSpeed (st : Game) : Q := if isBossWave st then 13 # 10 else 1.
Definition speedMultiplier (st : Game) : Q :=
  if hasUpgrade doubleTime st then 3 # 2 else 1.

Definition burstBullet (st : Game) (alien : Alien) (i : nat) : Projectile :=
  {| p_type := burst;
     p_x := a_x alien + (nq i - 1) * 8;
     p_y := a_y alien - nq i * 6;
     p_speed := (4 + nq i * (1 # 2)) * speedMultiplier st * bossSpeed st;
     p_damage := shotDamage st alien;
     p_row := a_row alien;
     aliensOnStep := countOnStep st (a_col alien) |}.

(** The projectiles pushed by [alienShoot(alien)]; rows past the fourth
    have no weapon. *)
Definition shotProjectiles (st : Game) (alien : Alien) : list Projectile :=
  match a_row alien with
  | 0%nat =>
    [ {| p_type := cannon; p_x := a_x alien; p_y := a_y alien;
         p_speed := 2 * speedMultiplier st * bossSpeed st;
         p_damage := shotDamage st alien; p_row := a_row alien;
         aliensOnStep := countOnStep st (a_col alien) |} ]
  | 1%nat => map (burstBullet st alien) (upto 3)
  | 2%nat =>
    [ {| p_type := homing; p_x := a_x alien; p_y := a_y alien;
         p_speed := 3 * speedMultiplier st * bossSpeed st;
         p_damage := shotDamage st alien; p_row := a_row alien;
         aliensOnStep := countOnStep st (a_col alien) |} ]
  | 3%nat => map (burstBullet st alien) (upto 3)
  | _ => []
  end.

(** [alienShoot(alien)] *)
Definition alienShoot (alien : Alien) (st : Game) : Game :=
  set_alienProjectiles (alienProjectiles st ++ shotProjectiles st alien) st.

(** ** End of a wave *)

(** [waveComplete()] *)
Definition waveComplete (env : Env) (st : Game) : Game :=
  let waveBonus := (currentWave st * 500)%Z in
  let bossBonus := (if isBossWave st then currentWave st * 1000 else 0)%Z in
  let st := set_score (score st + (waveBonus + bossBonus))%Z st in
  let st := set_defenderMaxHP (60 + currentWave st * 15)%Z st in
  let st := set_defenderHP (defenderMaxHP st) st in
  let st := set_currentCardChoices (generateCardChoices (rndCard env) st) st in
  let st := set_wavePhase cardpick st in
  let st := set_phaseTimer 0 st in
  let st := set_alienProjectiles [] st in
  set_bullets [] st.

(** [gameLost()] *)
Definition gameLost (st : Game) : Game :=
  set_gameOver true (set_wavePhase gameover st).

(** ** The frame *)

(** [for (let i = n - 1; i >= 0; i--) body(i)] *)
Fixpoint downFrom (n : nat) (body : nat -> Game -> Game) (st : Game) : Game :=
  match n with
  | O => st
  | S i => downFrom i body (body i st)
  end.

(** [Math.sqrt(dx * dx + dy * dy) < r], compared on the squares. *)
Definition within (r dx dy : Q) : bool := Qltb (dx * dx + dy * dy) (r * r).

(** One fire zone of the napalm loop. *)
Definition fireZoneStep (i : nat) (st : Game) : Game :=
  match nth_error (fireZones st) i with
  | None => st
  | Some zone =>
    let zone := set_z_life (z_life zone - 1)%Z zone in
    let d := defender st in
    let near := within 20 (z_x zone - (d_x d + d_width d / 2))
                          (z_y zone - (d_y d + d_height d / 2)) in
    let '(zone, st) :=
      if near then
        let zone := set_damageTimer (damageTimer zone + 1)%Z zone in
        if (30 <=? damageTimer zone)%Z then
          let st :=
            if (0 <? ap_shield (activePowerUps st))%Z then
              set_activePowerUps
                (set_ap_shield (ap_shield (activePowerUps st) - 1)%Z (activePowerUps st)) st
            else
              let st := set_defenderHP (defenderHP st - 2)%Z st in
              set_score (score st + 2)%Z st in
          (set_damageTimer 0%Z zone, st)
        else (zone, st)
      else (zone, st) in
    let st := set_fireZones (setNth zone i zone (fireZones st)) st in
    if (z_life zone <=? 0)%Z then set_fireZones (splice i (fireZones st)) st
    else st
  end.

(** [dropPowerUp(x, y)] with its two draws. *)
Definition dropChance (st : Game) : Q :=
  let c := if (6 <=? currentWave st)%Z then 4 # 10
           else if (3 <=? currentWave st)%Z then 3 # 10
           else 2 # 10 in
  if hasUpgrade lootDenial st then c * (1 # 2) else c.

Definition powerTypes : list (PowerType * Q) :=
  [(pu_repair, 30); (pu_shield, 15); (pu_speed, 20); (pu_rapidfire, 20); (pu_spread, 15)].

Fixpoint selectType (rand : Q) (types : list (PowerType * Q)) : PowerType :=
  match types with
  | [] => pu_repair
  | (t, w) :: rest => if Qleb (rand - w) 0 then t else selectType (rand - w) rest
  end.

Definition dropPowerUp (r1 r2 : Q) (x y : Q) (st : Game) : Game :=
  if Qltb (dropChance st) r1 then st
  else
    let totalWeight := fold_left (fun sum t => sum + snd t) powerTypes 0 in
    set_powerUps (powerUps st ++
      [ {| u_x := x; u_y := y; u_type := selectType (r2 * totalWeight) powerTypes;
           u_speed := 3 # 2 |} ]) st.

(** [checkCollision(bullet, alien)] *)
Definition checkCollision (bullet : Bullet) (alien : Alien) : bool :=
  let alienSize := 30 in
  Qleb (a_x alien - alienSize / 2) (b_x bullet) &&
  Qleb (b_x bullet) (a_x alien + alienSize / 2) &&
  Qleb (a_y alien - alienSize / 2) (b_y bullet) &&
  Qleb (b_y bullet) (a_y alien + alienSize / 2).

(** The index of the first alive alien that the bullet touches. *)
Fixpoint findHit (bullet : Bullet) (j : nat) (l : list Alien) : option (nat * Alien) :=
  match l with
  | [] => None
  | a :: rest =>
    if alive a && checkCollision bullet a then Some (j, a)
    else findHit bullet (S j) rest
  end.

(** One bullet of the bullet loop. *)
Definition bulletStep (env : Env) (i : nat) (st : Game) : Game :=
  match nth_error (bullets st) i with
  | None => st
  | Some bullet =>
    let bullet :=
      match b_vx bullet, b_vy bullet with
      | Some vx, Some vy =>
        mkBullet (b_x bullet + vx) (b_y bullet + vy) (b_speed bullet) (b_vx bullet) (b_vy bullet)
      | _, _ =>
        mkBullet (b_x bullet) (b_y bullet - b_speed bullet) (b_speed bullet)
                 (b_vx bullet) (b_vy bullet)
      end in
    let st := set_bullets (setNth bullet i bullet (bullets st)) st in
    match findHit bullet 0 (aliens st) with
    | Some (j, alien) =>
      let alien := if falsyZ (hp alien) then set_hp (Some 1%Z) alien else alien in
      let alien := set_hp (option_map (fun h => h - 1)%Z (hp alien)) alien in
      let dead := match hp alien with Some h => (h <=? 0)%Z | None => false end in
      let st :=
        if dead then
          let alien := set_alive false alien in
          let alien := if hasUpgrade quickRespawn st
                       then set_respawnIn (Some 8%Z) alien else alien in
          let st := set_aliens (setNth alien j alien (aliens st)) st in
          dropPowerUp (rndDrop env i) (rndDropType env i) (a_x alien) (a_y alien) st
        else set_aliens (setNth alien j alien (aliens st)) st in
      set_bullets (splice i (bullets st)) st
    | None =>
      if Qltb (b_y bullet) 0 then set_bullets (splice i (bullets st)) st else st
    end
  end.

(** [proj.x += Math.sign(dx) * Math.min(Math.abs(dx), trackingSpeed)] *)
Definition track (dx trackingSpeed : Q) : Q :=
  let step := if Qleb (Qabs dx) trackingSpeed then Qabs dx else trackingSpeed in
  if Qltb 0 dx then step else if Qltb dx 0 then - step else 0.

(** The movement of one projectile. *)
Definition moveProjectile (st : Game) (proj : Projectile) : Projectile :=
  let proj :=
    match p_type proj with
    | homing =>
      let dx := defenderCenter st - p_x proj in
      let trackingSpeed := if hasUpgrade homingBoost st then 12 # 10 else 1 # 2 in
      set_p_x (p_x proj + track dx trackingSpeed) proj
    | _ => proj
    end in
  set_p_y (p_y proj + p_speed proj) proj.

(** The direct collision test of a projectile with the defender. *)
Definition hitsDefender (d : Defender) (proj : Projectile) : bool :=
  Qleb (d_y d) (p_y proj) && Qleb (p_y proj) (d_y d + d_height d) &&
  Qleb (d_x d) (p_x proj) && Qleb (p_x proj) (d_x d + d_width d).

(** The blast radius of the heavy cannon. *)
Definition blastHits (d : Defender) (proj : Projectile) : bool :=
  within 30 (p_x proj - (d_x d + d_width d / 2))
            (p_y proj - (d_y d + d_height d / 2)).

(** The bonus score for crossfire. *)
Definition crossfireBonus (n : nat) : Z :=
  (if Nat.eqb n 2 then 10 else if Nat.eqb n 3 then 30 else 0)%Z.

(** The projectile of the chain lightning card. *)
Definition arcShot (proj : Projectile) : Projectile :=
  {| p_type := burst; p_x := p_x proj; p_y := p_y proj; p_speed := 4;
     p_damage := 3; p_row := p_row proj; aliensOnStep := 1 |}.

(** The defender takes the damage of projectile [i]. *)
Definition takeDamage (env : Env) (i : nat) (proj : Projectile) (st : Game) : Game :=
  let st := set_defenderHP (defenderHP st - p_damage proj)%Z st in
  let st := set_score (score st + p_damage proj)%Z st in
  let st := set_score (score st + crossfireBonus (aliensOnStep proj))%Z st in
  let st := set_freezeFrames 2%Z st in
  let st :=
    if hasUpgrade napalmRounds st && ProjType_eqb (p_type proj) cannon then
      set_fireZones (fireZones st ++
        [ {| z_x := p_x proj; z_y := p_y proj; z_life := 180; damageTimer := 0 |} ]) st
    else st in
  let st :=
    if hasUpgrade chainLightning st && ProjType_eqb (p_type proj) burst then
      set_alienProjectiles (alienProjectiles st ++ [arcShot proj]) st
    else st in
  let st := set_alienProjectiles (splice i (alienProjectiles st)) st in
  if (defenderHP st <=? 0)%Z then
    waveComplete env (set_defenderHP 0%Z st)
  else st.

(** One projectile of the projectile loop. *)
Definition projectileStep (env : Env) (i : nat) (st : Game) : Game :=
  match nth_error (alienProjectiles st) i with
  | None => st
  | Some proj =>
    let proj := moveProjectile st proj in
    let d := defender st in
    let hitDefender := hitsDefender d proj in
    let blast := ProjType_eqb (p_type proj) cannon && negb hitDefender && blastHits d proj in
    let proj := if blast then set_p_damage (p_damage proj / 2)%Z proj else proj in
    let hitDefender := hitDefender || blast in
    let st := set_alienProjectiles (setNth proj i proj (alienProjectiles st)) st in
    if hitDefender then
      if isBossWave st && (0 <? bossShield st)%Z then
        let st := set_bossShield (bossShield st - 1)%Z st in
        set_alienProjectiles (splice i (alienProjectiles st)) st
      else if (0 <? ap_shield (activePowerUps st))%Z then
        let st := set_activePowerUps
          (set_ap_shield (ap_shield (activePowerUps st) - 1)%Z (activePowerUps st)) st in
        set_alienProjectiles (splice i (alienProjectiles st)) st
      else takeDamage env i proj st
    else if Qltb canvasHeight (p_y proj) then
      set_alienProjectiles (splice i (alienProjectiles st)) st
    else st
  end.

(** [collectPowerUp(powerUp)] *)
Definition collectPowerUp (powerUp : PowerUp) (st : Game) : Game :=
  let ap := activePowerUps st in
  match u_type powerUp with
  | pu_repair => set_defenderHP (Z.min (defenderHP st + 10) (defenderMaxHP st)) st
  | pu_shield => set_activePowerUps (set_ap_shield (ap_shield ap + 2)%Z ap) st
  | pu_speed =>
    let st := set_activePowerUps (set_ap_speedBoost 600%Z ap) st in
    set_defender
      (set_d_speed (zq (Qround_js (5 * speedScale (bpm st)) * 2)) (defender st)) st
  | pu_rapidfire => set_activePowerUps (set_ap_rapidFire 600%Z ap) st
  | pu_spread => set_activePowerUps (set_ap_spreadShot 600%Z ap) st
  end.

(** One power-up of the power-up loop. *)
Definition powerUpStep (i : nat) (st : Game) : Game :=
  match nth_error (powerUps st) i with
  | None => st
  | Some powerUp =>
    let powerUp := mkPowerUp (u_x powerUp) (u_y powerUp + u_speed powerUp)
                             (u_type powerUp) (u_speed powerUp) in
    let st := set_powerUps (setNth powerUp i powerUp (powerUps st)) st in
    let d := defender st in
    if Qleb (d_y d) (u_y powerUp) && Qleb (u_y powerUp) (d_y d + d_height d) &&
       Qleb (d_x d - 10) (u_x powerUp) && Qleb (u_x powerUp) (d_x d + d_width d + 10)
    then
      let st := collectPowerUp powerUp st in
      set_powerUps (splice i (powerUps st)) st
    else if Qltb canvasHeight (u_y powerUp) then
      set_powerUps (splice i (powerUps st)) st
    else st
  end.

(** The timers of the active power-ups. *)
Definition powerUpTimers (st : Game) : Game :=
  let st :=
    if (0 <? ap_speedBoost (activePowerUps st))%Z then
      let st := set_activePowerUps
        (set_ap_speedBoost (ap_speedBoost (activePowerUps st) - 1)%Z (activePowerUps st)) st in
      if (ap_speedBoost (activePowerUps st) =? 0)%Z then
        set_defender (set_d_speed (zq (Qround_js (5 * speedScale (bpm st)))) (defender st)) st
      else st
    else st in
  let st :=
    if (0 <? ap_rapidFire (activePowerUps st))%Z then
      set_activePowerUps
        (set_ap_rapidFire (ap_rapidFire (activePowerUps st) - 1)%Z (activePowerUps st)) st
    else st in
  if (0 <? ap_spreadShot (activePowerUps st))%Z then
    set_activePowerUps
      (set_ap_spreadShot (ap_spreadShot (activePowerUps st) - 1)%Z (activePowerUps st)) st
  else st.

(** [this.aiColumnHeatmap[col] += 1]: a cell that is absent or NaN
    becomes NaN ([None]); an index past the end extends the array. *)
Definition heatUp (col : nat) (heat : list (option Z)) : list (option Z) :=
  setNth None col (option_map (fun h => h + 1)%Z (nth col heat None)) heat.

(** The heat map of the adapting AI: one more for every alive alien of
    a column. *)
Definition buildHeatmap (st : Game) : Game :=
  fold_left (fun st alien =>
               if alive alien
               then set_aiColumnHeatmap (heatUp (a_col alien) (aiColumnHeatmap st)) st
               else st)
            (aliens st) st.

(** The cells of the aliens that survived the wave evolve. *)
Definition markEvolved (st : Game) : Game :=
  fold_left (fun st alien =>
               if alive alien
               then set_evolvedCells
                      (set_add (a_row alien, a_col alien) (evolvedCells st)) st
               else st)
            (aliens st) st.

(** What happens when a loop of the pattern completes. *)
Definition loopCompleted (st : Game) : Game :=
  let st := set_currentLoop (currentLoop st + 1)%Z st in
  let st :=
    if (currentLoop st =? 4)%Z && negb (aiAdapting st)
    then buildHeatmap (set_aiAdapting true st)
    else st in
  let st :=
    if (currentLoop st =? 6)%Z then
      set_aiAccuracy (Qmin (95 # 100) (aiAccuracy st + (1 # 10))) st
    else st in
  if (loopsPerWave st <? currentLoop st)%Z then
    let st := markEvolved st in
    if (0 <? defenderHP st)%Z then gameLost st else st
  else respawnAliens st.

(** [this.aliens.find(a => a.row === row && a.col === col && a.alive)] *)
Definition findAlive (row col : nat) (l : list Alien) : option Alien :=
  find (fun a => alienAt row col a && alive a) l.

(** One row of the firing loop of a step. *)
Definition fireRow (st : Game) (row : nat) : Game :=
  if gridCell (grid st) row (currentStep st) then
    match findAlive row (currentStep st) (aliens st) with
    | Some alien =>
      let st := set_soundLog (soundLog st ++ [row]) st in
      let st := alienShoot alien st in
      if hasUpgrade volleyFire st then alienShoot alien st else st
    | None => st
    end
  else st.

(** The step of the sequence: the beat advances and, when the pattern
    wraps around, the loop is completed. *)
Definition advanceStep (env : Env) (st : Game) : Game :=
  let st := set_lastStepTime (perfNow env) st in
  let st := set_currentStep ((currentStep st + 1) mod gridCols)%nat st in
  if Nat.eqb (currentStep st) 0 then loopCompleted st else st.

(** The loop over the rows of a step: sounds and shots. *)
Definition fireRows (st : Game) : Game :=
  fold_left fireRow (upto (gridRows st)) st.

(** The drum sequence block of [update]. *)
Definition sequencer (env : Env) (st : Game) : Game :=
  if Qleb (stepInterval st) (perfNow env - lastStepTime st)
  then fireRows (advanceStep env st)
  else st.

(** The respawn counters of the quick respawn card. *)
Definition tickRespawn (alien : Alien) : Alien :=
  match respawnIn alien with
  | Some n =>
    if negb (alive alien) then
      if (n - 1 <=? 0)%Z then
        set_respawnIn None
          (set_hp (Some (match maxHp alien with
                         | Some m => if (m =? 0)%Z then 1%Z else m
                         | None => 1%Z
                         end))
             (set_alive true alien))
      else set_respawnIn (Some (n - 1)%Z) alien
    else alien
  | None => alien
  end.

Definition quickRespawnTick (st : Game) : Game :=
  if hasUpgrade quickRespawn st then set_aliens (map tickRespawn (aliens st)) st
  else st.

(** The stages of [update] in the playing phase, in their order. *)
Definition touchMoves (st : Game) : Game :=
  let st := if touchLeft st then moveDefender (-1) st else st in
  if touchRight st then moveDefender 1 st else st.

Definition fireZoneLoop (st : Game) : Game :=
  downFrom (length (fireZones st)) fireZoneStep st.

Definition aiStage (env : Env) (st : Game) : Game :=
  if aiActive st then updateAI env st else st.

Definition bulletLoop (env : Env) (st : Game) : Game :=
  downFrom (length (bullets st)) (bulletStep env) st.

Definition projectileLoop (env : Env) (st : Game) : Game :=
  downFrom (length (alienProjectiles st)) (projectileStep env) st.

Definition powerUpLoop (st : Game) : Game :=
  downFrom (length (powerUps st)) powerUpStep st.

(** What a frame of the playing phase does before the drum sequence. *)
Definition beforeStep (env : Env) (st : Game) : Game :=
  powerUpTimers
    (powerUpLoop
       (projectileLoop env
          (bulletLoop env
             (aiStage env
                (fireZoneLoop
                   (touchMoves st)))))).

(** The part of [update] that runs in the playing phase. *)
Definition playFrame (env : Env) (st : Game) : Game :=
  quickRespawnTick (sequencer env (beforeStep env st)).

(** [update()] *)
Definition update (env : Env) (st : Game) : Game :=
  if isPaused st then st
  else if (0 <? freezeFrames st)%Z then set_freezeFrames (freezeFrames st - 1)%Z st
  else
    match wavePhase st with
    | prepare =>
      let st := set_phaseTimer (phaseTimer st + 1)%Z st in
      if (180 <=? phaseTimer st)%Z then
        let st := set_wavePhase playing st in
        let st := set_phaseTimer 0%Z st in
        let st := set_currentLoop 1%Z st in
        let st := set_currentStep 0%nat st in
        set_lastStepTime (perfNow env) st
      else st
    | cardpick => st
    | complete =>
      let st := set_phaseTimer (phaseTimer st + 1)%Z st in
      if (120 <=? phaseTimer st)%Z then
        let st := set_currentWave (currentWave st + 1)%Z st in
        let st := updateAIForWave st in
        let st := set_isBossWave (currentWave st mod 5 =? 0)%Z st in
        let st := set_wavePhase prepare st in
        let st := set_phaseTimer 0%Z st in
        respawnAliens st
      else st
    | gameover => st
    | playing => playFrame env st
    end.

(** ** The handlers that call the methods *)

(** [animate()]: one frame. *)
Definition animate (env : Env) (st : Game) : Game :=
  if negb (isPaused st) then update env st else st.

(** [togglePause()] *)
Definition togglePause (st : Game) : Game :=
  if isStarted st then set_isPaused (negb (isPaused st)) st else st.

(** The input handler of the BPM control. *)
Definition onBpmInput (newBpm : Z) (st : Game) : Game :=
  let st := set_bpm newBpm st in
  let st := set_stepInterval (stepIntervalOf (bpm st)) st in
  set_defender (set_d_speed (zq (Qround_js (5 * speedScale (bpm st)))) (defender st)) st.

(** The click of the start button. *)
Definition onStart (st : Game) : Game :=
  if isStarted st then togglePause st else set_isStarted true st.

(** The part of the canvas click handler that follows the tutorial:
    a click restarts a game that is over, picks a card in the card phase
    ([cardIndex] is what [getClickedCardIndex] returned), and otherwise
    toggles the cell under the pointer when it is inside the grid. *)
Inductive ClickTarget :=
| onCard (rnd : nat -> nat -> Q) (cardIndex : Z)
| onCell (row col : nat)
| elsewhere.

Definition onCanvasClick (t : ClickTarget) (st : Game) : option Game :=
  match wavePhase st with
  | gameover => Some (restartGame st)
  | cardpick =>
    match t with
    | onCard rnd cardIndex =>
      if (cardIndex =? -1)%Z then Some st else Some (selectCard rnd cardIndex st)
    | _ => Some st
    end
  | _ =>
    match t with
    | onCell row col =>
      if (col <? gridCols)%nat && (row <? gridRows st)%nat
      then toggleGridCell row col st else Some st
    | _ => Some st
    end
  end.

(** The key handler: [R] restarts a game that is over. *)
Definition onKeyR (st : Game) : Game :=
  match wavePhase st with
  | gameover => restartGame st
  | _ => st
  end.

(** ** The claims of the specification, in its words *)

(** The wave table of the specification: [shotDelay], [aiAccuracy],
    [aiShotsPerTurn] and [defenderMaxHP] for a wave. *)
Definition waveTable (w : Z) : Q * Q * nat * Z :=
  let hpFor := (if w =? 1 then 60 else 60 + (w - 1) * 15)%Z in
  if (w =? 1)%Z then (1500, 3 # 10, 1%nat, hpFor)
  else if (w =? 2)%Z then (1200, 4 # 10, 1%nat, hpFor)
  else if (w =? 3)%Z then (900, 5 # 10, 1%nat, hpFor)
  else if (w =? 4)%Z then (600, 65 # 100, 1%nat, hpFor)
  else if (w mod 5 =? 0)%Z then (400, 8 # 10, 2%nat, hpFor)
  else if (10 <=? w)%Z then (200, 9 # 10, 3%nat, hpFor)
  else (350, 85 # 100, 2%nat, hpFor).

(** The sum of [cost[row]] over the placed cells of a grid whose first row
    has index [row]. *)
Fixpoint placedCostFrom (row : nat) (g : list (list bool)) : Z :=
  match g with
  | [] => 0
  | r :: g' =>
    (costOf row * Z.of_nat (count_occ bool_dec r true) + placedCostFrom (S row) g')%Z
  end.

Definition placedCost (st : Game) : Z := placedCostFrom 0 (grid st).

(** The states reached by editing the pattern of a game that was
    constructed without a pattern in the hash of the page. *)
Inductive editReach : Game -> Prop :=
| er_new : editReach newGame
| er_url urlBpm : editReach (loadPatternFromURL None urlBpm newGame)
| er_toggle st row col st' :
    editReach st -> toggleGridCell row col st = Some st' -> editReach st'
| er_preset st pattern : editReach st -> editReach (loadPreset pattern st)
| er_clear st : editReach st -> editReach (clearGrid st).

(** The states reached from the constructor through the five public
    operations of the budget claim. *)
Inductive publicReach : Game -> Prop :=
| pr_new : publicReach newGame
| pr_toggle st row col st' :
    publicReach st -> toggleGridCell row col st = Some st' -> publicReach st'
| pr_preset st pattern : publicReach st -> publicReach (loadPreset pattern st)
| pr_clear st : publicReach st -> publicReach (clearGrid st)
| pr_card st rnd index : publicReach st -> publicReach (selectCard rnd index st)
| pr_restart st : publicReach st -> publicReach (restartGame st).

(** The budget invariant of the editing operations. *)
Definition budgetCovers (st : Game) : Prop :=
  (0 <= alienBudget st)%Z /\
  (placedCost st + alienBudget st <= alienBudgetMax st)%Z.

(** ** States and inputs used as examples *)

Close Scope Q_scope.

(** A state in which the rejection applies: the budget of a new game is
    spent on two bass cells and a snare cell, and a third bass cell is
    asked for. *)
Definition spentGame : Game :=
  match toggleGridCell 0 0 newGame with
  | Some s1 =>
    match toggleGridCell 0 4 s1 with
    | Some s2 =>
      match toggleGridCell 1 2 s2 with
      | Some s3 => s3
      | None => s2
      end
    | None => s1
    end
  | None => newGame
  end.

(** A bass cell is placed in a new game and the game is restarted: the
    budget is back at the cap and the cell is still on the grid. *)
Definition restartedWithCell : Game :=
  match toggleGridCell 0 0 newGame with
  | Some s => restartGame s
  | None => newGame
  end.

(** The first card of a wave that the player has just won is picked. *)
Definition cardEnv : Env :=
  {| perfNow := 0; dateNow := 0; rndShoot := 0;
     rndDrop := fun _ => 0%Q; rndDropType := fun _ => 0%Q;
     rndCard := fun _ => 0%Q |}.

Definition wonGame : Game := waveComplete cardEnv spentGame.

(** Draws of the scramble card that fill no cell. *)
Definition noDraw : nat -> nat -> Q := fun _ _ => 1%Q.

Definition trues (r : list bool) : Z := Z.of_nat (count_occ bool_dec r true).

(** The rock preset of the page, loaded into a new game. *)
Definition rockPreset : list (list Z) :=
  [ [1; 0; 0; 0; 1; 0; 0; 0; 1; 0; 0; 0; 1; 0; 0; 0];
    [0; 0; 1; 0; 0; 0; 1; 0; 0; 0; 1; 0; 0; 0; 1; 0];
    [1; 0; 1; 0; 1; 0; 1; 0; 1; 0; 1; 0; 1; 0; 1; 0] ].

(** A new game spends its budget of 8, is restarted, and places one more
    bass cell. *)
Definition overBudgetGame : Game :=
  match toggleGridCell 0 8 (restartGame spentGame) with
  | Some s => s
  | None => newGame
  end.













(** The phase cycle of the code: playing, (cardpick | complete), prepare,
    playing. *)
Inductive phaseEdge : Phase -> Phase -> Prop :=
| pe_playing_cardpick : phaseEdge playing cardpick
| pe_cardpick_prepare : phaseEdge cardpick prepare
| pe_complete_prepare : phaseEdge complete prepare
| pe_prepare_playing : phaseEdge prepare playing.

(** What one operation may do to the phase: leave it, follow an edge of
    the cycle, or end the game from the playing phase. *)
Definition phaseStep (p p' : Phase) : Prop :=
  p' = p \/ phaseEdge p p' \/ (p = playing /\ p' = gameover).

(** [n] frames in a row with the same inputs. *)
Fixpoint frames (n : nat) (env : Env) (st : Game) : Game :=
  match n with
  | O => st
  | S n' => frames n' env (update env st)
  end.

(** A defender with 3 hit points left and the first bullet of the snare
    alien of [spentGame], of damage 3, two pixels above it. *)
Definition killGame : Game :=
  set_alienProjectiles
    [ {| p_type := burst; p_x := 117%Q; p_y := 548%Q; p_speed := 4%Q;
         p_damage := 3; p_row := 1; aliensOnStep := 1 |} ]
    (set_defenderHP 3
       (set_defender (mkDefender 100 550 40 30 5)%Q spentGame)).

(** The second wave of a game whose first card was the napalm rounds:
    the wave is won, the first card shown is picked, and the two frozen
    frames of the last hit and the 180 frames of the prepare phase pass. *)
Definition napalmGame : Game :=
  frames 182 cardEnv (selectCard noDraw 0 (update cardEnv killGame)).

(** The defender stands in the fire zone that a cannon ball of the fifth
    column has left under it, has 2 hit points left, and the zone is one
    frame away from its next burn. *)
Definition burnGame : Game :=
  set_fireZones
    [ {| z_x := 225%Q; z_y := 565%Q; z_life := 100; damageTimer := 29 |} ]
    (set_defenderHP 2
       (set_defender (mkDefender 205 550 40 30 5)%Q napalmGame)).

(** The last step of the last loop is due, and the bullet that kills the
    defender arrives in the same frame. *)
Definition lastStepEnv : Env :=
  {| perfNow := 1000; dateNow := 0; rndShoot := 0;
     rndDrop := fun _ => 0%Q; rndDropType := fun _ => 0%Q;
     rndCard := fun _ => 0%Q |}.

Definition lastStepGame : Game :=
  set_currentLoop 8 (set_currentStep 15 killGame).

(** Whether a row plays on the current step: its cell is occupied and an
    alive alien stands on it. *)
Definition firesAt (st : Game) (row : nat) : bool :=
  gridCell (grid st) row (currentStep st) &&
  match findAlive row (currentStep st) (aliens st) with
  | Some _ => true
  | None => false
  end.

(** The projectiles that a row shoots on the current step. *)
Definition rowShots (st : Game) (row : nat) : list Projectile :=
  if gridCell (grid st) row (currentStep st) then
    match findAlive row (currentStep st) (aliens st) with
    | Some alien =>
      shotProjectiles st alien
      ++ (if hasUpgrade volleyFire st then shotProjectiles st alien else [])
    | None => []
    end
  else [].

(** The events of the page.  The BPM control ranges from 60 to 200. *)
Inductive Event :=
| ev_frame (env : Env)
| ev_click (t : ClickTarget)
| ev_keyR
| ev_keyP
| ev_start
| ev_bpm (newBpm : Z)
| ev_touch (left right : bool)
| ev_preset (pattern : list (list Z))
| ev_clear.

Definition handle (e : Event) (st : Game) : option Game :=
  match e with
  | ev_frame env => Some (animate env st)
  | ev_click t => onCanvasClick t st
  | ev_keyR => Some (onKeyR st)
  | ev_keyP => Some (togglePause st)
  | ev_start => Some (onStart st)
  | ev_bpm newBpm =>
    if (60 <=? newBpm)%Z && (newBpm <=? 200)%Z then Some (onBpmInput newBpm st) else None
  | ev_touch l r => Some (set_touchRight r (set_touchLeft l st))
  | ev_preset pattern => Some (loadPreset pattern st)
  | ev_clear => Some (clearGrid st)
  end.

(** The states of a game: what the events make of a constructed game. *)
Inductive reachable : Game -> Prop :=
| reach_new : reachable newGame
| reach_url pattern urlBpm : reachable (loadPatternFromURL pattern urlBpm newGame)
| reach_step st e st' : reachable st -> handle e st = Some st' -> reachable st'.


(** Two states with the same tempo and grid size. *)
Definition tempoOf (st : Game) : Z * Q * nat :=
  (bpm st, stepInterval st, gridRows st).

Definition sameTempo (st' st : Game) : Prop := tempoOf st' = tempoOf st.

(** Two states on the same beat of the same pattern. *)
Definition beatOf (st : Game) : Z * Q * nat * nat * Q * list (list bool) * list nat :=
  (tempoOf st, currentStep st, lastStepTime st, grid st, soundLog st).

Definition sameBeat (st' st : Game) : Prop := beatOf st' = beatOf st.


(** A game in the playing phase with a bass alien on the second step,
    and a frame 125 ms after the last step. *)
Definition beatGame : Game :=
  match toggleGridCell 0 1 newGame with
  | Some s => s
  | None => newGame
  end.

Definition beatEnv : Env :=
  {| perfNow := 125; dateNow := 0; rndShoot := 0;
     rndDrop := fun _ => 0%Q; rndDropType := fun _ => 0%Q;
     rndCard := fun _ => 0%Q |}.

(** ** What the operations leave alone *)

(** What a hit and a respawn leave of an alien: its cell, its place on the
    canvas, its full strength and its evolution. *)
Definition placeOf (a : Alien) : nat * nat * Q * Q * option Z * bool :=
  (a_row a, a_col a, a_x a, a_y a, maxHp a, evolved a).

(** The cell of an alien. *)
Definition cellOf (a : Alien) : nat * nat := (a_row a, a_col a).


(** ** The invariants of a game *)

(** The wave, its budget and its boss flag agree, and a wave has eight
    loops. *)
Definition waveData (st : Game) : Prop :=
  1 <= currentWave st /\
  alienBudgetMax st = Z.min 24 (8 + (currentWave st - 1) * 2) /\
  0 <= alienBudget st <= alienBudgetMax st /\
  isBossWave st = (currentWave st mod 5 =? 0) /\
  loopsPerWave st = 8.

(** The grid has [gridRows] rows of [gridCols] cells, three rows or four. *)
Definition gridShape (st : Game) : Prop :=
  length (grid st) = gridRows st /\
  Forall (fun r => length r = gridCols) (grid st) /\
  (gridRows st = 3 \/ gridRows st = 4)%nat.

(** An alien stands in the middle of its cell. *)
Definition inItsCell (a : Alien) : Prop :=
  a_x a = cellX (a_col a) /\ a_y a = cellY (a_row a).

(** The aliens are the occupied cells of the grid, each of them once. *)
Definition aliensOnGrid (st : Game) : Prop :=
  NoDup (map cellOf (aliens st)) /\
  (forall row col,
     In (row, col) (map cellOf (aliens st)) <-> gridCell (grid st) row col = true) /\
  Forall inItsCell (aliens st).

(** The defender keeps its size and its height on the canvas and stays
    between the two walls. *)
Definition onCanvas (st : Game) : Prop :=
  d_y (defender st) = (canvasHeight - 50)%Q /\
  d_width (defender st) = 40%Q /\
  d_height (defender st) = 30%Q /\
  (0 <= d_x (defender st))%Q /\
  (d_x (defender st) <= canvasWidth - 40)%Q.

Definition wellFormed (st : Game) : Prop :=
  wavePhase st <> complete /\ waveData st /\ gridShape st /\
  aliensOnGrid st /\ onCanvas st.

(** The occupied cells of the first [rows] rows, row by row. *)
Definition occupiedCells (g : list (list bool)) (rows : nat) : list (nat * nat) :=
  flat_map (fun row =>
    flat_map (fun col => if gridCell g row col then [(row, col)] else [])
             (upto gridCols))
    (upto rows).

(** The state of a loop over the cells of a cleared grid: the game is well
    formed, its rows are those of [st0], and every occupied cell has been
    visited. *)
Definition filling (st0 : Game) (visited : nat -> nat -> Prop) (s : Game) : Prop :=
  wellFormed s /\ gridRows s = gridRows st0 /\
  forall row col, gridCell (grid s) row col = true -> visited row col.

(** What no card changes: the wave and its budget, the place of the
    defender, the phase. *)
Definition cardProof (s : Game) : Prop :=
  wavePhase s <> complete /\ waveData s /\ onCanvas s.

Definition shapedLike (st0 : Game) (s : Game) : Prop :=
  gridShape s /\ gridRows s = gridRows st0.

(** The setting of a wave: what the player and the cards decide, and no
    frame changes. *)
Definition fixedOf (st : Game)
  : Z * Z * Z * Z * bool * list CardId * nat * list (list bool) * Z * Q * Q * nat :=
  (currentWave st, loopsPerWave st, alienBudget st, alienBudgetMax st,
   isBossWave st, upgrades st, gridRows st, grid st, bpm st, stepInterval st,
   shotDelay st, aiShotsPerTurn st).

(** A game with a bass alien on the second step, after the frame in which
    that step is played. *)
Definition playedGame : Game := animate beatEnv beatGame.

(** The last step of the last loop of [beatGame]. *)
Definition lastLoopGame : Game := set_currentLoop 8 (set_currentStep 15 beatGame).

(** The state of the loops of [loadPreset]: the budget and the cost of the
    placed cells add up to the cap, and the cells set are cells of the
    pattern that have been visited. *)
Definition presetFilling (pattern : list (list Z)) (visited : nat -> nat -> Prop)
  (s : Game) : Prop :=
  placedCost s + alienBudget s = alienBudgetMax s /\
  0 <= alienBudget s /\
  forall row col, gridCell (grid s) row col = true ->
                  visited row col /\ patternCell pattern row col = true.

(** The cell [(row, col)] of a grid and its mirror image, as the Mirror
    Beat card leaves them. *)
Definition mirrored (g : list (list bool)) (row col : nat) : bool :=
  gridCell g row col || gridCell g row (gridCols - 1 - col).

(** A column of the mirror loop, or the mirror image of one. *)
Definition mirrorSeen (dcols : list nat) (col : nat) : Prop :=
  In col dcols \/ In (gridCols - 1 - col)%nat dcols.

(** The state of the inner loop of the Mirror Beat card on [row], started
    on the grid [g]. *)
Definition mirroring (g : list (list bool)) (row : nat) (s : Game) (dcols : list nat)
  : Prop :=
  Forall (fun d => (d < 8)%nat) dcols /\
  (forall c, (c < gridCols)%nat ->
     (mirrorSeen dcols c -> gridCell (grid s) row c = mirrored g row c) /\
     (~ mirrorSeen dcols c -> gridCell (grid s) row c = gridCell g row c)) /\
  (forall r c, r <> row -> gridCell (grid s) r c = gridCell g r c).

(** The state of the outer loop. *)
Definition mirroredRows (g : list (list bool)) (s : Game) (drows : list nat) : Prop :=
  forall r c, (c < gridCols)%nat ->
    (In r drows -> gridCell (grid s) r c = mirrored g r c) /\
    (~ In r drows -> gridCell (grid s) r c = gridCell g r c).

(** The state of the loops of the Scramble card, started on the grid [g]:
    a visited cell is set when it was set or its draw filled it, the other
    cells are as they were. *)
Definition scrambling (rnd : nat -> nat -> Q) (g : list (list bool))
  (visited : nat -> nat -> Prop) (s : Game) : Prop :=
  forall r c,
    (visited r c -> gridCell (grid s) r c = gridCell g r c || Qltb (rnd r c) (3 # 10)) /\
    (~ visited r c -> gridCell (grid s) r c = gridCell g r c).

(** The cards of the pool that have not been taken. *)
Definition availableCards (st : Game) : list CardId :=
  filter (fun c => negb (hasUpgrade c st)) getCardPool.

(** ** The clicks on the canvas *)

(** The test of the loop of [getClickedCardIndex] for the card [i]. *)
Definition cardHit (x y : Q) (i : nat) : bool :=
  let cardWidth := 180%Q in
  let cardHeight := 250%Q in
  let gap := 20%Q in
  let totalWidth := (cardWidth * 3 + gap * 2)%Q in
  let startX := ((canvasWidth - totalWidth) / 2)%Q in
  let startY := (canvasHeight / 2 - cardHeight / 2)%Q in
  let cardX := (startX + nq i * (cardWidth + gap))%Q in
  Qleb cardX x && Qleb x (cardX + cardWidth)%Q &&
  Qleb startY y && Qleb y (startY + cardHeight)%Q.

(** [getClickedCardIndex(x, y)] *)
Definition getClickedCardIndex (x y : Q) (st : Game) : Z :=
  if Nat.eqb (length (currentCardChoices st)) 0 then -1
  else
    match find (cardHit x y) (upto 3) with
    | Some i => Z.of_nat i
    | None => -1
    end.

(** The click handler of the canvas once the tutorial is closed, for a
    click on the point [(canvasX, canvasY)] of the canvas; [rnd] holds the
    draws of the Scramble card. *)
Definition canvasClick (rnd : nat -> nat -> Q) (canvasX canvasY : Q) (st : Game)
  : option Game :=
  if Phase_eqb (wavePhase st) gameover then Some (restartGame st)
  else if Phase_eqb (wavePhase st) cardpick then
    let cardIndex := getClickedCardIndex canvasX canvasY st in
    if negb (cardIndex =? -1) then Some (selectCard rnd cardIndex st) else Some st
  else
    let col := Qfloor (canvasX / cellWidth) in
    let clickedRow := Qfloor ((canvasY - gridYOffset) / cellHeight) in
    if Qleb gridYOffset canvasY &&
       Qleb canvasY (gridYOffset + nq (gridRows st) * cellHeight)%Q &&
       (0 <=? col) && (col <? Z.of_nat gridCols) &&
       (0 <=? clickedRow) && (clickedRow <? Z.of_nat (gridRows st))
    then toggleGridCell (Z.to_nat clickedRow) (Z.to_nat col) st
    else Some st.

(** The rectangle of the cell [(row, col)] on the canvas. *)
Definition inCellRect (row col : nat) (x y : Q) : Prop :=
  (nq col * cellWidth <= x)%Q /\ (x < (nq col + 1) * cellWidth)%Q /\
  (gridYOffset + nq row * cellHeight <= y)%Q /\
  (y < gridYOffset + (nq row + 1) * cellHeight)%Q.


(** ** The link of a pattern

    A string is kept as the bytes of its UTF-8 form, which for the
    letters, digits and signs of a link are its characters. *)

Definition codeOf (c : ascii) : Z := Z.of_N (N_of_ascii c).

(** The value of a digit of [parseInt]: [0-9], [a-z] or [A-Z]. *)
Definition digitValue (c : ascii) : option Z :=
  let n := codeOf c in
  if (48 <=? n) && (n <=? 57) then Some (n - 48)
  else if (97 <=? n) && (n <=? 122) then Some (n - 87)
  else if (65 <=? n) && (n <=? 90) then Some (n - 55)
  else None.

(** The digit [d] as [Number.prototype.toString] writes it. *)
Definition digitChar (d : Z) : ascii :=
  match String.get (Z.to_nat d) "0123456789abcdefghijklmnopqrstuvwxyz" with
  | Some c => c
  | None => "0"%char
  end.

(** The digits of [n] in front of [acc], the last digit first. *)
Fixpoint digitsOf (radix : Z) (fuel : nat) (n : Z) (acc : string) : string :=
  match fuel with
  | O => acc
  | S fuel' =>
    let acc := String (digitChar (n mod radix)) acc in
    if n / radix =? 0 then acc else digitsOf radix fuel' (n / radix) acc
  end.

(** [n.toString(radix)] and [`${n}`] (radix 10) for an integer [n]; the
    template writes the digits of an integer below [10^21]. *)
Definition numberToString (radix n : Z) : string :=
  if n <? 0
  then String "-" (digitsOf radix (S (Z.to_nat (Z.log2 (- n)))) (- n) "")
  else digitsOf radix (S (Z.to_nat (Z.log2 n))) n "".

Fixpoint zeros (n : nat) : string :=
  match n with
  | O => ""
  | S n' => String "0" (zeros n')
  end.

(** [s.padStart(len, '0')] *)
Definition padStart (len : nat) (s : string) : string :=
  (zeros (len - String.length s) ++ s)%string.

(** [rows.join(sep)] *)
Fixpoint join (sep : string) (rows : list string) : string :=
  match rows with
  | [] => ""
  | [r] => r
  | r :: rest => (r ++ sep ++ join sep rest)%string
  end.

(** The loop over the columns of [encodePatternToURL], for one row. *)
Definition rowBitsOf (g : list (list bool)) (row : nat) : Z :=
  fold_left (fun rowBits col =>
    if gridCell g row col then Z.lor rowBits (Z.shiftl 1 (Z.of_nat (15 - col)))
    else rowBits) (upto 16) 0.

(** [encodePatternToURL()]: the hash that is written to the address of the
    page, or nothing when [this.grid[row]] is missing for one of the three
    rows and the [catch] is taken.  No field of the game changes. *)
Definition encodePatternToURL (st : Game) : option string :=
  if (3 <=? length (grid st))%nat then
    let rows := map (fun row => padStart 4 (numberToString 16 (rowBitsOf (grid st) row)))
                    (upto 3) in
    let pattern := join "-" rows in
    Some ("pattern=" ++ pattern ++ "&bpm=" ++ numberToString 10 (bpm st))%string
  else None.

(** [s.split(sep)] for a separator of one character. *)
Fixpoint splitOn (sep : ascii) (s : string) : list string :=
  match s with
  | EmptyString => [EmptyString]
  | String c t =>
    if Ascii.eqb c sep then EmptyString :: splitOn sep t
    else match splitOn sep t with
         | h :: r => String c h :: r
         | [] => [String c EmptyString]
         end
  end.

(** White space and line ends of one byte: TAB, LF, VT, FF, CR, SP. *)
Definition space1 (a : ascii) : bool :=
  let n := codeOf a in ((9 <=? n) && (n <=? 13)) || (n =? 32).

(** U+00A0. *)
Definition space2 (a b : ascii) : bool :=
  (codeOf a =? 194) && (codeOf b =? 160).

(** U+1680, U+2000 to U+200A, U+2028, U+2029, U+202F, U+205F, U+3000 and
    U+FEFF. *)
Definition space3 (a b c : ascii) : bool :=
  let x := codeOf a in
  let y := codeOf b in
  let z := codeOf c in
  ((x =? 225) && (y =? 154) && (z =? 128)) ||
  ((x =? 226) && (y =? 128) &&
   (((128 <=? z) && (z <=? 138)) || (z =? 168) || (z =? 169) || (z =? 175))) ||
  ((x =? 226) && (y =? 129) && (z =? 159)) ||
  ((x =? 227) && (y =? 128) && (z =? 128)) ||
  ((x =? 239) && (y =? 187) && (z =? 191)).

(** The white space that [parseInt] skips at the start of its string. *)
Fixpoint trimStart (s : string) : string :=
  match s with
  | String a t =>
    if space1 a then trimStart t
    else match t with
         | String b u =>
           if space2 a b then trimStart u
           else match u with
                | String c v => if space3 a b c then trimStart v else s
                | EmptyString => s
                end
         | EmptyString => s
         end
  | EmptyString => s
  end.

(** The values of the digits of radix [radix] that [s] starts with. *)
Fixpoint readDigits (radix : Z) (s : string) : list Z :=
  match s with
  | String c t =>
    match digitValue c with
    | Some d => if d <? radix then d :: readDigits radix t else []
    | None => []
    end
  | EmptyString => []
  end.

(** The steps of [parseInt] that follow the sign: the radix, the prefix
    [0x] and the digits.  [radix] is 0 where the call gives none, and the
    result is [None] for NaN. *)
Definition parseDigits (str : string) (radix : Z) : option Z :=
  if negb (radix =? 0) && ((radix <? 2) || (36 <? radix)) then None
  else
    let stripPrefix := (radix =? 0) || (radix =? 16) in
    let R := if radix =? 0 then 10 else radix in
    let prefixed := match str with
                    | String a (String b _) =>
                      Ascii.eqb a "0" && (Ascii.eqb b "x" || Ascii.eqb b "X")
                    | _ => false
                    end in
    let R := if stripPrefix && prefixed then 16 else R in
    let str := if stripPrefix && prefixed
               then match str with String _ (String _ t) => t | _ => str end
               else str in
    match readDigits R str with
    | [] => None
    | ds => Some (fold_left (fun v d => v * R + d) ds 0)
    end.

(** [parseInt(s, radix)], as the integer that is read and before it is
    rounded to a number. *)
Definition parseInt (s : string) (radix : Z) : option Z :=
  let str := trimStart s in
  let sign := match str with
              | String c _ => if Ascii.eqb c "-" then -1 else 1
              | EmptyString => 1
              end in
  let str := match str with
             | String c t => if Ascii.eqb c "+" || Ascii.eqb c "-" then t else str
             | EmptyString => str
             end in
  match parseDigits str radix with
  | Some v => Some (sign * v)
  | None => None
  end.

(** The number nearest to an integer, a tie going to the even one;
    [None] is an infinity. *)
Definition nearestDouble (v : Z) : option Z :=
  let a := Z.abs v in
  let e := Z.log2 a in
  if e <=? 52 then Some v
  else
    let sh := e - 52 in
    let q := Z.shiftr a sh in
    let r := Z.land a (Z.ones sh) in
    let half := Z.shiftl 1 (sh - 1) in
    let q := if r <? half then q
             else if half <? r then q + 1
             else if Z.even q then q else q + 1 in
    let m := Z.shiftl q sh in
    if m <? 2 ^ 1024 then Some (Z.sgn v * m) else None.

(** [parseInt(rows[row], 16)] as the operator [&] reads it: no bit is set
    in NaN and in an infinity. *)
Definition parseRow (s : string) : Z :=
  match parseInt s 16 with
  | Some v => match nearestDouble v with
              | Some d => d
              | None => 0
              end
  | None => 0
  end.

Definition isHexDigit (c : ascii) : bool :=
  match digitValue c with
  | Some d => d <? 16
  | None => false
  end.

Definition hexByte (a b : ascii) : ascii :=
  match digitValue a, digitValue b with
  | Some x, Some y => ascii_of_N (Z.to_N (x * 16 + y))
  | _, _ => "0"%char
  end.

(** The percent-decoding of a name or a value of the hash. *)
Fixpoint percentDecode (s : string) : string :=
  match s with
  | String c t =>
    if Ascii.eqb c "%" then
      match t with
      | String a (String b u) =>
        if isHexDigit a && isHexDigit b then String (hexByte a b) (percentDecode u)
        else String c (percentDecode t)
      | _ => String c (percentDecode t)
      end
    else String c (percentDecode t)
  | EmptyString => EmptyString
  end.

Fixpoint plusToSpace (s : string) : string :=
  match s with
  | String c t => String (if Ascii.eqb c "+" then " "%char else c) (plusToSpace t)
  | EmptyString => EmptyString
  end.

(** The name and the value of one [name=value] of the hash: the parts
    before and after the first [=]. *)
Fixpoint nameValue (s : string) : string * string :=
  match s with
  | String c t =>
    if Ascii.eqb c "=" then (EmptyString, t)
    else let (n, v) := nameValue t in (String c n, v)
  | EmptyString => (EmptyString, EmptyString)
  end.

Definition emptyb (s : string) : bool :=
  match s with
  | EmptyString => true
  | String _ _ => false
  end.

(** [new URLSearchParams(hash)]: the pairs of the hash in their order.
    Bytes that are not UTF-8 stay as they are here; the browser puts
    U+FFFD for them, which like them is no dash, space, sign or digit. *)
Definition URLSearchParams (init : string) : list (string * string) :=
  let init := match init with
              | String c t => if Ascii.eqb c "?" then t else init
              | EmptyString => init
              end in
  flat_map (fun bytes =>
    if emptyb bytes then []
    else let (n, v) := nameValue bytes in
         [(percentDecode (plusToSpace n), percentDecode (plusToSpace v))])
    (splitOn "&" init).

(** [params.get(name)] *)
Definition getParam (name : string) (params : list (string * string)) : option string :=
  match find (fun p => String.eqb (fst p) name) params with
  | Some p => Some (snd p)
  | None => None
  end.

(** [loadPatternFromURL()] from the hash of the page, [hash] being
    [window.location.hash.substring(1)]. *)
Definition loadPatternFromHash (hash : string) (st : Game) : Game :=
  if emptyb hash then st
  else
    let params := URLSearchParams hash in
    let pattern := getParam "pattern" params in
    let bpm := getParam "bpm" params in
    loadPatternFromURL
      (match pattern with
       | Some p => if emptyb p then None else Some (map parseRow (splitOn "-" p))
       | None => None
       end)
      (match bpm with
       | Some b => if emptyb b then None else parseInt b 0
       | None => None
       end)
      st.

(** Every character of [s] passes the test [p]. *)
Fixpoint allChars (p : ascii -> bool) (s : string) : bool :=
  match s with
  | String c t => p c && allChars p t
  | EmptyString => true
  end.

(** A digit of radix [radix]. *)
Definition isDigitOf (radix : Z) (c : ascii) : bool :=
  match digitValue c with
  | Some d => d <? radix
  | None => false
  end.

(** The value of a list of digits. *)
Definition mathInt (radix : Z) (ds : list Z) : Z :=
  fold_left (fun v d => v * radix + d) ds 0.

(** What a digit of radix 16 or less is not: a sign, a mark of the hash,
    the [x] of a prefix, a space or a byte of a longer character. *)
Definition plainDigit (c : ascii) : bool :=
  negb (Ascii.eqb c "-") && negb (Ascii.eqb c "+") && negb (Ascii.eqb c "&") &&
  negb (Ascii.eqb c "=") && negb (Ascii.eqb c "%") && negb (Ascii.eqb c "?") &&
  negb (Ascii.eqb c "x") && negb (Ascii.eqb c "X") &&
  negb (space1 c) && (codeOf c <? 128).

(** What a character of the pattern and of the tempo of a link is not: a
    mark of the hash. *)
Definition hashSafe (c : ascii) : bool :=
  negb (Ascii.eqb c "&") && negb (Ascii.eqb c "=") && negb (Ascii.eqb c "+") &&
  negb (Ascii.eqb c "%").

Definition linkChar (c : ascii) : bool := isDigitOf 16 c || Ascii.eqb c "-".

(** The cell [(row, col)] of the pattern of a link whose rows are [rows]. *)
Definition urlBit (rows : list Z) (row col : nat) : bool :=
  Z.testbit (nth row rows 0) (Z.of_nat (15 - col)).

(** ** The tutorial

    The page holds the game, the step of the tutorial and what
    [localStorage] keeps under [grooveGalaxyTutorialSeen].  [storage] tells
    whether the calls of [localStorage] succeed; when one throws, its
    [catch] is taken. *)

Record Page := mkPage {
  game : Game;
  tutorialStep : Z;
  tutorialSeen : option string
}.

(** [checkTutorial()], called by the constructor after
    [this.tutorialStep = -1]. *)
Definition checkTutorial (storage : bool) (p : Page) : Page :=
  if storage then
    match tutorialSeen p with
    | Some (String _ _) => p
    | _ => mkPage (game p) 0 (tutorialSeen p)
    end
  else p.

(** [skipTutorial()] *)
Definition skipTutorial (storage : bool) (p : Page) : Page :=
  if storage then mkPage (game p) (-1) (Some "true"%string)
  else mkPage (game p) (-1) (tutorialSeen p).

(** [advanceTutorial()] *)
Definition advanceTutorial (storage : bool) (p : Page) : Page :=
  if 2 <=? tutorialStep p then skipTutorial storage p
  else mkPage (game p) (tutorialStep p + 1) (tutorialSeen p).

(** The page that the constructor builds around its game. *)
Definition openPage (storage : bool) (seen : option string) (st : Game) : Page :=
  checkTutorial storage (mkPage st (-1) seen).

(** The click handler of the canvas, for a click on the point
    [(canvasX, canvasY)] of the canvas. *)
Definition pageClick (storage : bool) (rnd : nat -> nat -> Q) (canvasX canvasY : Q)
  (p : Page) : option Page :=
  if 0 <=? tutorialStep p then
    if Qleb (canvasWidth - 90) canvasX && Qleb canvasX (canvasWidth - 10) &&
       Qleb 10 canvasY && Qleb canvasY 40
    then Some (skipTutorial storage p)
    else Some (advanceTutorial storage p)
  else
    match canvasClick rnd canvasX canvasY (game p) with
    | Some st => Some (mkPage st (tutorialStep p) (tutorialSeen p))
    | None => None
    end.

(** The clicks of a list, one after the other. *)
Fixpoint pageClicks (storage : bool) (rnd : nat -> nat -> Q) (clicks : list (Q * Q))
  (p : Page) : option Page :=
  match clicks with
  | [] => Some p
  | (x, y) :: rest =>
    match pageClick storage rnd x y p with
    | Some p' => pageClicks storage rnd rest p'
    | None => None
    end
  end.

(** The skip button of the tutorial, in the top right corner. *)
Definition onSkipButton (x y : Q) : Prop :=
  (canvasWidth - 90 <= x)%Q /\ (x <= canvasWidth - 10)%Q /\ (10 <= y)%Q /\ (y <= 40)%Q.

(** ** The cost of a preset *)

(** The cells of the two loops of [loadPreset] in their order: column by
    column, and in a column from the first row down. *)
Definition presetCells (rows : nat) : list (nat * nat) :=
  flat_map (fun col => map (fun row => (row, col)) (upto rows)) (upto gridCols).

(** The cost of the cells of [cells] that [on] holds. *)
Definition cellsCost (on : nat -> nat -> bool) (cells : list (nat * nat)) : Z :=
  fold_right (fun x acc => (if on (fst x) (snd x) then costOf (fst x) else 0) + acc)
             0 cells.

(** The cost of a whole preset on a grid of [rows] rows. *)
Definition presetCost (pattern : list (list Z)) (rows : nat) : Z :=
  cellsCost (patternCell pattern) (presetCells rows).

(** The state of the loops of [loadPreset] after the cells [done], for the
    cap [cap] and the number of rows [rows]. *)
Definition presetLoop (pattern : list (list Z)) (cap : Z) (rows : nat)
  (s : Game) (done : list (nat * nat)) : Prop :=
  alienBudget s = cap - cellsCost (gridCell (grid s)) done /\
  0 <= alienBudget s /\
  (forall r c, gridCell (grid s) r c = true ->
               In (r, c) done /\ patternCell pattern r c = true) /\
  (presetCost pattern rows <= cap ->
   forall r c, In (r, c) done -> patternCell pattern r c = true ->
               gridCell (grid s) r c = true) /\
  NoDup done /\ incl done (presetCells rows).

(** * Properties *)

(** ** Comparisons *)

Lemma Qleb_true a b : Qleb a b = true <-> (a <= b)%Q.
Proof. unfold Qleb. apply Qle_bool_iff. Qed.



(** ** The budget of [toggleGridCell] *)

(** C10.  A placement that the budget cannot pay is rejected as a whole:
    when the cell [(row, col)] is empty and [alienBudget < cost[row]],
    [toggleGridCell(row, col)] returns with the grid, the aliens and the
    budget as they were; the only assignment made is the shake timer. *)
Theorem toggleGridCell_rejected_is_atomic (st : Game) (row col : nat) :
  (row < length (grid st))%nat ->
  gridCell (grid st) row col = false ->
  alienBudget st < costOf row ->
  exists st',
    toggleGridCell row col st = Some st' /\
    st' = set_budgetShakeTimer 20 st /\
    grid st' = grid st /\
    aliens st' = aliens st /\
    alienBudget st' = alienBudget st /\
    alienBudgetMax st' = alienBudgetMax st /\
    evolvedCells st' = evolvedCells st.
Proof.
  intros Hrow Hcell Hbudget.
  unfold toggleGridCell, gridCell in *.
  destruct (nth_error (grid st) row) as [r|] eqn:Er.
  - rewrite (nth_error_nth _ _ [] Er) in Hcell. rewrite Hcell.
    apply Z.ltb_lt in Hbudget. rewrite Hbudget.
    eexists. split; [reflexivity|]. repeat split.
  - apply nth_error_None in Er. lia.
Qed.

Lemma toggleGridCell_rejected_is_atomic_witness :
  exists st',
    toggleGridCell 0 8 spentGame = Some st' /\
    st' = set_budgetShakeTimer 20 spentGame /\
    grid st' = grid spentGame /\
    aliens st' = aliens spentGame /\
    alienBudget st' = alienBudget spentGame /\
    alienBudgetMax st' = alienBudgetMax spentGame /\
    evolvedCells st' = evolvedCells spentGame.
Proof.
  apply (toggleGridCell_rejected_is_atomic spentGame 0 8).
  - vm_compute. lia.
  - vm_compute. reflexivity.
  - vm_compute. reflexivity.
Defined.

(** ** Arrays *)

Lemma nth_error_setNth_same {A : Type} (d v : A) (n : nat) (l : list A) :
  nth_error (setNth d n v l) n = Some v.
Proof.
  revert l. induction n as [|n IH]; intros [|h t]; simpl; auto.
Qed.

Lemma nth_setNth_same {A : Type} (d d' v : A) (n : nat) (l : list A) :
  nth n (setNth d n v l) d' = v.
Proof.
  apply nth_error_nth. apply nth_error_setNth_same.
Qed.

Lemma nth_setNth_other {A : Type} (d v : A) (n m : nat) (l : list A) :
  n <> m -> nth m (setNth d n v l) d = nth m l d.
Proof.
  revert m l. induction n as [|n IH]; intros [|m] [|h t] Hnm; simpl;
    try congruence; try reflexivity.
  - destruct m; reflexivity.
  - rewrite IH by congruence. destruct m; reflexivity.
  - apply IH. congruence.
Qed.

Lemma length_setNth_inside {A : Type} (d v : A) (n : nat) (l : list A) :
  (n < length l)%nat -> length (setNth d n v l) = length l.
Proof.
  revert l. induction n as [|n IH]; intros [|h t] H; simpl in *; try lia.
  rewrite IH; lia.
Qed.

Lemma gridCell_setCell_same (g : list (list bool)) (row col : nat) (v : bool) :
  gridCell (setCell g row col v) row col = v.
Proof.
  unfold gridCell, setCell. rewrite nth_setNth_same. apply nth_setNth_same.
Qed.

Lemma length_setCell (g : list (list bool)) (row col : nat) (v : bool) :
  (row < length g)%nat -> length (setCell g row col v) = length g.
Proof. intro H. unfold setCell. apply length_setNth_inside. exact H. Qed.

(** ** The refund of [toggleGridCell] *)

(** What [toggleGridCell] does to a placed cell and to an empty cell that
    the budget can pay. *)
Lemma toggleGridCell_remove (st : Game) (row col : nat) :
  (row < length (grid st))%nat ->
  gridCell (grid st) row col = true ->
  exists st',
    toggleGridCell row col st = Some st' /\
    alienBudget st' = Z.min (alienBudgetMax st) (alienBudget st + costOf row) /\
    alienBudgetMax st' = alienBudgetMax st /\
    grid st' = setCell (grid st) row col false.
Proof.
  intros Hrow Hcell. unfold toggleGridCell, gridCell in *.
  destruct (nth_error (grid st) row) as [r|] eqn:Er.
  - rewrite (nth_error_nth _ _ [] Er) in Hcell. rewrite Hcell.
    eexists. split; [reflexivity|]. cbn.
    destruct (alienBudgetMax st <? alienBudget st + costOf row) eqn:E; cbn.
    + apply Z.ltb_lt in E. repeat split. lia.
    + apply Z.ltb_ge in E. repeat split. lia.
  - apply nth_error_None in Er. lia.
Qed.

Lemma toggleGridCell_place (st : Game) (row col : nat) :
  (row < length (grid st))%nat ->
  gridCell (grid st) row col = false ->
  costOf row <= alienBudget st ->
  exists st',
    toggleGridCell row col st = Some st' /\
    alienBudget st' = alienBudget st - costOf row /\
    alienBudgetMax st' = alienBudgetMax st /\
    grid st' = setCell (grid st) row col true.
Proof.
  intros Hrow Hcell Hpay. unfold toggleGridCell, gridCell in *.
  destruct (nth_error (grid st) row) as [r|] eqn:Er.
  - rewrite (nth_error_nth _ _ [] Er) in Hcell. rewrite Hcell.
    destruct (alienBudget st <? costOf row) eqn:E.
    + apply Z.ltb_lt in E. lia.
    + eexists. split; [reflexivity|]. cbn. repeat split.
  - apply nth_error_None in Er. lia.
Qed.

(** C7, as the code has it.  Removing a placed cell refunds [cost[row]]
    up to the cap: the budget becomes
    [min(alienBudgetMax, alienBudget + cost[row])], which is the exact
    refund whenever the sum does not pass the cap.  Placing an empty cell
    and removing it again brings the budget back to where it was
    whenever it was not above the cap. *)
Theorem toggleGridCell_refund_capped (st : Game) (row col : nat) :
  (row < length (grid st))%nat ->
  (gridCell (grid st) row col = true ->
   exists st',
     toggleGridCell row col st = Some st' /\
     alienBudget st' = Z.min (alienBudgetMax st) (alienBudget st + costOf row) /\
     (alienBudget st + costOf row <= alienBudgetMax st ->
      alienBudget st' = alienBudget st + costOf row)) /\
  (gridCell (grid st) row col = false ->
   costOf row <= alienBudget st ->
   alienBudget st <= alienBudgetMax st ->
   exists st1 st2,
     toggleGridCell row col st = Some st1 /\
     alienBudget st1 = alienBudget st - costOf row /\
     toggleGridCell row col st1 = Some st2 /\
     alienBudget st2 = alienBudget st).
Proof.
  intros Hrow. split.
  - intros Hcell.
    destruct (toggleGridCell_remove st row col Hrow Hcell) as (st' & E & B & _ & _).
    exists st'. repeat split; auto. lia.
  - intros Hcell Hpay Hcap.
    destruct (toggleGridCell_place st row col Hrow Hcell Hpay) as (st1 & E1 & B1 & M1 & G1).
    assert (Hrow1 : (row < length (grid st1))%nat).
    { rewrite G1, length_setCell; assumption. }
    assert (Hcell1 : gridCell (grid st1) row col = true).
    { rewrite G1. apply gridCell_setCell_same. }
    destruct (toggleGridCell_remove st1 row col Hrow1 Hcell1) as (st2 & E2 & B2 & _ & _).
    exists st1, st2. repeat split; auto. lia.
Qed.

Lemma toggleGridCell_refund_capped_witness :
  (gridCell (grid restartedWithCell) 0 0 = true ->
   exists st',
     toggleGridCell 0 0 restartedWithCell = Some st' /\
     alienBudget st' =
       Z.min (alienBudgetMax restartedWithCell) (alienBudget restartedWithCell + costOf 0) /\
     (alienBudget restartedWithCell + costOf 0 <= alienBudgetMax restartedWithCell ->
      alienBudget st' = alienBudget restartedWithCell + costOf 0)) /\
  (gridCell (grid restartedWithCell) 0 0 = false ->
   costOf 0 <= alienBudget restartedWithCell ->
   alienBudget restartedWithCell <= alienBudgetMax restartedWithCell ->
   exists st1 st2,
     toggleGridCell 0 0 restartedWithCell = Some st1 /\
     alienBudget st1 = alienBudget restartedWithCell - costOf 0 /\
     toggleGridCell 0 0 st1 = Some st2 /\
     alienBudget st2 = alienBudget restartedWithCell).
Proof.
  apply (toggleGridCell_refund_capped restartedWithCell 0 0).
  vm_compute. lia.
Defined.

(** C7, as the specification has it, fails: in [restartedWithCell] the
    bass cell is placed, and removing it leaves the budget at 8, not at
    8 + 3. *)
Lemma toggleGridCell_refund_not_exact :
  gridCell (grid restartedWithCell) 0 0 = true /\
  alienBudget restartedWithCell = 8 /\
  costOf 0 = 3 /\
  exists st',
    toggleGridCell 0 0 restartedWithCell = Some st' /\
    alienBudget st' = 8 /\
    alienBudget st' <> alienBudget restartedWithCell + costOf 0.
Proof.
  split; [reflexivity|]. split; [reflexivity|]. split; [reflexivity|].
  eexists. split; [reflexivity|]. split; [reflexivity|]. vm_compute. discriminate.
Qed.

(** ** Fields that a method leaves alone *)

Lemma fold_left_keeps {A B : Type} (p : Game -> B) (f : Game -> A -> Game)
  (l : list A) (st : Game) :
  (forall s a, p (f s a) = p s) -> p (fold_left f l st) = p st.
Proof.
  intro H. revert st. induction l as [|a l IH]; intro st; simpl.
  - reflexivity.
  - rewrite IH. apply H.
Qed.

Lemma downFrom_keeps {B : Type} (p : Game -> B) (body : nat -> Game -> Game)
  (n : nat) (st : Game) :
  (forall i s, p (body i s) = p s) -> p (downFrom n body st) = p st.
Proof.
  intro H. revert st. induction n as [|n IH]; intro st; simpl.
  - reflexivity.
  - rewrite IH. apply H.
Qed.

(** Reads a field through the assignments made before. *)
Ltac sets :=
  cbn [
    set_currentWave set_currentLoop set_wavePhase set_phaseTimer
    set_alienBudget set_alienBudgetMax set_budgetShakeTimer
    set_aiColumnHeatmap set_aiAdapting set_evolvedCells set_isBossWave
    set_upgrades set_currentCardChoices set_fireZones set_defenderMaxHP
    set_defenderHP set_bossShield set_bossShieldTimer set_bossMissileTimer
    set_lastShotTime set_shotDelay set_aiAccuracy set_aiShotsPerTurn
    set_defender set_gridRows set_score set_grid set_aliens
    set_alienProjectiles set_bullets set_currentStep set_lastStepTime
    set_bpm set_stepInterval set_powerUps set_activePowerUps set_gameOver
    set_isPaused set_isStarted set_freezeFrames set_touchLeft
    set_touchRight set_soundLog set_d_x set_d_speed set_ap_shield
    set_ap_speedBoost set_ap_rapidFire set_ap_spreadShot set_alive set_hp
    set_respawnIn set_p_x set_p_y set_p_damage set_z_life set_damageTimer
    a_row a_col a_x a_y alive hp maxHp evolved respawnIn p_type p_x p_y
    p_speed p_damage p_row aliensOnStep b_x b_y b_speed b_vx b_vy u_x u_y
    u_type u_speed z_x z_y z_life damageTimer d_x d_y d_width d_height
    d_speed ap_shield ap_speedBoost ap_rapidFire ap_spreadShot currentWave
    currentLoop loopsPerWave wavePhase phaseTimer alienBudget
    alienBudgetMax budgetShakeTimer aiColumnHeatmap aiAdapting
    evolvedCells isBossWave upgrades currentCardChoices fireZones
    defenderMaxHP defenderHP bossShield bossShieldTimer bossMissileTimer
    lastShotTime shotDelay aiAccuracy aiActive aiShotsPerTurn defender
    gridRows score grid aliens alienProjectiles bullets currentStep
    lastStepTime bpm stepInterval powerUps activePowerUps gameOver
    isPaused isStarted freezeFrames touchLeft touchRight soundLog perfNow
    dateNow rndShoot rndDrop rndDropType rndCard ].

Ltac sets_in H :=
  cbn [
    set_currentWave set_currentLoop set_wavePhase set_phaseTimer
    set_alienBudget set_alienBudgetMax set_budgetShakeTimer
    set_aiColumnHeatmap set_aiAdapting set_evolvedCells set_isBossWave
    set_upgrades set_currentCardChoices set_fireZones set_defenderMaxHP
    set_defenderHP set_bossShield set_bossShieldTimer set_bossMissileTimer
    set_lastShotTime set_shotDelay set_aiAccuracy set_aiShotsPerTurn
    set_defender set_gridRows set_score set_grid set_aliens
    set_alienProjectiles set_bullets set_currentStep set_lastStepTime
    set_bpm set_stepInterval set_powerUps set_activePowerUps set_gameOver
    set_isPaused set_isStarted set_freezeFrames set_touchLeft
    set_touchRight set_soundLog set_d_x set_d_speed set_ap_shield
    set_ap_speedBoost set_ap_rapidFire set_ap_spreadShot set_alive set_hp
    set_respawnIn set_p_x set_p_y set_p_damage set_z_life set_damageTimer
    a_row a_col a_x a_y alive hp maxHp evolved respawnIn p_type p_x p_y
    p_speed p_damage p_row aliensOnStep b_x b_y b_speed b_vx b_vy u_x u_y
    u_type u_speed z_x z_y z_life damageTimer d_x d_y d_width d_height
    d_speed ap_shield ap_speedBoost ap_rapidFire ap_spreadShot currentWave
    currentLoop loopsPerWave wavePhase phaseTimer alienBudget
    alienBudgetMax budgetShakeTimer aiColumnHeatmap aiAdapting
    evolvedCells isBossWave upgrades currentCardChoices fireZones
    defenderMaxHP defenderHP bossShield bossShieldTimer bossMissileTimer
    lastShotTime shotDelay aiAccuracy aiActive aiShotsPerTurn defender
    gridRows score grid aliens alienProjectiles bullets currentStep
    lastStepTime bpm stepInterval powerUps activePowerUps gameOver
    isPaused isStarted freezeFrames touchLeft touchRight soundLog perfNow
    dateNow rndShoot rndDrop rndDropType rndCard ] in H.

(** Case analysis on every test and pattern match of a method body. *)
Ltac split_all :=
  repeat match goal with
         | |- context [match ?c with _ => _ end] =>
           lazymatch c with
           | context [match _ with _ => _ end] => fail
           | _ => destruct c
           end
         end.

(** Case analysis on every test of a method body. *)
Ltac split_ifs :=
  repeat match goal with
         | |- context [if ?c then _ else _] => destruct c
         | |- context [match ?c with Some _ => _ | None => _ end] => destruct c
         end.

Ltac keeps := intros; cbv beta zeta delta [
    updateAIForWave respawnAliens scrambleCell mirrorCell markUpgrade
    loadPresetCell clearGrid gameLost alienShoot moveDefender shoot];
  split_ifs; reflexivity.

Lemma updateAIForWave_currentWave st : currentWave (updateAIForWave st) = currentWave st.
Proof. keeps. Qed.
Lemma updateAIForWave_alienBudget st : alienBudget (updateAIForWave st) = alienBudget st.
Proof. keeps. Qed.
Lemma updateAIForWave_alienBudgetMax st :
  alienBudgetMax (updateAIForWave st) = alienBudgetMax st.
Proof. keeps. Qed.
Lemma updateAIForWave_wavePhase st : wavePhase (updateAIForWave st) = wavePhase st.
Proof. keeps. Qed.
Lemma updateAIForWave_grid st : grid (updateAIForWave st) = grid st.
Proof. keeps. Qed.

Lemma applyUpgrade_currentWave rnd card st :
  currentWave (applyUpgrade rnd card st) = currentWave st.
Proof.
  destruct card; cbn [applyUpgrade]; try reflexivity.
  - split_ifs; reflexivity.
  - apply fold_left_keeps. intros s row. apply fold_left_keeps. keeps.
  - apply fold_left_keeps. intros s row. apply fold_left_keeps. keeps.
Qed.

Lemma markUpgrade_currentWave c st : currentWave (markUpgrade c st) = currentWave st.
Proof. keeps. Qed.

(** ** The budget of a new wave *)

(** C8.  A call of [selectCard] with the index of a shown card advances
    the wave by one, sets [alienBudgetMax] to
    [min(24, 8 + (currentWave - 1) * 2)] for the new wave and sets
    [alienBudget] to that cap. *)
Theorem selectCard_resets_budget (rnd : nat -> nat -> Q) (index : Z) (st : Game) :
  0 <= index < Z.of_nat (length (currentCardChoices st)) ->
  currentWave (selectCard rnd index st) = currentWave st + 1 /\
  alienBudgetMax (selectCard rnd index st)
    = Z.min 24 (8 + (currentWave (selectCard rnd index st) - 1) * 2) /\
  alienBudget (selectCard rnd index st) = alienBudgetMax (selectCard rnd index st).
Proof.
  intros [Hlo Hhi]. unfold selectCard.
  destruct (index <? 0) eqn:E1; [apply Z.ltb_lt in E1; lia|].
  destruct (Z.of_nat (length (currentCardChoices st)) <=? index) eqn:E2;
    [apply Z.leb_le in E2; lia|].
  cbn [orb].
  destruct (nth_error (currentCardChoices st) (Z.to_nat index)) as [card|] eqn:E3.
  - cbn [respawnAliens set_aliens currentWave alienBudget alienBudgetMax
         set_currentCardChoices set_phaseTimer set_wavePhase set_isBossWave].
    rewrite updateAIForWave_currentWave, updateAIForWave_alienBudget,
      updateAIForWave_alienBudgetMax.
    cbn. rewrite markUpgrade_currentWave, applyUpgrade_currentWave.
    repeat split.
  - apply nth_error_None in E3. lia.
Qed.

Lemma selectCard_resets_budget_witness :
  currentWave (selectCard noDraw 0 wonGame) = currentWave wonGame + 1 /\
  alienBudgetMax (selectCard noDraw 0 wonGame)
    = Z.min 24 (8 + (currentWave (selectCard noDraw 0 wonGame) - 1) * 2) /\
  alienBudget (selectCard noDraw 0 wonGame)
    = alienBudgetMax (selectCard noDraw 0 wonGame).
Proof.
  apply (selectCard_resets_budget noDraw 0 wonGame).
  vm_compute. split; [discriminate | reflexivity].
Defined.

(** ** The wave table *)

(** C3.  For a wave number from 1 on, [updateAIForWave] sets [shotDelay],
    [aiAccuracy], [aiShotsPerTurn] and [defenderMaxHP] to the entry of the
    wave table: they are a function of the wave number alone. *)
Theorem updateAIForWave_is_wave_table (st : Game) :
  1 <= currentWave st ->
  (shotDelay (updateAIForWave st), aiAccuracy (updateAIForWave st),
   aiShotsPerTurn (updateAIForWave st), defenderMaxHP (updateAIForWave st))
  = waveTable (currentWave st).
Proof.
  intro Hw. unfold updateAIForWave, waveTable.
  destruct (currentWave st =? 1) eqn:E1; [reflexivity|].
  apply Z.eqb_neq in E1.
  destruct (currentWave st <=? 2) eqn:E2.
  - apply Z.leb_le in E2.
    assert (E : (currentWave st =? 2) = true) by (apply Z.eqb_eq; lia).
    rewrite E. reflexivity.
  - apply Z.leb_gt in E2.
    assert (E : (currentWave st =? 2) = false) by (apply Z.eqb_neq; lia).
    rewrite E.
    destruct (currentWave st =? 3); [reflexivity|].
    destruct (currentWave st =? 4); [reflexivity|].
    destruct (currentWave st mod 5 =? 0); [reflexivity|].
    destruct (10 <=? currentWave st); reflexivity.
Qed.

Lemma updateAIForWave_is_wave_table_witness :
  (shotDelay (updateAIForWave (set_currentWave 15 newGame)),
   aiAccuracy (updateAIForWave (set_currentWave 15 newGame)),
   aiShotsPerTurn (updateAIForWave (set_currentWave 15 newGame)),
   defenderMaxHP (updateAIForWave (set_currentWave 15 newGame)))
  = waveTable (currentWave (set_currentWave 15 newGame)).
Proof.
  apply (updateAIForWave_is_wave_table (set_currentWave 15 newGame)).
  vm_compute. discriminate.
Defined.

(** ** The budget invariant *)

Lemma costOf_pos (row : nat) : 0 < costOf row.
Proof.
  unfold costOf, alienCosts.
  do 5 (destruct row as [|row]; [cbn; lia|]).
  destruct row; cbn; lia.
Qed.

Lemma trues_nonneg r : 0 <= trues r.
Proof. unfold trues. lia. Qed.

Lemma trues_setNth (col : nat) (v : bool) (r : list bool) :
  trues (setNth false col v r)
  = trues r - (if nth col r false then 1 else 0) + (if v then 1 else 0).
Proof.
  unfold trues. revert r. induction col as [|col IH]; intros [|h t].
  - destruct v; reflexivity.
  - cbn [setNth nth]. destruct v, h; cbn [count_occ];
      repeat (destruct (bool_dec _ _); try congruence); lia.
  - cbn [setNth nth]. specialize (IH []). cbn [nth count_occ] in *.
    destruct (bool_dec false true); [congruence|].
    destruct col; cbn [nth] in IH; lia.
  - cbn [setNth nth count_occ]. specialize (IH t).
    destruct (bool_dec h true); lia.
Qed.

Lemma placedCostFrom_nonneg (k : nat) (g : list (list bool)) : 0 <= placedCostFrom k g.
Proof.
  revert k. induction g as [|r g IH]; intro k; cbn [placedCostFrom].
  - lia.
  - specialize (IH (S k)). pose proof (costOf_pos k). pose proof (trues_nonneg r).
    unfold trues in *. nia.
Qed.

Lemma placedCostFrom_setNth (k row : nat) (r : list bool) (g : list (list bool)) :
  placedCostFrom k (setNth [] row r g)
  = placedCostFrom k g + costOf (k + row) * (trues r - trues (nth row g [])).
Proof.
  unfold trues. revert k g. induction row as [|row IH]; intros k [|h t].
  - cbn. rewrite Nat.add_0_r. lia.
  - cbn [setNth nth placedCostFrom]. rewrite Nat.add_0_r. lia.
  - cbn [setNth nth placedCostFrom]. rewrite (IH (S k) []).
    cbn [placedCostFrom]. replace (S k + row)%nat with (k + S row)%nat by lia.
    destruct row; cbn; lia.
  - cbn [setNth nth placedCostFrom]. rewrite (IH (S k) t).
    replace (S k + row)%nat with (k + S row)%nat by lia. lia.
Qed.

Lemma placedCostFrom_setCell (g : list (list bool)) (row col : nat) (v : bool) :
  placedCostFrom 0 (setCell g row col v)
  = placedCostFrom 0 g
    + costOf row * ((if v then 1 else 0) - (if gridCell g row col then 1 else 0)).
Proof.
  unfold setCell, gridCell. rewrite placedCostFrom_setNth, trues_setNth.
  cbn [Nat.add]. f_equal. f_equal. lia.
Qed.

Lemma placedCostFrom_empty (k rows cols : nat) :
  placedCostFrom k (emptyGrid rows cols) = 0.
Proof.
  unfold emptyGrid. revert k. induction rows as [|rows IH]; intro k; cbn.
  - reflexivity.
  - rewrite IH.
    assert (H : count_occ bool_dec (repeat false cols) true = 0%nat).
    { apply count_occ_not_In. intro Hin. apply repeat_spec in Hin. discriminate. }
    rewrite H. lia.
Qed.

(** What [toggleGridCell] does, in its three branches. *)
Lemma toggleGridCell_cases (st st' : Game) (row col : nat) :
  toggleGridCell row col st = Some st' ->
  alienBudgetMax st' = alienBudgetMax st /\
  ((gridCell (grid st) row col = true /\
    grid st' = setCell (grid st) row col false /\
    alienBudget st' = Z.min (alienBudgetMax st) (alienBudget st + costOf row)) \/
   (gridCell (grid st) row col = false /\ alienBudget st < costOf row /\
    grid st' = grid st /\ alienBudget st' = alienBudget st) \/
   (gridCell (grid st) row col = false /\ costOf row <= alienBudget st /\
    grid st' = setCell (grid st) row col true /\
    alienBudget st' = alienBudget st - costOf row)).
Proof.
  unfold toggleGridCell, gridCell.
  destruct (nth_error (grid st) row) as [r|] eqn:Er; [|discriminate].
  rewrite (nth_error_nth _ _ [] Er).
  destruct (nth col r false) eqn:Ec.
  - intro H. injection H as <-. cbn. split; [split_ifs; reflexivity|].
    left. repeat split.
    + split_ifs; reflexivity.
    + destruct (alienBudgetMax st <? alienBudget st + costOf row) eqn:E; cbn.
      * apply Z.ltb_lt in E. lia.
      * apply Z.ltb_ge in E. lia.
  - destruct (alienBudget st <? costOf row) eqn:E; intro H; injection H as <-.
    + apply Z.ltb_lt in E. split; [reflexivity|]. right. left. repeat split. exact E.
    + apply Z.ltb_ge in E. split; [reflexivity|]. right. right. repeat split. exact E.
Qed.

Lemma budgetCovers_toggle (st st' : Game) (row col : nat) :
  budgetCovers st -> toggleGridCell row col st = Some st' -> budgetCovers st'.
Proof.
  unfold budgetCovers, placedCost. intros [Hb Hs] H.
  apply toggleGridCell_cases in H. destruct H as [Hm H].
  pose proof (costOf_pos row) as Hc.
  pose proof (placedCostFrom_nonneg 0 (grid st)) as Hp.
  rewrite Hm.
  destruct H as [(Hcell & Hg & Hbud) | [(Hcell & Hlt & Hg & Hbud) | (Hcell & Hle & Hg & Hbud)]];
    rewrite Hg, Hbud; try rewrite placedCostFrom_setCell, Hcell; lia.
Qed.

Lemma budgetCovers_clearGrid (st : Game) : budgetCovers st -> budgetCovers (clearGrid st).
Proof.
  unfold budgetCovers, placedCost, clearGrid. cbn. intros [Hb Hs].
  rewrite placedCostFrom_empty.
  pose proof (placedCostFrom_nonneg 0 (grid st)). lia.
Qed.

Lemma budgetCovers_loadPresetCell pattern col row st :
  budgetCovers st -> budgetCovers (loadPresetCell pattern col row st).
Proof.
  unfold budgetCovers, placedCost, loadPresetCell. intros [Hb Hs].
  destruct (patternCell pattern row col); [|auto].
  destruct (costOf row <=? alienBudget st) eqn:E; [|auto].
  apply Z.leb_le in E. cbn. rewrite placedCostFrom_setCell.
  pose proof (costOf_pos row).
  destruct (gridCell (grid st) row col); lia.
Qed.

Lemma fold_left_invariant {A : Type} (P : Game -> Prop) (f : Game -> A -> Game)
  (l : list A) (st : Game) :
  (forall s a, P s -> P (f s a)) -> P st -> P (fold_left f l st).
Proof.
  intro H. revert st. induction l as [|a l IH]; intros st Hst; cbn; auto.
Qed.

Lemma budgetCovers_loadPreset pattern st :
  budgetCovers st -> budgetCovers (loadPreset pattern st).
Proof.
  intro H. unfold loadPreset.
  apply fold_left_invariant.
  - intros s col Hs. apply fold_left_invariant; [|exact Hs].
    intros s' row Hs'. apply budgetCovers_loadPresetCell. exact Hs'.
  - apply budgetCovers_clearGrid. exact H.
Qed.

Lemma budgetCovers_newGame : budgetCovers newGame.
Proof. unfold budgetCovers. vm_compute. split; discriminate. Qed.

(** A tempo in the hash of the page leaves the budget alone. *)
Lemma budgetCovers_url urlBpm : budgetCovers (loadPatternFromURL None urlBpm newGame).
Proof.
  unfold loadPatternFromURL, loadUrlBpm, loadUrlPattern.
  destruct urlBpm as [newBpm|]; [|apply budgetCovers_newGame].
  destruct (_ && _); exact budgetCovers_newGame.
Qed.

(** C4, as the code has it.  In every state reached by [toggleGridCell],
    [loadPreset] and [clearGrid] from a game constructed without a pattern
    in the hash of the page, the sum of [cost[row]] over the placed cells
    and the budget left add up to at most [alienBudgetMax]; so the sum
    alone is at most [alienBudgetMax]. *)
Theorem placed_cost_within_budget (st : Game) :
  editReach st ->
  0 <= alienBudget st /\
  placedCost st + alienBudget st <= alienBudgetMax st /\
  placedCost st <= alienBudgetMax st.
Proof.
  intro H.
  assert (Hinv : budgetCovers st).
  { induction H.
    - apply budgetCovers_newGame.
    - apply budgetCovers_url.
    - eapply budgetCovers_toggle; eauto.
    - apply budgetCovers_loadPreset. assumption.
    - apply budgetCovers_clearGrid. assumption. }
  destruct Hinv as [Hb Hs]. repeat split; auto. lia.
Qed.

Lemma placed_cost_within_budget_witness :
  0 <= alienBudget (loadPreset rockPreset newGame) /\
  placedCost (loadPreset rockPreset newGame) + alienBudget (loadPreset rockPreset newGame)
    <= alienBudgetMax (loadPreset rockPreset newGame) /\
  placedCost (loadPreset rockPreset newGame) <= alienBudgetMax (loadPreset rockPreset newGame).
Proof.
  apply (placed_cost_within_budget (loadPreset rockPreset newGame)).
  apply er_preset. apply er_new.
Defined.

(** C4, as the specification has it, fails: [overBudgetGame] is reached
    through [toggleGridCell] and [restartGame], its placed cells cost 11
    and its [alienBudgetMax] is 8. *)
Lemma placed_cost_exceeds_budget :
  publicReach overBudgetGame /\
  placedCost overBudgetGame = 11 /\
  alienBudgetMax overBudgetGame = 8 /\
  ~ (placedCost overBudgetGame <= alienBudgetMax overBudgetGame).
Proof.
  split.
  - apply (pr_toggle (restartGame spentGame) 0 8); [|reflexivity].
    apply pr_restart.
    assert (H1 : exists s1, toggleGridCell 0 0 newGame = Some s1 /\
             exists s2, toggleGridCell 0 4 s1 = Some s2 /\
             toggleGridCell 1 2 s2 = Some spentGame).
    { eexists. split; [reflexivity|]. eexists. split; reflexivity. }
    destruct H1 as (s1 & E1 & s2 & E2 & E3).
    apply (pr_toggle s2 1 2); [|exact E3].
    apply (pr_toggle s1 0 4); [|exact E2].
    apply (pr_toggle newGame 0 0); [|exact E1].
    apply pr_new.
  - split; [reflexivity|]. split; [reflexivity|]. vm_compute. intro H. apply H. reflexivity.
Qed.

(** The pattern of the hash of the page is placed without a charge: a
    game constructed with three full rows has cells for 96 and its whole
    budget of 8. *)
Lemma url_pattern_is_free :
  placedCost (loadPatternFromURL (Some [65535; 65535; 65535]) None newGame) = 96 /\
  alienBudget (loadPatternFromURL (Some [65535; 65535; 65535]) None newGame) = 8 /\
  alienBudgetMax (loadPatternFromURL (Some [65535; 65535; 65535]) None newGame) = 8.
Proof. vm_compute. repeat split. Qed.

(** ** Damage and crossfire *)






(** ** The threat map *)

Open Scope Q_scope.


















(** ** The search for the safest zone *)






(** ** The move of the defender *)










(** ** The phase through a frame *)

Close Scope Q_scope.

Lemma downFrom_invariant (P : Game -> Prop) (body : nat -> Game -> Game)
  (n : nat) (st : Game) :
  (forall i s, P s -> P (body i s)) -> P st -> P (downFrom n body st).
Proof.
  intro H. revert st. induction n as [|n IH]; intros st Hst; cbn; auto.
Qed.

Lemma moveDefender_wavePhase dir st : wavePhase (moveDefender dir st) = wavePhase st.
Proof. keeps. Qed.

Lemma touchMoves_wavePhase st : wavePhase (touchMoves st) = wavePhase st.
Proof.
  unfold touchMoves. cbv zeta. split_ifs; rewrite ?moveDefender_wavePhase; reflexivity.
Qed.

Lemma fireZoneStep_wavePhase i st : wavePhase (fireZoneStep i st) = wavePhase st.
Proof. unfold fireZoneStep. cbv zeta. split_all; reflexivity. Qed.

Lemma fireZoneLoop_wavePhase st : wavePhase (fireZoneLoop st) = wavePhase st.
Proof. apply downFrom_keeps. apply fireZoneStep_wavePhase. Qed.

Lemma shoot_wavePhase st : wavePhase (shoot st) = wavePhase st.
Proof. keeps. Qed.

Lemma aiShooting_wavePhase env st : wavePhase (aiShooting env st) = wavePhase st.
Proof.
  unfold aiShooting. cbv zeta. split_ifs; sets; try reflexivity.
  apply fold_left_keeps. intros. apply shoot_wavePhase.
Qed.

Lemma bossAI_wavePhase st : wavePhase (bossAI st) = wavePhase st.
Proof. unfold bossAI. cbv zeta. split_ifs; reflexivity. Qed.

Lemma updateAI_wavePhase env st : wavePhase (updateAI env st) = wavePhase st.
Proof.
  unfold updateAI. cbv zeta. split_ifs;
    rewrite ?bossAI_wavePhase, ?aiShooting_wavePhase, ?moveDefender_wavePhase;
    reflexivity.
Qed.

Lemma aiStage_wavePhase env st : wavePhase (aiStage env st) = wavePhase st.
Proof. unfold aiStage. split_ifs; rewrite ?updateAI_wavePhase; reflexivity. Qed.

Lemma dropPowerUp_wavePhase r1 r2 x y st :
  wavePhase (dropPowerUp r1 r2 x y st) = wavePhase st.
Proof. unfold dropPowerUp. cbv zeta. split_all; reflexivity. Qed.

Lemma bulletStep_wavePhase env i st : wavePhase (bulletStep env i st) = wavePhase st.
Proof.
  unfold bulletStep. cbv zeta.
  split_all; sets; rewrite ?dropPowerUp_wavePhase; reflexivity.
Qed.

Lemma bulletLoop_wavePhase env st : wavePhase (bulletLoop env st) = wavePhase st.
Proof. apply downFrom_keeps. apply bulletStep_wavePhase. Qed.

Lemma powerUpStep_wavePhase i st : wavePhase (powerUpStep i st) = wavePhase st.
Proof. unfold powerUpStep, collectPowerUp. cbv zeta. split_all; reflexivity. Qed.

Lemma powerUpLoop_wavePhase st : wavePhase (powerUpLoop st) = wavePhase st.
Proof. apply downFrom_keeps. apply powerUpStep_wavePhase. Qed.

Lemma powerUpTimers_wavePhase st : wavePhase (powerUpTimers st) = wavePhase st.
Proof. unfold powerUpTimers. cbv zeta. split_all; reflexivity. Qed.

Lemma quickRespawnTick_wavePhase st : wavePhase (quickRespawnTick st) = wavePhase st.
Proof. unfold quickRespawnTick. split_ifs; reflexivity. Qed.

Lemma respawnAliens_wavePhase st : wavePhase (respawnAliens st) = wavePhase st.
Proof. reflexivity. Qed.

Lemma alienShoot_wavePhase alien st : wavePhase (alienShoot alien st) = wavePhase st.
Proof. reflexivity. Qed.

Lemma fireRow_wavePhase st row : wavePhase (fireRow st row) = wavePhase st.
Proof. unfold fireRow. cbv zeta. split_all; reflexivity. Qed.

Lemma waveComplete_wavePhase env st : wavePhase (waveComplete env st) = cardpick.
Proof. reflexivity. Qed.

(** The projectile loop leaves the phase or calls [waveComplete]. *)
Lemma takeDamage_wavePhase env i proj st :
  wavePhase (takeDamage env i proj st) = wavePhase st \/
  wavePhase (takeDamage env i proj st) = cardpick.
Proof. unfold takeDamage. cbv zeta. split_all; sets; auto. Qed.

Lemma projectileStep_wavePhase env i st :
  wavePhase (projectileStep env i st) = wavePhase st \/
  wavePhase (projectileStep env i st) = cardpick.
Proof.
  unfold projectileStep. cbv zeta.
  split_all; sets; auto;
    match goal with
    | |- context [takeDamage env i ?p ?s] =>
      destruct (takeDamage_wavePhase env i p s) as [E | E]; [left | right]; exact E
    end.
Qed.

Lemma projectileLoop_wavePhase env st :
  wavePhase (projectileLoop env st) = wavePhase st \/
  wavePhase (projectileLoop env st) = cardpick.
Proof.
  unfold projectileLoop.
  apply (downFrom_invariant
           (fun s => wavePhase s = wavePhase st \/ wavePhase s = cardpick)).
  - intros i s [H | H]; destruct (projectileStep_wavePhase env i s) as [E | E];
      rewrite E; auto.
  - left. reflexivity.
Qed.

Lemma buildHeatmap_wavePhase st : wavePhase (buildHeatmap st) = wavePhase st.
Proof. apply fold_left_keeps. intros. split_ifs; reflexivity. Qed.

Lemma markEvolved_wavePhase st : wavePhase (markEvolved st) = wavePhase st.
Proof. apply fold_left_keeps. intros. split_ifs; reflexivity. Qed.

Create Rewrite HintDb phase.

#[local] Hint Rewrite
  moveDefender_wavePhase touchMoves_wavePhase fireZoneStep_wavePhase
  fireZoneLoop_wavePhase shoot_wavePhase aiShooting_wavePhase bossAI_wavePhase
  updateAI_wavePhase aiStage_wavePhase dropPowerUp_wavePhase bulletStep_wavePhase
  bulletLoop_wavePhase powerUpStep_wavePhase powerUpLoop_wavePhase
  powerUpTimers_wavePhase quickRespawnTick_wavePhase respawnAliens_wavePhase
  alienShoot_wavePhase fireRow_wavePhase waveComplete_wavePhase
  buildHeatmap_wavePhase markEvolved_wavePhase updateAIForWave_wavePhase
  : phase.

(** Reads the phase through the stages that leave it alone. *)
Ltac phase := repeat (progress (sets; autorewrite with phase)).

(** The end of a loop leaves the phase or calls [gameLost]. *)
Lemma loopCompleted_wavePhase st :
  wavePhase (loopCompleted st) = wavePhase st \/
  wavePhase (loopCompleted st) = gameover.
Proof.
  unfold loopCompleted. cbv zeta.
  split_ifs; unfold gameLost; phase; auto.
Qed.

Lemma sequencer_wavePhase env st :
  wavePhase (sequencer env st) = wavePhase st \/
  wavePhase (sequencer env st) = gameover.
Proof.
  unfold sequencer, fireRows, advanceStep. cbv zeta.
  destruct (Qleb (stepInterval st) (perfNow env - lastStepTime st)); [|auto].
  rewrite (fold_left_keeps wavePhase fireRow) by (intros; apply fireRow_wavePhase).
  destruct (Nat.eqb _ 0); [|auto].
  match goal with
  | |- context [loopCompleted ?s] =>
    destruct (loopCompleted_wavePhase s) as [E | E]; [left | right]; exact E
  end.
Qed.

(** A frame of the playing phase leaves the phase, wins the wave or loses
    the game. *)
Lemma playFrame_wavePhase env st :
  wavePhase (playFrame env st) = wavePhase st \/
  wavePhase (playFrame env st) = cardpick \/
  wavePhase (playFrame env st) = gameover.
Proof.
  unfold playFrame, beforeStep.
  pose proof (touchMoves_wavePhase st) as H1.
  set (s1 := touchMoves st) in *. clearbody s1.
  pose proof (fireZoneLoop_wavePhase s1) as H2.
  set (s2 := fireZoneLoop s1) in *. clearbody s2.
  pose proof (aiStage_wavePhase env s2) as H3.
  set (s3 := aiStage env s2) in *. clearbody s3.
  pose proof (bulletLoop_wavePhase env s3) as H4.
  set (s4 := bulletLoop env s3) in *. clearbody s4.
  pose proof (projectileLoop_wavePhase env s4) as H5.
  set (s5 := projectileLoop env s4) in *. clearbody s5.
  pose proof (powerUpLoop_wavePhase s5) as H6.
  set (s6 := powerUpLoop s5) in *. clearbody s6.
  pose proof (powerUpTimers_wavePhase s6) as H7.
  set (s7 := powerUpTimers s6) in *. clearbody s7.
  pose proof (sequencer_wavePhase env s7) as H8.
  set (s8 := sequencer env s7) in *. clearbody s8.
  rewrite quickRespawnTick_wavePhase.
  destruct H8 as [H8 | H8]; [|right; right; exact H8].
  destruct H5 as [H5 | H5]; [left | right; left]; congruence.
Qed.

(** What [update] does to the phase. *)
Lemma update_wavePhase env st : phaseStep (wavePhase st) (wavePhase (update env st)).
Proof.
  unfold update, phaseStep.
  destruct (isPaused st); [left; reflexivity|].
  destruct (0 <? freezeFrames st); [left; reflexivity|].
  destruct (wavePhase st) eqn:Ep.
  - destruct (playFrame_wavePhase env st) as [E | [E | E]]; rewrite E, ?Ep.
    + left. reflexivity.
    + right. left. constructor.
    + right. right. split; reflexivity.
  - cbv zeta. split_ifs; phase.
    + right. left. constructor.
    + left. exact Ep.
  - cbv zeta. split_ifs; phase.
    + right. left. constructor.
    + left. exact Ep.
  - left. exact Ep.
  - left. exact Ep.
Qed.





(** ** The end of the playing phase *)

(** C6 at the failing input.  The burn of a fire zone takes the last two
    hit points of the defender: the frame ends with the defender at 0 hit
    points, in the playing phase, with no card offered: [waveComplete] has
    not been called. *)
Theorem burn_kills_without_win :
  wavePhase burnGame = playing /\
  defenderHP burnGame = 2 /\
  hasUpgrade napalmRounds burnGame = true /\
  defenderHP (update cardEnv burnGame) = 0 /\
  wavePhase (update cardEnv burnGame) = playing /\
  currentCardChoices (update cardEnv burnGame) = [] /\
  currentWave (update cardEnv burnGame) = currentWave burnGame.
Proof.
  vm_compute. repeat split.
Qed.

(** The second defect on the same claim: the bullet that kills the
    defender arrives in the frame in which the last loop completes.
    [waveComplete] refills the hit points and sets cardpick, the loop check
    that follows finds the defender alive, and the game is lost in the frame
    in which the wave was won. *)
Lemma win_and_loss_in_one_frame :
  wavePhase lastStepGame = playing /\
  defenderHP lastStepGame = 3 /\
  wavePhase (update lastStepEnv lastStepGame) = gameover /\
  gameOver (update lastStepEnv lastStepGame) = true /\
  currentCardChoices (update lastStepEnv lastStepGame) <> [] /\
  score (update lastStepEnv lastStepGame) = score lastStepGame + 3 + 500.
Proof.
  vm_compute. repeat split. discriminate.
Qed.

(** ** The beat through a frame *)



Lemma sameBeat_refl st : sameBeat st st.
Proof. reflexivity. Qed.

Lemma sameBeat_trans a b c : sameBeat a b -> sameBeat b c -> sameBeat a c.
Proof. unfold sameBeat. congruence. Qed.


(** A method body that assigns none of the fields of the relation. *)
Ltac same :=
  unfold sameBeat, sameTempo; cbv zeta; split_all; reflexivity.

Lemma downFrom_sameBeat (body : nat -> Game -> Game) (n : nat) (st : Game) :
  (forall i s, sameBeat (body i s) s) -> sameBeat (downFrom n body st) st.
Proof.
  intro H. apply (downFrom_invariant (fun s => sameBeat s st)).
  - intros i s Hs. exact (sameBeat_trans _ _ _ (H i s) Hs).
  - apply sameBeat_refl.
Qed.

Lemma fold_left_sameBeat {A : Type} (f : Game -> A -> Game) (l : list A) (st : Game) :
  (forall s a, sameBeat (f s a) s) -> sameBeat (fold_left f l st) st.
Proof.
  intro H. apply (fold_left_invariant (fun s => sameBeat s st)).
  - intros s a Hs. exact (sameBeat_trans _ _ _ (H s a) Hs).
  - apply sameBeat_refl.
Qed.


Lemma moveDefender_sameBeat dir st : sameBeat (moveDefender dir st) st.
Proof. unfold moveDefender. same. Qed.

Lemma touchMoves_sameBeat st : sameBeat (touchMoves st) st.
Proof. unfold touchMoves, moveDefender. same. Qed.

Lemma fireZoneStep_sameBeat i st : sameBeat (fireZoneStep i st) st.
Proof. unfold fireZoneStep. same. Qed.

Lemma fireZoneLoop_sameBeat st : sameBeat (fireZoneLoop st) st.
Proof. apply downFrom_sameBeat. apply fireZoneStep_sameBeat. Qed.

Lemma shoot_sameBeat st : sameBeat (shoot st) st.
Proof. unfold shoot. same. Qed.

Lemma aiShooting_sameBeat env st : sameBeat (aiShooting env st) st.
Proof.
  unfold aiShooting. cbv zeta.
  destruct (Qleb _ _); [|apply sameBeat_refl].
  apply sameBeat_trans with
    (b := if negb (length (filter alive (aliens st)) =? 0)%nat
             && Qltb (rndShoot env) (aiAccuracy st)
          then fold_left (fun st _ => shoot st) (upto (aiShotsPerTurn st)) st
          else st).
  - reflexivity.
  - destruct (_ && _); [|apply sameBeat_refl].
    apply fold_left_sameBeat. intros. apply shoot_sameBeat.
Qed.

Lemma bossAI_sameBeat st : sameBeat (bossAI st) st.
Proof. unfold bossAI. same. Qed.

Lemma updateAI_sameBeat env st : sameBeat (updateAI env st) st.
Proof.
  unfold updateAI. cbv zeta.
  destruct (_ || _); [apply sameBeat_refl|].
  eapply sameBeat_trans; [apply bossAI_sameBeat|].
  eapply sameBeat_trans; [apply aiShooting_sameBeat|].
  destruct (moveDir st =? 0); [apply sameBeat_refl | apply moveDefender_sameBeat].
Qed.

Lemma aiStage_sameBeat env st : sameBeat (aiStage env st) st.
Proof.
  unfold aiStage. destruct (aiActive st); [apply updateAI_sameBeat | apply sameBeat_refl].
Qed.

Lemma bulletStep_sameBeat env i st : sameBeat (bulletStep env i st) st.
Proof. unfold bulletStep, dropPowerUp. same. Qed.

Lemma bulletLoop_sameBeat env st : sameBeat (bulletLoop env st) st.
Proof. apply downFrom_sameBeat. apply bulletStep_sameBeat. Qed.

Lemma takeDamage_sameBeat env i proj st : sameBeat (takeDamage env i proj st) st.
Proof. unfold takeDamage, waveComplete. same. Qed.

Lemma projectileStep_sameBeat env i st : sameBeat (projectileStep env i st) st.
Proof.
  unfold projectileStep. cbv zeta.
  split_all; try reflexivity;
    (eapply sameBeat_trans; [apply takeDamage_sameBeat | reflexivity]).
Qed.

Lemma projectileLoop_sameBeat env st : sameBeat (projectileLoop env st) st.
Proof. apply downFrom_sameBeat. apply projectileStep_sameBeat. Qed.

Lemma powerUpStep_sameBeat i st : sameBeat (powerUpStep i st) st.
Proof. unfold powerUpStep, collectPowerUp. same. Qed.

Lemma powerUpLoop_sameBeat st : sameBeat (powerUpLoop st) st.
Proof. apply downFrom_sameBeat. apply powerUpStep_sameBeat. Qed.

Lemma powerUpTimers_sameBeat st : sameBeat (powerUpTimers st) st.
Proof. unfold powerUpTimers. same. Qed.

(** Nothing before the drum sequence touches the beat. *)
Lemma beforeStep_sameBeat env st : sameBeat (beforeStep env st) st.
Proof.
  unfold beforeStep.
  eapply sameBeat_trans; [apply powerUpTimers_sameBeat|].
  eapply sameBeat_trans; [apply powerUpLoop_sameBeat|].
  eapply sameBeat_trans; [apply projectileLoop_sameBeat|].
  eapply sameBeat_trans; [apply bulletLoop_sameBeat|].
  eapply sameBeat_trans; [apply aiStage_sameBeat|].
  eapply sameBeat_trans; [apply fireZoneLoop_sameBeat|].
  apply touchMoves_sameBeat.
Qed.

(** ** The tempo through the events *)























(** ** The rows of a step *)

Lemma fireRow_eq (st : Game) (row : nat) :
  fireRow st row
  = set_alienProjectiles (alienProjectiles st ++ rowShots st row)
      (set_soundLog (soundLog st ++ (if firesAt st row then [row] else [])) st).
Proof.
  unfold fireRow, firesAt, rowShots, alienShoot.
  destruct (gridCell (grid st) row (currentStep st)); cbn [andb].
  - destruct (findAlive row (currentStep st) (aliens st)) as [alien|].
    + cbv zeta. destruct (hasUpgrade volleyFire st) eqn:Ev.
      * change (hasUpgrade volleyFire
                  (set_alienProjectiles _ (set_soundLog _ st))) with (hasUpgrade volleyFire st).
        rewrite Ev. sets. rewrite <- app_assoc. reflexivity.
      * change (hasUpgrade volleyFire
                  (set_alienProjectiles _ (set_soundLog _ st))) with (hasUpgrade volleyFire st).
        rewrite Ev. sets. rewrite app_nil_r. reflexivity.
    + rewrite !app_nil_r. reflexivity.
  - rewrite !app_nil_r. reflexivity.
Qed.

Lemma fold_fireRow (l : list nat) (st : Game) :
  fold_left fireRow l st
  = set_alienProjectiles (alienProjectiles st ++ flat_map (rowShots st) l)
      (set_soundLog (soundLog st ++ filter (firesAt st) l) st).
Proof.
  revert st. induction l as [|row l IH]; intro st; cbn [fold_left flat_map filter].
  - rewrite !app_nil_r. reflexivity.
  - rewrite IH, fireRow_eq.
    set (shots := rowShots st row). set (played := if firesAt st row then [row] else []).
    transitivity
      (set_alienProjectiles ((alienProjectiles st ++ shots) ++ flat_map (rowShots st) l)
         (set_soundLog ((soundLog st ++ played) ++ filter (firesAt st) l) st));
      [reflexivity|].
    rewrite <- !app_assoc. unfold played.
    destruct (firesAt st row); reflexivity.
Qed.










Lemma sameBeat_eq a b :
  sameBeat a b ->
  bpm a = bpm b /\ stepInterval a = stepInterval b /\ gridRows a = gridRows b /\
  currentStep a = currentStep b /\ lastStepTime a = lastStepTime b /\
  grid a = grid b /\ soundLog a = soundLog b.
Proof.
  unfold sameBeat, beatOf, tempoOf. intro H. injection H. intros.
  repeat split; assumption.
Qed.



Lemma update_playing env st :
  wavePhase st = playing -> isPaused st = false -> freezeFrames st <= 0 ->
  update env st = quickRespawnTick (sequencer env (beforeStep env st)).
Proof.
  intros Hp Hq Hf. unfold update. rewrite Hp, Hq.
  assert (E : (0 <? freezeFrames st) = false) by (apply Z.ltb_ge; exact Hf).
  rewrite E. reflexivity.
Qed.



(** * More of the game *)

(** ** What a frame writes

    A property of the state that survives every assignment made in the
    playing phase survives the frame.  The assignments are listed field by
    field, and with the value assigned where a property may depend on it
    (the phase, the step); the defender is assigned in two ways only, by
    [moveDefender] and
    by a change of its speed; the aliens are assigned in three ways only:
    a hit changes one alien in its place, the quick respawn revives aliens
    in their places, and [respawnAliens] rebuilds them from the grid. *)

Lemma findHit_Some bullet k l j a :
  findHit bullet k l = Some (j, a) ->
  (k <= j)%nat /\ nth_error l (j - k) = Some a /\
  alive a = true /\ checkCollision bullet a = true.
Proof.
  revert k. induction l as [|h t IH]; intros k; cbn [findHit]; [discriminate|].
  destruct (alive h && checkCollision bullet h) eqn:E.
  - intro H. injection H as <- <-. apply andb_prop in E. destruct E.
    rewrite Nat.sub_diag. repeat split; auto.
  - intro H. destruct (IH _ H) as (Hle & Hn & Ha & Hc).
    split; [lia|]. split; [|auto].
    replace (j - k)%nat with (S (j - S k)) by lia. exact Hn.
Qed.

Lemma tickRespawn_place a : placeOf (tickRespawn a) = placeOf a.
Proof.
  unfold tickRespawn. destruct (respawnIn a); [|reflexivity].
  destruct (negb (alive a)); [|reflexivity].
  destruct (_ <=? 0)%Z; reflexivity.
Qed.

Section Footprint.

Variable P : Game -> Prop.

Hypothesis P_fireZones : forall v s, P s -> P (set_fireZones v s).
Hypothesis P_activePowerUps : forall v s, P s -> P (set_activePowerUps v s).
Hypothesis P_defenderHP : forall v s, P s -> P (set_defenderHP v s).
Hypothesis P_score : forall v s, P s -> P (set_score v s).
Hypothesis P_bossShield : forall v s, P s -> P (set_bossShield v s).
Hypothesis P_bossShieldTimer : forall v s, P s -> P (set_bossShieldTimer v s).
Hypothesis P_bossMissileTimer : forall v s, P s -> P (set_bossMissileTimer v s).
Hypothesis P_lastShotTime : forall v s, P s -> P (set_lastShotTime v s).
Hypothesis P_bullets : forall v s, P s -> P (set_bullets v s).
Hypothesis P_alienProjectiles : forall v s, P s -> P (set_alienProjectiles v s).
Hypothesis P_powerUps : forall v s, P s -> P (set_powerUps v s).
Hypothesis P_freezeFrames : forall v s, P s -> P (set_freezeFrames v s).
Hypothesis P_defenderMaxHP : forall v s, P s -> P (set_defenderMaxHP v s).
Hypothesis P_currentCardChoices : forall v s, P s -> P (set_currentCardChoices v s).
Hypothesis P_cardpick : forall s, P s -> P (set_wavePhase cardpick s).
Hypothesis P_gameover : forall s, P s -> P (set_wavePhase gameover s).
Hypothesis P_playing : forall s, P s -> P (set_wavePhase playing s).
Hypothesis P_phaseTimer : forall v s, P s -> P (set_phaseTimer v s).
Hypothesis P_currentLoop : forall v s, P s -> P (set_currentLoop v s).
Hypothesis P_aiAdapting : forall v s, P s -> P (set_aiAdapting v s).
Hypothesis P_aiColumnHeatmap : forall v s, P s -> P (set_aiColumnHeatmap v s).
Hypothesis P_aiAccuracy : forall v s, P s -> P (set_aiAccuracy v s).
Hypothesis P_evolvedCells : forall v s, P s -> P (set_evolvedCells v s).
Hypothesis P_gameOver : forall v s, P s -> P (set_gameOver v s).
Hypothesis P_lastStepTime : forall v s, P s -> P (set_lastStepTime v s).
Hypothesis P_step :
  forall s, P s -> P (set_currentStep ((currentStep s + 1) mod gridCols)%nat s).
Hypothesis P_step0 : forall s, P s -> P (set_currentStep 0%nat s).
Hypothesis P_soundLog : forall v s, P s -> P (set_soundLog v s).
Hypothesis P_hit :
  forall s j a a', nth_error (aliens s) j = Some a -> placeOf a' = placeOf a ->
                   P s -> P (set_aliens (setNth a' j a' (aliens s)) s).
Hypothesis P_tick : forall s, P s -> P (set_aliens (map tickRespawn (aliens s)) s).
Hypothesis P_respawn : forall s, P s -> P (respawnAliens s).
Hypothesis P_speed :
  forall v s, P s -> P (set_defender (set_d_speed v (defender s)) s).
Hypothesis P_move : forall dir s, P s -> P (moveDefender dir s).

Ltac fp_step :=
  match goal with
  | H : P ?s |- P ?s => exact H
    | |- P (set_fireZones _ _) => apply P_fireZones
    | |- P (set_activePowerUps _ _) => apply P_activePowerUps
    | |- P (set_defenderHP _ _) => apply P_defenderHP
    | |- P (set_score _ _) => apply P_score
    | |- P (set_bossShield _ _) => apply P_bossShield
    | |- P (set_bossShieldTimer _ _) => apply P_bossShieldTimer
    | |- P (set_bossMissileTimer _ _) => apply P_bossMissileTimer
    | |- P (set_lastShotTime _ _) => apply P_lastShotTime
    | |- P (set_bullets _ _) => apply P_bullets
    | |- P (set_alienProjectiles _ _) => apply P_alienProjectiles
    | |- P (set_powerUps _ _) => apply P_powerUps
    | |- P (set_freezeFrames _ _) => apply P_freezeFrames
    | |- P (set_defenderMaxHP _ _) => apply P_defenderMaxHP
    | |- P (set_currentCardChoices _ _) => apply P_currentCardChoices
    | |- P (set_wavePhase cardpick _) => apply P_cardpick
    | |- P (set_wavePhase gameover _) => apply P_gameover
    | |- P (set_wavePhase playing _) => apply P_playing
    | |- P (set_phaseTimer _ _) => apply P_phaseTimer
    | |- P (set_currentLoop _ _) => apply P_currentLoop
    | |- P (set_aiAdapting _ _) => apply P_aiAdapting
    | |- P (set_aiColumnHeatmap _ _) => apply P_aiColumnHeatmap
    | |- P (set_aiAccuracy _ _) => apply P_aiAccuracy
    | |- P (set_evolvedCells _ _) => apply P_evolvedCells
    | |- P (set_gameOver _ _) => apply P_gameOver
    | |- P (set_lastStepTime _ _) => apply P_lastStepTime
    | |- P (set_currentStep 0%nat _) => apply P_step0
    | |- P (set_currentStep _ _) => apply P_step
    | |- P (set_soundLog _ _) => apply P_soundLog
  | |- P (set_defender (set_d_speed _ _) _) => apply P_speed
  | |- P (moveDefender _ _) => apply P_move
  end.

Ltac fp := cbv zeta; split_all; repeat fp_step.

Lemma touchMoves_keeps st : P st -> P (touchMoves st).
Proof. intro H. unfold touchMoves. fp. Qed.

Lemma fireZoneStep_keeps i st : P st -> P (fireZoneStep i st).
Proof. intro H. unfold fireZoneStep. fp. Qed.

Lemma fireZoneLoop_keeps st : P st -> P (fireZoneLoop st).
Proof. apply downFrom_invariant. apply fireZoneStep_keeps. Qed.

Lemma shoot_keeps st : P st -> P (shoot st).
Proof. intro H. unfold shoot. fp. Qed.

Lemma aiShooting_keeps env st : P st -> P (aiShooting env st).
Proof.
  intro H. unfold aiShooting. cbv zeta.
  destruct (Qleb _ _); [|exact H].
  apply P_lastShotTime.
  destruct (_ && _); [|exact H].
  apply fold_left_invariant; [|exact H]. intros s _. apply shoot_keeps.
Qed.

Lemma bossAI_keeps st : P st -> P (bossAI st).
Proof. intro H. unfold bossAI. fp. Qed.

Lemma updateAI_keeps env st : P st -> P (updateAI env st).
Proof.
  intro H. unfold updateAI. cbv zeta.
  destruct (_ || _); [exact H|].
  apply bossAI_keeps, aiShooting_keeps.
  destruct (moveDir st =? 0)%Z; [exact H | apply P_move; exact H].
Qed.

Lemma aiStage_keeps env st : P st -> P (aiStage env st).
Proof.
  intro H. unfold aiStage. destruct (aiActive st); [apply updateAI_keeps|]; exact H.
Qed.

Lemma dropPowerUp_keeps r1 r2 x y st : P st -> P (dropPowerUp r1 r2 x y st).
Proof. intro H. unfold dropPowerUp. fp. Qed.

Lemma bulletStep_keeps env i st : P st -> P (bulletStep env i st).
Proof.
  intro H. unfold bulletStep. cbv zeta.
  destruct (nth_error (bullets st) i) as [bullet|]; [|exact H].
  match goal with
  | |- context [findHit ?b 0 ?l] =>
    destruct (findHit b 0 l) as [[j alien]|] eqn:E
  end.
  - destruct (findHit_Some _ _ _ _ _ E) as (_ & Hn & _).
    rewrite Nat.sub_0_r in Hn.
    apply P_bullets.
    match goal with
    | |- P (if ?c then _ else _) => destruct c
    end.
    + apply dropPowerUp_keeps.
      apply P_hit with (a := alien); [exact Hn | | apply P_bullets; exact H].
      destruct (hasUpgrade quickRespawn _), (falsyZ (hp alien)); reflexivity.
    + apply P_hit with (a := alien); [exact Hn | | apply P_bullets; exact H].
      destruct (falsyZ (hp alien)); reflexivity.
  - destruct (Qltb _ _); repeat fp_step.
Qed.

Lemma bulletLoop_keeps env st : P st -> P (bulletLoop env st).
Proof. apply downFrom_invariant. apply bulletStep_keeps. Qed.

Lemma waveComplete_keeps env st : P st -> P (waveComplete env st).
Proof. intro H. unfold waveComplete. fp. Qed.

Lemma takeDamage_keeps env i proj st : P st -> P (takeDamage env i proj st).
Proof.
  intro H. unfold takeDamage. cbv zeta.
  match goal with
  | |- P (if ?c then waveComplete _ ?s else _) => destruct c; [apply waveComplete_keeps|]
  end; fp.
Qed.

Lemma projectileStep_keeps env i st : P st -> P (projectileStep env i st).
Proof.
  intro H. unfold projectileStep. cbv zeta.
  destruct (nth_error (alienProjectiles st) i) as [proj|]; [|exact H].
  repeat match goal with
         | |- P (if ?c then _ else _) => destruct c
         end;
    try apply takeDamage_keeps; repeat fp_step.
Qed.

Lemma projectileLoop_keeps env st : P st -> P (projectileLoop env st).
Proof. apply downFrom_invariant. apply projectileStep_keeps. Qed.

Lemma collectPowerUp_keeps powerUp st : P st -> P (collectPowerUp powerUp st).
Proof. intro H. unfold collectPowerUp. fp. Qed.

Lemma powerUpStep_keeps i st : P st -> P (powerUpStep i st).
Proof.
  intro H. unfold powerUpStep. cbv zeta.
  destruct (nth_error (powerUps st) i) as [powerUp|]; [|exact H].
  repeat match goal with
         | |- P (if ?c then _ else _) => destruct c
         end;
    repeat fp_step.
  apply collectPowerUp_keeps. repeat fp_step.
Qed.

Lemma powerUpLoop_keeps st : P st -> P (powerUpLoop st).
Proof. apply downFrom_invariant. apply powerUpStep_keeps. Qed.

Lemma powerUpTimers_keeps st : P st -> P (powerUpTimers st).
Proof. intro H. unfold powerUpTimers. fp. Qed.

Lemma beforeStep_keeps env st : P st -> P (beforeStep env st).
Proof.
  intro H. unfold beforeStep.
  apply powerUpTimers_keeps, powerUpLoop_keeps, projectileLoop_keeps,
    bulletLoop_keeps, aiStage_keeps, fireZoneLoop_keeps, touchMoves_keeps.
  exact H.
Qed.

Lemma buildHeatmap_keeps st : P st -> P (buildHeatmap st).
Proof.
  intro H. unfold buildHeatmap. apply fold_left_invariant; [|exact H].
  intros s a Hs. destruct (alive a); repeat fp_step.
Qed.

Lemma markEvolved_keeps st : P st -> P (markEvolved st).
Proof.
  intro H. unfold markEvolved. apply fold_left_invariant; [|exact H].
  intros s a Hs. destruct (alive a); repeat fp_step.
Qed.

Lemma loopCompleted_keeps st : P st -> P (loopCompleted st).
Proof.
  intro H. unfold loopCompleted. cbv zeta.
  set (s0 := set_currentLoop (currentLoop st + 1)%Z st).
  assert (H0 : P s0) by (apply P_currentLoop; exact H). clearbody s0.
  set (s1 := if (currentLoop s0 =? 4)%Z && negb (aiAdapting s0)
             then buildHeatmap (set_aiAdapting true s0) else s0).
  assert (H1 : P s1).
  { unfold s1. destruct (_ && _); [|exact H0].
    apply buildHeatmap_keeps, P_aiAdapting. exact H0. }
  clearbody s1.
  set (s2 := if (currentLoop s1 =? 6)%Z
             then set_aiAccuracy (Qmin (95 # 100) (aiAccuracy s1 + (1 # 10))) s1 else s1).
  assert (H2 : P s2) by (unfold s2; destruct (_ =? _)%Z; repeat fp_step).
  clearbody s2.
  destruct (loopsPerWave s2 <? currentLoop s2)%Z.
  - destruct (0 <? defenderHP (markEvolved s2))%Z.
    + unfold gameLost. apply P_gameOver, P_gameover, markEvolved_keeps. exact H2.
    + apply markEvolved_keeps. exact H2.
  - apply P_respawn. exact H2.
Qed.

Lemma advanceStep_keeps env st : P st -> P (advanceStep env st).
Proof.
  intro H. unfold advanceStep. cbv zeta.
  destruct (Nat.eqb _ 0); [apply loopCompleted_keeps|]; repeat fp_step.
Qed.

Lemma fireRows_keeps st : P st -> P (fireRows st).
Proof.
  intro H. unfold fireRows. rewrite fold_fireRow. repeat fp_step.
Qed.

Lemma sequencer_keeps env st : P st -> P (sequencer env st).
Proof.
  intro H. unfold sequencer. destruct (Qleb _ _); [|exact H].
  apply fireRows_keeps, advanceStep_keeps. exact H.
Qed.

Lemma quickRespawnTick_keeps st : P st -> P (quickRespawnTick st).
Proof.
  intro H. unfold quickRespawnTick.
  destruct (hasUpgrade quickRespawn st); [apply P_tick|]; exact H.
Qed.

Lemma playFrame_keeps env st : P st -> P (playFrame env st).
Proof.
  intro H. unfold playFrame.
  apply quickRespawnTick_keeps, sequencer_keeps, beforeStep_keeps. exact H.
Qed.

(** A frame in a phase other than [complete], which no state of a game is
    in. *)
Lemma update_keeps env st : wavePhase st <> complete -> P st -> P (update env st).
Proof.
  intros Hc H. unfold update.
  destruct (isPaused st); [exact H|].
  destruct (0 <? freezeFrames st)%Z; [apply P_freezeFrames; exact H|].
  destruct (wavePhase st).
  - apply playFrame_keeps. exact H.
  - cbv zeta. destruct (_ <=? _)%Z; repeat fp_step.
  - congruence.
  - exact H.
  - exact H.
Qed.

End Footprint.

Lemma wellFormed_newGame : wellFormed newGame.
Proof.
  split; [discriminate|]. split.
  { unfold waveData. cbn. repeat split; try lia; reflexivity. }
  split.
  { unfold gridShape. cbn. split; [reflexivity|]. split; [|left; reflexivity].
    repeat constructor. }
  split.
  { unfold aliensOnGrid. cbn. split; [constructor|]. split; [|constructor].
    intros row col. split; [contradiction|].
    unfold gridCell, emptyGrid.
    do 3 (destruct row as [|row]; [cbn; do 16 (destruct col as [|col]; [discriminate|]); destruct col; discriminate|]).
    destruct row; cbn; destruct col; discriminate. }
  unfold onCanvas. cbn. repeat split; try reflexivity; discriminate.
Qed.

(** ** Lists and grids *)

Lemma NoDup_flat_map {A B : Type} (f : A -> list B) (l : list A) :
  NoDup l ->
  (forall x, In x l -> NoDup (f x)) ->
  (forall x y b, In x l -> In y l -> In b (f x) -> In b (f y) -> x = y) ->
  NoDup (flat_map f l).
Proof.
  induction 1 as [|x l Hx Hl IH]; intros Hf Hd; cbn [flat_map]; [constructor|].
  apply NoDup_app.
  - apply Hf. left. reflexivity.
  - apply IH.
    + intros y Hy. apply Hf. right. exact Hy.
    + intros y z b Hy Hz. apply Hd; right; assumption.
  - intros b Hb Hb'. apply in_flat_map in Hb'. destruct Hb' as (y & Hy & Hby).
    assert (x = y) by (apply (Hd x y b); [left; reflexivity | right; exact Hy | exact Hb | exact Hby]).
    subst y. contradiction.
Qed.

Lemma map_flat_map {A B C : Type} (f : B -> C) (g : A -> list B) (l : list A) :
  map f (flat_map g l) = flat_map (fun x => map f (g x)) l.
Proof.
  induction l as [|x l IH]; cbn [flat_map]; [reflexivity|].
  rewrite map_app, IH. reflexivity.
Qed.

Lemma flat_map_ext_in {A B : Type} (f g : A -> list B) (l : list A) :
  (forall x, In x l -> f x = g x) -> flat_map f l = flat_map g l.
Proof.
  induction l as [|x l IH]; intro H; cbn [flat_map]; [reflexivity|].
  rewrite (H x) by (left; reflexivity). rewrite IH; [reflexivity|].
  intros y Hy. apply H. right. exact Hy.
Qed.

Lemma gridCell_setCell_other (g : list (list bool)) (row col row' col' : nat) (v : bool) :
  (row, col) <> (row', col') ->
  gridCell (setCell g row col v) row' col' = gridCell g row' col'.
Proof.
  intro H. unfold gridCell, setCell.
  destruct (Nat.eq_dec row row') as [<- | Hr].
  - rewrite nth_setNth_same. apply nth_setNth_other. congruence.
  - rewrite nth_setNth_other by exact Hr. reflexivity.
Qed.

Lemma gridCell_setCell (g : list (list bool)) (row col row' col' : nat) (v : bool) :
  gridCell (setCell g row col v) row' col'
  = if Nat.eqb row row' && Nat.eqb col col' then v else gridCell g row' col'.
Proof.
  destruct (Nat.eqb row row') eqn:Er; cbn [andb].
  - apply Nat.eqb_eq in Er. subst row'.
    destruct (Nat.eqb col col') eqn:Ec.
    + apply Nat.eqb_eq in Ec. subst col'. apply gridCell_setCell_same.
    + apply Nat.eqb_neq in Ec. apply gridCell_setCell_other. congruence.
  - apply Nat.eqb_neq in Er. apply gridCell_setCell_other. congruence.
Qed.

Lemma nth_repeat_false (n col : nat) : nth col (repeat false n) false = false.
Proof.
  revert col. induction n as [|n IH]; intros [|col]; cbn; auto.
Qed.

Lemma gridCell_emptyGrid (rows cols row col : nat) :
  gridCell (emptyGrid rows cols) row col = false.
Proof.
  unfold gridCell, emptyGrid. revert row.
  induction rows as [|rows IH]; intros [|row]; cbn [repeat nth].
  - destruct col; reflexivity.
  - destruct col; reflexivity.
  - apply nth_repeat_false.
  - apply IH.
Qed.

Lemma gridCell_outside_rows (g : list (list bool)) (row col : nat) :
  (length g <= row)%nat -> gridCell g row col = false.
Proof.
  intro H. unfold gridCell. rewrite (nth_overflow g) by exact H. destruct col; reflexivity.
Qed.

Lemma gridCell_outside_cols (g : list (list bool)) (row col : nat) :
  Forall (fun r => length r = gridCols) g -> (gridCols <= col)%nat ->
  gridCell g row col = false.
Proof.
  intros Hf Hc. unfold gridCell.
  destruct (Nat.lt_ge_cases row (length g)) as [Hr | Hr].
  - rewrite Forall_forall in Hf.
    assert (Hl : length (nth row g []) = gridCols) by (apply Hf, nth_In; exact Hr).
    apply nth_overflow. lia.
  - rewrite (nth_overflow g) by exact Hr. destruct col; reflexivity.
Qed.

Lemma Forall_setNth {A : Type} (Q : A -> Prop) (d v : A) (n : nat) (l : list A) :
  (n < length l)%nat -> Q v -> Forall Q l -> Forall Q (setNth d n v l).
Proof.
  revert l. induction n as [|n IH]; intros [|h t] Hn Hv Hl; cbn in *; try lia;
    inversion Hl; subst; constructor; auto.
  apply IH; auto. lia.
Qed.

Lemma setCell_shape (g : list (list bool)) (row col : nat) (v : bool) :
  (row < length g)%nat -> (col < gridCols)%nat ->
  Forall (fun r => length r = gridCols) g ->
  length (setCell g row col v) = length g /\
  Forall (fun r => length r = gridCols) (setCell g row col v).
Proof.
  intros Hr Hc Hf. split; [apply length_setCell; exact Hr|].
  unfold setCell. apply Forall_setNth; [exact Hr | | exact Hf].
  rewrite Forall_forall in Hf.
  assert (Hl : length (nth row g []) = gridCols) by (apply Hf, nth_In; exact Hr).
  rewrite length_setNth_inside; lia.
Qed.

Lemma emptyGrid_shape (rows : nat) :
  length (emptyGrid rows gridCols) = rows /\
  Forall (fun r => length r = gridCols) (emptyGrid rows gridCols).
Proof.
  unfold emptyGrid. split; [apply repeat_length|].
  apply Forall_forall. intros r Hr. apply repeat_spec in Hr. subst r.
  apply repeat_length.
Qed.

Lemma map_cellOf_setNth (a a' : Alien) (j : nat) (l : list Alien) :
  nth_error l j = Some a -> cellOf a' = cellOf a ->
  map cellOf (setNth a' j a' l) = map cellOf l.
Proof.
  revert l. induction j as [|j IH]; intros [|h t] Hn Hc; cbn in *; try discriminate.
  - injection Hn as ->. rewrite Hc. reflexivity.
  - rewrite (IH t Hn Hc). reflexivity.
Qed.

Lemma Forall_setNth_inside {A : Type} (Q : A -> Prop) (a v : A) (n : nat) (l : list A) :
  nth_error l n = Some a -> Q v -> Forall Q l -> Forall Q (setNth v n v l).
Proof.
  intros Hn Hv Hl. apply Forall_setNth; auto.
  apply nth_error_Some. congruence.
Qed.

(** ** The aliens of [respawnAliens] *)

Lemma respawnAliens_cells st :
  map cellOf (aliens (respawnAliens st)) = occupiedCells (grid st) (gridRows st).
Proof.
  unfold respawnAliens, occupiedCells.
  change (aliens (set_aliens ?l st)) with l.
  rewrite map_flat_map. apply flat_map_ext_in. intros row _.
  rewrite map_flat_map. apply flat_map_ext_in. intros col _.
  destruct (gridCell (grid st) row col); reflexivity.
Qed.

Lemma In_occupiedCells g rows row col :
  In (row, col) (occupiedCells g rows) <->
  (row < rows)%nat /\ (col < gridCols)%nat /\ gridCell g row col = true.
Proof.
  unfold occupiedCells, upto. rewrite in_flat_map. split.
  - intros (r & Hr & H). apply in_flat_map in H. destruct H as (c & Hc & H).
    apply in_seq in Hr. apply in_seq in Hc.
    destruct (gridCell g r c) eqn:E; [|contradiction].
    destruct H as [H|[]]. injection H as <- <-. repeat split; auto; lia.
  - intros (Hr & Hc & H). exists row. split; [apply in_seq; lia|].
    apply in_flat_map. exists col. split; [apply in_seq; lia|].
    rewrite H. left. reflexivity.
Qed.

Lemma NoDup_occupiedCells g rows : NoDup (occupiedCells g rows).
Proof.
  unfold occupiedCells. apply NoDup_flat_map.
  - apply seq_NoDup.
  - intros row _. apply NoDup_flat_map.
    + apply seq_NoDup.
    + intros col _. destruct (gridCell g row col); repeat constructor. intros [].
    + intros c c' b _ _ Hb Hb'.
      destruct (gridCell g row c); [|contradiction].
      destruct (gridCell g row c'); [|contradiction].
      destruct Hb as [<-|[]]. destruct Hb' as [Hb'|[]]. congruence.
  - intros r r' b _ _ Hb Hb'.
    apply in_flat_map in Hb. destruct Hb as (c & _ & Hb).
    apply in_flat_map in Hb'. destruct Hb' as (c' & _ & Hb').
    destruct (gridCell g r c); [|contradiction].
    destruct (gridCell g r' c'); [|contradiction].
    destruct Hb as [<-|[]]. destruct Hb' as [Hb'|[]]. congruence.
Qed.

Lemma respawnAliens_inItsCell st : Forall inItsCell (aliens (respawnAliens st)).
Proof.
  apply Forall_forall. intros a Ha. unfold respawnAliens in Ha.
  change (aliens (set_aliens ?l st)) with l in Ha.
  apply in_flat_map in Ha. destruct Ha as (row & _ & Ha).
  apply in_flat_map in Ha. destruct Ha as (col & _ & Ha).
  destruct (gridCell (grid st) row col); [|contradiction].
  destruct Ha as [<-|[]]. split; reflexivity.
Qed.

Lemma respawnAliens_onGrid st : gridShape st -> aliensOnGrid (respawnAliens st).
Proof.
  intros (Hlen & Hrows & _). unfold aliensOnGrid.
  rewrite respawnAliens_cells.
  split; [apply NoDup_occupiedCells|].
  split; [|apply respawnAliens_inItsCell].
  intros row col. change (grid (respawnAliens st)) with (grid st).
  rewrite In_occupiedCells. split; [tauto|]. intro H.
  split; [|split; [|exact H]].
  - destruct (Nat.lt_ge_cases row (gridRows st)) as [Hr|Hr]; [exact Hr|].
    rewrite gridCell_outside_rows in H by lia. discriminate.
  - destruct (Nat.lt_ge_cases col gridCols) as [Hc|Hc]; [exact Hc|].
    rewrite (gridCell_outside_cols _ _ _ Hrows Hc) in H. discriminate.
Qed.

(** ** The invariants through a frame *)

Ltac untouched :=
  intros;
  try (unfold moveDefender, respawnAliens; cbv zeta);
  repeat match goal with
         | |- context [if ?c then _ else _] => destruct c
         end;
  assumption.

Lemma update_waveData env st :
  wavePhase st <> complete -> waveData st -> waveData (update env st).
Proof. intro Hc. apply (update_keeps waveData); try exact Hc; untouched. Qed.

Lemma update_gridShape env st :
  wavePhase st <> complete -> gridShape st -> gridShape (update env st).
Proof. intro Hc. apply (update_keeps gridShape); try exact Hc; untouched. Qed.

Lemma moveDefender_onCanvas dir st : onCanvas st -> onCanvas (moveDefender dir st).
Proof.
  intros (Hy & Hw & Hh & H0 & H1). unfold moveDefender. cbv zeta.
  destruct (Qleb 0 _ && Qleb _ _) eqn:E; [|repeat split; assumption].
  apply andb_prop in E. destruct E as [E0 E1].
  apply Qleb_true in E0. apply Qleb_true in E1.
  rewrite Hw in E1.
  repeat split; assumption.
Qed.

Lemma update_onCanvas env st :
  wavePhase st <> complete -> onCanvas st -> onCanvas (update env st).
Proof.
  intro Hc. apply (update_keeps onCanvas); try exact Hc;
    try apply moveDefender_onCanvas; untouched.
Qed.

Lemma update_aliensOnGrid env st :
  wavePhase st <> complete ->
  gridShape st /\ aliensOnGrid st ->
  gridShape (update env st) /\ aliensOnGrid (update env st).
Proof.
  intro Hc.
  apply (update_keeps (fun s => gridShape s /\ aliensOnGrid s)); try exact Hc;
    try untouched.
  - intros s j a a' Hn Hp [Hs (Hd & Hin & Hf)]. split; [exact Hs|].
    assert (Hc' : cellOf a' = cellOf a).
    { unfold placeOf in Hp. unfold cellOf. congruence. }
    unfold aliensOnGrid.
    change (aliens (set_aliens ?l s)) with l.
    change (grid (set_aliens ?l s)) with (grid s).
    rewrite (map_cellOf_setNth a a' j _ Hn Hc').
    split; [exact Hd|]. split; [exact Hin|].
    apply (Forall_setNth_inside _ a); [exact Hn | | exact Hf].
    rewrite Forall_forall in Hf.
    assert (Ha : inItsCell a) by (apply Hf; eapply nth_error_In; exact Hn).
    unfold inItsCell in *. unfold placeOf in Hp.
    injection Hp as Er Ecol Ex Ey _ _. rewrite Er, Ecol, Ex, Ey. exact Ha.
  - intros s [Hs (Hd & Hin & Hf)]. split; [exact Hs|].
    unfold aliensOnGrid.
    change (aliens (set_aliens ?l s)) with l.
    change (grid (set_aliens ?l s)) with (grid s).
    assert (E : map cellOf (map tickRespawn (aliens s)) = map cellOf (aliens s)).
    { rewrite map_map. apply map_ext. intro a.
      pose proof (tickRespawn_place a) as Hp. unfold placeOf in Hp.
      unfold cellOf. congruence. }
    rewrite E. split; [exact Hd|]. split; [exact Hin|].
    apply Forall_forall. intros a' Ha'. apply in_map_iff in Ha'.
    destruct Ha' as (a & <- & Ha).
    rewrite Forall_forall in Hf. specialize (Hf a Ha).
    pose proof (tickRespawn_place a) as Hp. unfold placeOf in Hp.
    injection Hp as Er Ecol Ex Ey _ _.
    unfold inItsCell in *. rewrite Er, Ecol, Ex, Ey. exact Hf.
  - intros s [Hs _]. split; [exact Hs|]. apply respawnAliens_onGrid. exact Hs.
Qed.

(** ** The invariants through the editing of the pattern *)

Lemma map_cellOf_filter (row col : nat) (l : list Alien) :
  map cellOf (filter (fun a => negb (alienAt row col a)) l)
  = filter (fun rc => negb (cellKey_eqb (row, col) rc)) (map cellOf l).
Proof.
  induction l as [|a l IH]; cbn [filter map]; [reflexivity|].
  assert (E : alienAt row col a = cellKey_eqb (row, col) (cellOf a)).
  { unfold alienAt, cellKey_eqb, cellOf. cbn [fst snd].
    rewrite (Nat.eqb_sym (a_row a)), (Nat.eqb_sym (a_col a)). reflexivity. }
  rewrite E. destruct (cellKey_eqb (row, col) (cellOf a)); cbn [negb map];
    rewrite IH; reflexivity.
Qed.

Lemma cellKey_eqb_true a b : cellKey_eqb a b = true <-> a = b.
Proof.
  destruct a as [r c], b as [r' c']. unfold cellKey_eqb. cbn [fst snd].
  rewrite andb_true_iff, !Nat.eqb_eq. split; [intros [-> ->]; reflexivity|].
  intro H. injection H as -> ->. auto.
Qed.

Lemma gridCell_true_inside st row col :
  gridShape st -> gridCell (grid st) row col = true ->
  (row < gridRows st)%nat /\ (col < gridCols)%nat.
Proof.
  intros (Hlen & Hrows & _) H. split.
  - destruct (Nat.lt_ge_cases row (gridRows st)) as [Hr|Hr]; [exact Hr|].
    rewrite gridCell_outside_rows in H by lia. discriminate.
  - destruct (Nat.lt_ge_cases col gridCols) as [Hc|Hc]; [exact Hc|].
    rewrite (gridCell_outside_cols _ _ _ Hrows Hc) in H. discriminate.
Qed.

(** Removing the alien of a cell and clearing the cell. *)
Lemma aliensOnGrid_remove st row col :
  aliensOnGrid st ->
  aliensOnGrid
    (set_aliens (filter (fun a => negb (alienAt row col a)) (aliens st))
       (set_grid (setCell (grid st) row col false) st)).
Proof.
  intros (Hd & Hin & Hf). unfold aliensOnGrid.
  change (aliens (set_aliens ?l _)) with l.
  change (grid (set_aliens _ (set_grid ?g _))) with g.
  change (aliens (set_grid _ st)) with (aliens st).
  rewrite map_cellOf_filter.
  split; [apply NoDup_filter; exact Hd|].
  split.
  - intros r c. rewrite filter_In, Hin, gridCell_setCell.
    destruct (Nat.eqb row r && Nat.eqb col c) eqn:E.
    + assert (E' : cellKey_eqb (row, col) (r, c) = true) by exact E.
      rewrite E'. cbn. split; [intros [_ H]; discriminate | discriminate].
    + assert (E' : cellKey_eqb (row, col) (r, c) = false) by exact E.
      rewrite E'. cbn. tauto.
  - apply Forall_forall. intros a Ha. apply filter_In in Ha.
    rewrite Forall_forall in Hf. apply Hf. tauto.
Qed.

(** Setting an empty cell and pushing its alien. *)
Lemma aliensOnGrid_place st row col a :
  aliensOnGrid st -> gridCell (grid st) row col = false ->
  cellOf a = (row, col) -> inItsCell a ->
  aliensOnGrid
    (set_aliens (aliens st ++ [a]) (set_grid (setCell (grid st) row col true) st)).
Proof.
  intros (Hd & Hin & Hf) Hcell Ha Hit. unfold aliensOnGrid.
  change (aliens (set_aliens ?l _)) with l.
  change (grid (set_aliens _ (set_grid ?g _))) with g.
  rewrite map_app. cbn [map]. rewrite Ha.
  split.
  - apply NoDup_app; [exact Hd | repeat constructor; intros [] |].
    intros b Hb [<-|[]]. apply Hin in Hb. congruence.
  - split.
    + intros r c. rewrite in_app_iff, Hin, gridCell_setCell. cbn [In].
      destruct (Nat.eqb row r && Nat.eqb col c) eqn:E.
      * apply andb_prop in E. destruct E as [Er Ec].
        apply Nat.eqb_eq in Er. apply Nat.eqb_eq in Ec. subst. tauto.
      * split; [|tauto]. intros [H | [H | []]]; [exact H|].
        injection H as <- <-. rewrite !Nat.eqb_refl in E. discriminate.
    + apply Forall_app. split; [exact Hf | constructor; [exact Hit | constructor]].
Qed.

Lemma placedAlien_cell st row col :
  cellOf (placedAlien st row col) = (row, col) /\ inItsCell (placedAlien st row col).
Proof. split; [reflexivity | split; reflexivity]. Qed.

Lemma gridShape_setCell st row col v :
  gridShape st -> (row < gridRows st)%nat -> (col < gridCols)%nat ->
  gridShape (set_grid (setCell (grid st) row col v) st).
Proof.
  intros (Hlen & Hrows & H34) Hr Hc. unfold gridShape.
  change (grid (set_grid ?g _)) with g.
  change (gridRows (set_grid _ st)) with (gridRows st).
  destruct (setCell_shape (grid st) row col v) as [H1 H2]; [lia | exact Hc | exact Hrows|].
  split; [congruence|]. split; assumption.
Qed.

Lemma toggleGridCell_wellFormed st st' row col :
  (row < gridRows st)%nat -> (col < gridCols)%nat ->
  wellFormed st -> toggleGridCell row col st = Some st' -> wellFormed st'.
Proof.
  intros Hr Hc (Hph & Hw & Hs & Ha & Hd) E.
  pose proof (costOf_pos row) as Hcost.
  destruct Hw as (Hw1 & Hw2 & Hw3 & Hw4 & Hw5).
  unfold toggleGridCell in E.
  destruct (nth_error (grid st) row) as [r|] eqn:Er; [|discriminate].
  assert (Ecell : gridCell (grid st) row col = nth col r false).
  { unfold gridCell. rewrite (nth_error_nth _ _ [] Er). reflexivity. }
  injection E as <-.
  destruct (nth col r false) eqn:Ec.
  - (* a placed cell is removed *)
    cbv zeta.
    pose proof (gridShape_setCell st row col false Hs Hr Hc) as Hs'.
    pose proof (aliensOnGrid_remove st row col Ha) as Ha'.
    match goal with
    | |- context [if ?c then _ else _] => destruct c eqn:El
    end; [apply Z.ltb_lt in El | apply Z.ltb_ge in El]; cbn in El.
    + split; [exact Hph|].
      split; [unfold waveData; cbn; repeat split; auto; lia|].
      split; [exact Hs'|]. split; [exact Ha' | exact Hd].
    + split; [exact Hph|].
      split; [unfold waveData; cbn; repeat split; auto; lia|].
      split; [exact Hs'|]. split; [exact Ha' | exact Hd].
  - destruct (alienBudget st <? costOf row) eqn:El.
    + (* rejected *)
      split; [exact Hph|].
      split; [unfold waveData; cbn; repeat split; auto; lia|].
      split; [exact Hs|]. split; [exact Ha | exact Hd].
    + apply Z.ltb_ge in El. cbv zeta.
      split; [exact Hph|].
      split; [unfold waveData; cbn; repeat split; auto; lia|].
      split; [exact (gridShape_setCell st row col true Hs Hr Hc)|].
      split; [|exact Hd].
      apply (aliensOnGrid_place st row col _ Ha); [congruence | reflexivity | split; reflexivity].
Qed.

Lemma cap_ge_8 w : 1 <= w -> 8 <= Z.min 24 (8 + (w - 1) * 2).
Proof. intro H. lia. Qed.

Lemma aliensOnGrid_empty st rows :
  aliensOnGrid (set_aliens [] (set_grid (emptyGrid rows gridCols) st)).
Proof.
  unfold aliensOnGrid. cbn [aliens set_aliens grid set_grid map].
  split; [constructor|]. split; [|constructor].
  intros row col. rewrite gridCell_emptyGrid. split; [contradiction | discriminate].
Qed.

Lemma clearGrid_wellFormed st : wellFormed st -> wellFormed (clearGrid st).
Proof.
  intros (Hph & (Hw1 & Hw2 & Hw3 & Hw4 & Hw5) & (Hlen & Hrows & H34) & Ha & Hd).
  pose proof (cap_ge_8 _ Hw1) as Hcap.
  unfold clearGrid. cbv zeta.
  split; [exact Hph|].
  split; [unfold waveData; cbn; repeat split; auto; lia|].
  split.
  { unfold gridShape. cbn [grid gridRows set_alienBudget set_aliens set_grid].
    destruct (emptyGrid_shape (gridRows st)) as [H1 H2]. repeat split; assumption. }
  split; [|exact Hd].
  exact (aliensOnGrid_empty st (gridRows st)).
Qed.

(** A loop that visits every element of its list once: what holds of the
    state and of the elements visited so far. *)
Lemma fold_left_visit {A : Type} (J : Game -> list A -> Prop) (f : Game -> A -> Game)
  (l : list A) (st : Game) (done : list A) :
  (forall s d x, J s d -> ~ In x d -> In x l -> J (f s x) (x :: d)) ->
  NoDup l -> (forall x, In x l -> ~ In x done) -> J st done ->
  J (fold_left f l st) (rev l ++ done).
Proof.
  intro Hstep. revert st done.
  induction l as [|x l IH]; intros st done Hnd Hfresh HJ; cbn [fold_left rev app].
  - exact HJ.
  - rewrite <- app_assoc. cbn [app].
    inversion Hnd as [|? ? Hx Hl]; subst.
    apply IH.
    + intros s d y Hs Hy Hin. apply Hstep; auto. right. exact Hin.
    + exact Hl.
    + intros y Hy [<- | Hd]; [contradiction|].
      apply (Hfresh y); [right; exact Hy | exact Hd].
    + apply Hstep; [exact HJ | apply Hfresh; left; reflexivity | left; reflexivity].
Qed.

Lemma filling_place st0 (visited : nat -> nat -> Prop) s row col a budget :
  filling st0 visited s -> ~ visited row col ->
  (row < gridRows s)%nat -> (col < gridCols)%nat ->
  cellOf a = (row, col) -> inItsCell a ->
  0 <= budget <= alienBudgetMax s ->
  filling st0 (fun r c => (r, c) = (row, col) \/ visited r c)
    (set_alienBudget budget
       (set_aliens (aliens s ++ [a]) (set_grid (setCell (grid s) row col true) s))).
Proof.
  intros ((Hph & Hw & Hs & Ha & Hd) & Hrows & Hvis) Hnew Hr Hc Hcell Hit Hb.
  assert (Hfree : gridCell (grid s) row col = false).
  { destruct (gridCell (grid s) row col) eqn:E; [|reflexivity].
    exfalso. apply Hnew, Hvis, E. }
  split; [|split; [exact Hrows|]].
  - split; [exact Hph|].
    split.
    { destruct Hw as (Hw1 & Hw2 & Hw3 & Hw4 & Hw5).
      unfold waveData. cbn. repeat split; auto; lia. }
    split; [exact (gridShape_setCell s row col true Hs Hr Hc)|].
    split; [|exact Hd].
    exact (aliensOnGrid_place s row col a Ha Hfree Hcell Hit).
  - intros r c. cbn [grid set_alienBudget set_aliens set_grid].
    rewrite gridCell_setCell.
    destruct (Nat.eqb row r && Nat.eqb col c) eqn:E.
    + apply andb_prop in E. destruct E as [Er Ec].
      apply Nat.eqb_eq in Er. apply Nat.eqb_eq in Ec. subst. auto.
    + intro H. right. apply Hvis. exact H.
Qed.

Lemma filling_weaken st0 (v v' : nat -> nat -> Prop) s :
  (forall r c, v r c -> v' r c) -> filling st0 v s -> filling st0 v' s.
Proof.
  intros H (Hw & Hr & Hv). split; [exact Hw|]. split; [exact Hr|].
  intros r c Hc. apply H, Hv, Hc.
Qed.

Lemma loadPresetCell_filling st0 pattern visited s row col :
  filling st0 visited s -> ~ visited row col ->
  (row < gridRows s)%nat -> (col < gridCols)%nat ->
  filling st0 (fun r c => (r, c) = (row, col) \/ visited r c)
    (loadPresetCell pattern col row s).
Proof.
  intros Hf Hnew Hr Hc. unfold loadPresetCell.
  destruct (patternCell pattern row col);
    [|apply (filling_weaken st0 visited); [auto | exact Hf]].
  destruct (costOf row <=? alienBudget s) eqn:E;
    [|apply (filling_weaken st0 visited); [auto | exact Hf]].
  apply Z.leb_le in E. cbv zeta.
  pose proof (costOf_pos row) as Hcost.
  destruct Hf as [Hw Hrest].
  assert (Hb : 0 <= alienBudget s <= alienBudgetMax s).
  { destruct Hw as (_ & (_ & _ & H & _) & _). exact H. }
  apply (filling_place st0 visited s row col _ _ (conj Hw Hrest) Hnew Hr Hc).
  - reflexivity.
  - split; reflexivity.
  - cbn. lia.
Qed.

Lemma loadPreset_wellFormed pattern st : wellFormed st -> wellFormed (loadPreset pattern st).
Proof.
  intro H. apply clearGrid_wellFormed in H.
  unfold loadPreset. cbv zeta.
  set (s0 := clearGrid st) in *.
  assert (H0 : filling s0 (fun r c => In c (@nil nat)) s0).
  { split; [exact H|]. split; [reflexivity|].
    intros r c. unfold s0, clearGrid. cbn [grid set_alienBudget set_aliens set_grid].
    rewrite gridCell_emptyGrid. discriminate. }
  clearbody s0.
  pose proof (fold_left_visit
                (fun s dcols => filling s0 (fun r c => In c dcols) s)
                (fun st col =>
                   fold_left (fun st row => loadPresetCell pattern col row st)
                             (upto (gridRows st)) st)
                (upto gridCols) s0 []) as Hfold.
  cbv beta in Hfold.
  destruct Hfold as [Hw _]; [ | apply seq_NoDup | intros x _ [] | exact H0 | exact Hw].
  intros s dcols col Hs Hcol Hin.
  pose proof (fold_left_visit
                (fun s' drows =>
                   filling s0 (fun r c => (c = col /\ In r drows) \/ In c dcols) s')
                (fun st row => loadPresetCell pattern col row st)
                (upto (gridRows s)) s []) as Hinner.
  cbv beta in Hinner.
  apply (filling_weaken s0 (fun r c => (c = col /\ In r (rev (upto (gridRows s)) ++ []))
                                       \/ In c dcols)).
  { intros r c [[-> _] | Hc]; [left; reflexivity | right; exact Hc]. }
  apply Hinner.
  - intros s' drows row Hs' Hrow Hrin.
    assert (Hrows' : gridRows s' = gridRows s).
    { destruct Hs' as (_ & E1 & _). destruct Hs as (_ & E2 & _). congruence. }
    apply (filling_weaken s0 (fun r c => (r, c) = (row, col)
                                         \/ ((c = col /\ In r drows) \/ In c dcols))).
    { intros r c [E | [[-> Hr] | Hc]].
      - injection E as -> ->. left. split; [reflexivity | left; reflexivity].
      - left. split; [reflexivity | right; exact Hr].
      - right. exact Hc. }
    apply loadPresetCell_filling.
    + exact Hs'.
    + intros [[_ Hr] | Hc]; contradiction.
    + rewrite Hrows'. apply in_seq in Hrin. lia.
    + apply in_seq in Hin. lia.
  - apply seq_NoDup.
  - intros x _ [].
  - apply (filling_weaken s0 (fun r c => In c dcols)); [auto | exact Hs].
Qed.

Lemma urlCell_filling st0 rows visited s row col :
  filling st0 visited s -> ~ visited row col ->
  (row < gridRows s)%nat -> (col < gridCols)%nat ->
  filling st0 (fun r c => (r, c) = (row, col) \/ visited r c)
    (urlCell rows row col s).
Proof.
  intros Hf Hnew Hr Hc. unfold urlCell.
  destruct (Z.testbit _ _);
    [|apply (filling_weaken st0 visited); [auto | exact Hf]].
  cbv zeta.
  assert (Hb : 0 <= alienBudget s <= alienBudgetMax s).
  { destruct Hf as ((_ & (_ & _ & H & _) & _) & _). exact H. }
  exact (filling_place st0 visited s row col (urlAlien row col) (alienBudget s)
           Hf Hnew Hr Hc eq_refl (conj eq_refl eq_refl) Hb).
Qed.

Lemma loadUrlPattern_wellFormed pattern st :
  wellFormed st -> wellFormed (loadUrlPattern pattern st).
Proof.
  intro H. unfold loadUrlPattern.
  destruct pattern as [rows|]; [|exact H].
  destruct (3 <=? length rows)%nat eqn:E3; [|exact H].
  apply Nat.leb_le in E3.
  apply clearGrid_wellFormed in H. cbv zeta.
  set (s0 := clearGrid st) in *.
  assert (H0 : filling s0 (fun r c => In r (@nil nat)) s0).
  { split; [exact H|]. split; [reflexivity|].
    intros r c. unfold s0, clearGrid. cbn [grid set_alienBudget set_aliens set_grid].
    rewrite gridCell_emptyGrid. discriminate. }
  assert (Hrows3 : (3 <= gridRows s0)%nat).
  { destruct H as (_ & _ & (_ & _ & [E|E]) & _); rewrite E; lia. }
  clearbody s0.
  pose proof (fold_left_visit
                (fun s drows => filling s0 (fun r c => In r drows) s)
                (fun st row =>
                   fold_left (fun st col => urlCell rows row col st) (upto 16) st)
                (upto (Nat.min (length rows) 3)) s0 []) as Hfold.
  cbv beta in Hfold.
  destruct Hfold as [Hw _]; [ | apply seq_NoDup | intros x _ [] | exact H0 | exact Hw].
  intros s drows row Hs Hrow Hin.
  pose proof (fold_left_visit
                (fun s' dcols =>
                   filling s0 (fun r c => (r = row /\ In c dcols) \/ In r drows) s')
                (fun st col => urlCell rows row col st)
                (upto 16) s []) as Hinner.
  cbv beta in Hinner.
  apply (filling_weaken s0 (fun r c => (r = row /\ In c (rev (upto 16) ++ []))
                                       \/ In r drows)).
  { intros r c [[-> _] | Hc]; [left; reflexivity | right; exact Hc]. }
  apply Hinner.
  - intros s' dcols col Hs' Hcol Hcin.
    assert (Hrows' : gridRows s' = gridRows s0) by (destruct Hs' as (_ & E1 & _); exact E1).
    apply (filling_weaken s0 (fun r c => (r, c) = (row, col)
                                         \/ ((r = row /\ In c dcols) \/ In r drows))).
    { intros r c [E | [[-> Hc] | Hr]].
      - injection E as -> ->. left. split; [reflexivity | left; reflexivity].
      - left. split; [reflexivity | right; exact Hc].
      - right. exact Hr. }
    apply urlCell_filling.
    + exact Hs'.
    + intros [[_ Hc] | Hr]; contradiction.
    + rewrite Hrows'. apply in_seq in Hin. lia.
    + apply in_seq in Hcin. unfold gridCols. lia.
  - apply seq_NoDup.
  - intros x _ [].
  - apply (filling_weaken s0 (fun r c => In r drows)); [auto | exact Hs].
Qed.

(** The three assignments of a new tempo. *)
Lemma tempo_wellFormed st b i v :
  wellFormed st ->
  wellFormed
    (set_defender (set_d_speed v (defender (set_stepInterval i (set_bpm b st))))
       (set_stepInterval i (set_bpm b st))).
Proof. intro H. exact H. Qed.

Lemma loadUrlBpm_wellFormed urlBpm st :
  wellFormed st -> wellFormed (loadUrlBpm urlBpm st).
Proof.
  intro H. unfold loadUrlBpm.
  destruct urlBpm as [newBpm|]; [|exact H].
  destruct (_ && _); exact H.
Qed.

Lemma loadPatternFromURL_wellFormed pattern urlBpm st :
  wellFormed st -> wellFormed (loadPatternFromURL pattern urlBpm st).
Proof.
  intro H. unfold loadPatternFromURL.
  apply loadUrlBpm_wellFormed, loadUrlPattern_wellFormed. exact H.
Qed.

Lemma onBpmInput_wellFormed newBpm st : wellFormed st -> wellFormed (onBpmInput newBpm st).
Proof. intro H. exact H. Qed.

(** ** The invariants through a restart and a card *)

(** Everything but the aliens, which [respawnAliens] rebuilds. *)
Lemma respawnAliens_wellFormed st :
  wavePhase st <> complete -> waveData st -> gridShape st -> onCanvas st ->
  wellFormed (respawnAliens st).
Proof.
  intros Hph Hw Hs Hd.
  split; [exact Hph|]. split; [exact Hw|]. split; [exact Hs|].
  split; [apply respawnAliens_onGrid; exact Hs | exact Hd].
Qed.

Lemma updateAIForWave_waveData st : waveData st -> waveData (updateAIForWave st).
Proof. intro H. unfold updateAIForWave. cbv zeta. split_ifs; exact H. Qed.

Lemma updateAIForWave_gridShape st : gridShape st -> gridShape (updateAIForWave st).
Proof. intro H. unfold updateAIForWave. cbv zeta. split_ifs; exact H. Qed.

Lemma updateAIForWave_onCanvas st : onCanvas st -> onCanvas (updateAIForWave st).
Proof. intro H. unfold updateAIForWave. cbv zeta. split_ifs; exact H. Qed.

Lemma restartGame_wellFormed st : wellFormed st -> wellFormed (restartGame st).
Proof.
  intros (Hph & Hw & Hs & Ha & (Hy & Hwd & Hh & H0 & H1)).
  unfold restartGame. cbv zeta.
  apply respawnAliens_wellFormed.
  - rewrite updateAIForWave_wavePhase. discriminate.
  - apply updateAIForWave_waveData.
    destruct Hw as (Hw1 & Hw2 & Hw3 & Hw4 & Hw5).
    unfold waveData. cbn. repeat split; auto; lia.
  - apply updateAIForWave_gridShape. exact Hs.
  - apply updateAIForWave_onCanvas.
    unfold onCanvas. cbn [defender set_defender set_activePowerUps set_powerUps
      set_alienProjectiles set_bullets d_x d_y d_width d_height set_d_x].
    repeat split; auto; unfold canvasWidth; [discriminate | discriminate].
Qed.

Lemma applyUpgrade_cardProof rnd card st :
  cardProof st -> cardProof (applyUpgrade rnd card st).
Proof.
  intro H. destruct card; cbn [applyUpgrade]; try exact H.
  - destruct (Nat.eqb _ 3); exact H.
  - apply fold_left_invariant; [|exact H]. intros s row Hs.
    apply fold_left_invariant; [|exact Hs]. intros s' col Hs'.
    unfold scrambleCell. destruct (_ && _); exact Hs'.
  - apply fold_left_invariant; [|exact H]. intros s row Hs.
    apply fold_left_invariant; [|exact Hs]. intros s' col Hs'.
    unfold mirrorCell. cbv zeta. destruct (_ && _); [exact Hs'|].
    destruct (_ && _); exact Hs'.
Qed.

Lemma shapedLike_setCell st0 s row col a :
  shapedLike st0 s -> (row < gridRows st0)%nat -> (col < gridCols)%nat ->
  shapedLike st0
    (set_aliens (aliens s ++ [a]) (set_grid (setCell (grid s) row col true) s)).
Proof.
  intros [Hs Hr] Hrow Hcol. split; [|exact Hr].
  apply (gridShape_setCell s row col true Hs); [lia | exact Hcol].
Qed.

Lemma fold_left_members {A : Type} (P : Game -> Prop) (f : Game -> A -> Game)
  (l : list A) (st : Game) :
  (forall s a, In a l -> P s -> P (f s a)) -> P st -> P (fold_left f l st).
Proof.
  revert st. induction l as [|a l IH]; intros st H Hst; cbn [fold_left]; [exact Hst|].
  apply IH.
  - intros s b Hb. apply H. right. exact Hb.
  - apply H; [left; reflexivity | exact Hst].
Qed.

Lemma applyUpgrade_gridShape rnd card st :
  gridShape st -> gridShape (applyUpgrade rnd card st).
Proof.
  intro H. destruct card; cbn [applyUpgrade]; try exact H.
  - (* the fourth row *)
    destruct (Nat.eqb (gridRows st) 3) eqn:E; [|exact H].
    apply Nat.eqb_eq in E. destruct H as (Hlen & Hrows & _).
    cbv zeta. unfold gridShape.
    cbn [grid gridRows set_grid set_gridRows].
    split; [rewrite length_app; cbn; lia|].
    split; [|right; reflexivity].
    apply Forall_app. split; [exact Hrows|].
    constructor; [apply repeat_length | constructor].
  - (* scramble *)
    assert (Hs : shapedLike st st) by (split; [exact H | reflexivity]).
    apply (fold_left_members (shapedLike st)); [|exact Hs].
    intros s row Hrow Hs'.
    apply (fold_left_members (shapedLike st)); [|exact Hs'].
    intros s' col Hcol Hs''. unfold scrambleCell.
    destruct (_ && _); [|exact Hs'']. cbv zeta.
    apply in_seq in Hrow. apply in_seq in Hcol.
    assert (H1 : (row < gridRows st)%nat) by lia.
    assert (H2 : (col < gridCols)%nat) by lia.
    exact (shapedLike_setCell st s' row col _ Hs'' H1 H2).
  - (* mirror *)
    assert (Hs : shapedLike st st) by (split; [exact H | reflexivity]).
    apply (fold_left_members (shapedLike st)); [|exact Hs].
    intros s row Hrow Hs'.
    apply (fold_left_members (shapedLike st)); [|exact Hs'].
    intros s' col Hcol Hs''. unfold mirrorCell. cbv zeta.
    apply in_seq in Hrow. apply in_seq in Hcol.
    change (gridCols / 2)%nat with 8%nat in Hcol.
    assert (H1 : (row < gridRows st)%nat) by lia.
    assert (H2 : (col < gridCols)%nat) by (unfold gridCols; lia).
    assert (H3 : (gridCols - 1 - col < gridCols)%nat) by (unfold gridCols; lia).
    destruct (_ && _).
    + exact (shapedLike_setCell st s' row _ _ Hs'' H1 H3).
    + destruct (_ && _); [|exact Hs''].
      exact (shapedLike_setCell st s' row col _ Hs'' H1 H2).
Qed.

Lemma markUpgrade_same (P : Game -> Prop) c st :
  (forall v s, P s -> P (set_upgrades v s)) -> P st -> P (markUpgrade c st).
Proof.
  intros HP H. unfold markUpgrade. destruct (hasUpgrade c st); [exact H | apply HP, H].
Qed.

Lemma selectCard_wellFormed rnd index st :
  wellFormed st -> wellFormed (selectCard rnd index st).
Proof.
  intros H. unfold selectCard.
  destruct (_ || _); [exact H|].
  destruct (nth_error _ _) as [card|]; [|exact H].
  cbv zeta.
  destruct H as (Hph & Hw & Hs & _ & Hd).
  pose proof (applyUpgrade_cardProof rnd card st (conj Hph (conj Hw Hd))) as Hc.
  pose proof (applyUpgrade_gridShape rnd card st Hs) as Hg.
  set (s1 := applyUpgrade rnd card st) in *. clearbody s1.
  assert (Hc2 : cardProof (markUpgrade card s1))
    by (apply markUpgrade_same; [intros v s Hx; exact Hx | exact Hc]).
  assert (Hg2 : gridShape (markUpgrade card s1))
    by (apply markUpgrade_same; [intros v s Hx; exact Hx | exact Hg]).
  set (s2 := markUpgrade card s1) in *. clearbody s2.
  destruct Hc2 as (_ & (Hw1 & Hw2 & Hw3 & Hw4 & Hw5) & Hd2).
  apply respawnAliens_wellFormed.
  - cbn. discriminate.
  - unfold waveData.
    cbn [currentWave alienBudget alienBudgetMax isBossWave loopsPerWave
         set_currentCardChoices set_phaseTimer set_wavePhase set_isBossWave].
    rewrite updateAIForWave_currentWave, updateAIForWave_alienBudget,
      updateAIForWave_alienBudgetMax.
    assert (El : loopsPerWave (updateAIForWave
                   (set_aiColumnHeatmap (repeat (Some 0) gridCols)
                      (set_aiAdapting false
                         (set_alienBudget
                            (alienBudgetMax
                               (set_alienBudgetMax
                                  (Z.min 24 (8 + (currentWave (set_currentWave (currentWave s2 + 1) s2) - 1) * 2))
                                  (set_currentWave (currentWave s2 + 1) s2)))
                            (set_alienBudgetMax
                               (Z.min 24 (8 + (currentWave (set_currentWave (currentWave s2 + 1) s2) - 1) * 2))
                               (set_currentWave (currentWave s2 + 1) s2)))))) = loopsPerWave s2).
    { unfold updateAIForWave. cbv zeta. split_ifs; reflexivity. }
    rewrite El. sets. repeat split; auto; lia.
  - apply (updateAIForWave_gridShape
             (set_aiColumnHeatmap _ (set_aiAdapting _ (set_alienBudget _
                (set_alienBudgetMax _ (set_currentWave _ s2)))))).
    exact Hg2.
  - apply (updateAIForWave_onCanvas
             (set_aiColumnHeatmap _ (set_aiAdapting _ (set_alienBudget _
                (set_alienBudgetMax _ (set_currentWave _ s2)))))).
    exact Hd2.
Qed.

(** ** The invariants in every state of a game *)

Lemma update_wellFormed env st : wellFormed st -> wellFormed (update env st).
Proof.
  intros (Hph & Hw & Hs & Ha & Hd).
  destruct (update_aliensOnGrid env st Hph (conj Hs Ha)) as [Hs' Ha'].
  split.
  { pose proof (update_wavePhase env st) as Hp. unfold phaseStep in Hp.
    destruct Hp as [E | [E | [_ E]]].
    - congruence.
    - inversion E; congruence.
    - congruence. }
  split; [apply update_waveData; assumption|].
  split; [exact Hs'|]. split; [exact Ha'|].
  apply update_onCanvas; assumption.
Qed.

Lemma handle_wellFormed e st st' :
  wellFormed st -> handle e st = Some st' -> wellFormed st'.
Proof.
  intros H. destruct e; cbn [handle].
  - intro E. injection E as <-. unfold animate.
    destruct (negb _); [apply update_wellFormed|]; exact H.
  - unfold onCanvasClick. destruct (wavePhase st) eqn:Ep.
    + destruct t; try (intro E; injection E as <-; exact H).
      destruct (col <? gridCols)%nat eqn:Ec; [|intro E; injection E as <-; exact H].
      destruct (row <? gridRows st)%nat eqn:Er; [|intro E; injection E as <-; exact H].
      apply Nat.ltb_lt in Ec. apply Nat.ltb_lt in Er.
      cbn [andb]. apply toggleGridCell_wellFormed; assumption.
    + destruct t; try (intro E; injection E as <-; exact H).
      destruct (col <? gridCols)%nat eqn:Ec; [|intro E; injection E as <-; exact H].
      destruct (row <? gridRows st)%nat eqn:Er; [|intro E; injection E as <-; exact H].
      apply Nat.ltb_lt in Ec. apply Nat.ltb_lt in Er.
      cbn [andb]. apply toggleGridCell_wellFormed; assumption.
    + destruct H as (Hph & _). congruence.
    + destruct t; try (intro E; injection E as <-; exact H).
      destruct (cardIndex =? -1); intro E; injection E as <-; [exact H|].
      apply selectCard_wellFormed. exact H.
    + intro E. injection E as <-. apply restartGame_wellFormed. exact H.
  - intro E. injection E as <-. unfold onKeyR.
    destruct (wavePhase st); try exact H. apply restartGame_wellFormed. exact H.
  - intro E. injection E as <-. unfold togglePause.
    destruct (isStarted st); exact H.
  - intro E. injection E as <-. unfold onStart, togglePause.
    destruct (isStarted st); exact H.
  - destruct (_ && _); [|discriminate].
    intro E. injection E as <-. exact H.
  - intro E. injection E as <-. exact H.
  - intro E. injection E as <-. apply loadPreset_wellFormed. exact H.
  - intro E. injection E as <-. apply clearGrid_wellFormed. exact H.
Qed.

Lemma reachable_wellFormed st : reachable st -> wellFormed st.
Proof.
  induction 1 as [|pattern urlBpm|st e st' _ IH E].
  - apply wellFormed_newGame.
  - apply loadPatternFromURL_wellFormed, wellFormed_newGame.
  - exact (handle_wellFormed e st st' IH E).
Qed.

(** ** What holds in every state of a game *)

Lemma playedGame_reachable : reachable playedGame.
Proof.
  apply (reach_step beatGame (ev_frame beatEnv)); [|reflexivity].
  apply (reach_step newGame (ev_click (onCell 0 1))); [apply reach_new | reflexivity].
Qed.

(** X1.  No state of a game is in the phase [complete]: the branch of
    [update] that waits two seconds and then advances the wave never runs,
    and no frame changes the wave number. *)
Theorem complete_phase_is_never_entered (st : Game) :
  reachable st ->
  wavePhase st <> complete /\
  forall env, currentWave (update env st) = currentWave st.
Proof.
  intro H. destruct (reachable_wellFormed st H) as (Hph & _).
  split; [exact Hph|]. intro env.
  apply (update_keeps (fun s => currentWave s = currentWave st)); try exact Hph;
    try reflexivity; untouched.
Qed.

Lemma complete_phase_is_never_entered_witness :
  wavePhase playedGame <> complete /\
  forall env, currentWave (update env playedGame) = currentWave playedGame.
Proof.
  apply (complete_phase_is_never_entered playedGame).
  exact playedGame_reachable.
Defined.

(** X2.  In every state of a game the wave number is at least 1, the
    budget cap is [min(24, 8 + (wave - 1) * 2)], the budget lies between 0
    and the cap, the boss flag says whether the wave is a multiple of 5,
    and a wave has 8 loops. *)
Theorem budget_cap_follows_the_wave (st : Game) :
  reachable st ->
  1 <= currentWave st /\
  alienBudgetMax st = Z.min 24 (8 + (currentWave st - 1) * 2) /\
  0 <= alienBudget st <= alienBudgetMax st /\
  isBossWave st = (currentWave st mod 5 =? 0) /\
  loopsPerWave st = 8.
Proof.
  intro H. destruct (reachable_wellFormed st H) as (_ & Hw & _). exact Hw.
Qed.

Lemma budget_cap_follows_the_wave_witness :
  1 <= currentWave playedGame /\
  alienBudgetMax playedGame = Z.min 24 (8 + (currentWave playedGame - 1) * 2) /\
  0 <= alienBudget playedGame <= alienBudgetMax playedGame /\
  isBossWave playedGame = (currentWave playedGame mod 5 =? 0) /\
  loopsPerWave playedGame = 8.
Proof.
  apply (budget_cap_follows_the_wave playedGame).
  exact playedGame_reachable.
Defined.

(** X3.  In every state of a game the grid has [gridRows] rows, three or
    four, of 16 cells each; so [toggleGridCell] on a cell of the grid,
    which is what a click calls it on, reads an existing row and returns. *)
Theorem grid_keeps_its_shape (st : Game) :
  reachable st ->
  length (grid st) = gridRows st /\
  Forall (fun r => length r = gridCols) (grid st) /\
  (gridRows st = 3 \/ gridRows st = 4)%nat /\
  forall row col, (row < gridRows st)%nat ->
                  exists st', toggleGridCell row col st = Some st'.
Proof.
  intro H. destruct (reachable_wellFormed st H) as (_ & _ & (Hlen & Hrows & H34) & _).
  repeat split; auto.
  intros row col Hr. unfold toggleGridCell.
  destruct (nth_error (grid st) row) eqn:E; [eexists; reflexivity|].
  apply nth_error_None in E. lia.
Qed.

Lemma grid_keeps_its_shape_witness :
  length (grid playedGame) = gridRows playedGame /\
  Forall (fun r => length r = gridCols) (grid playedGame) /\
  (gridRows playedGame = 3 \/ gridRows playedGame = 4)%nat /\
  forall row col, (row < gridRows playedGame)%nat ->
                  exists st', toggleGridCell row col playedGame = Some st'.
Proof.
  apply (grid_keeps_its_shape playedGame).
  exact playedGame_reachable.
Defined.

(** X4.  In every state of a game the aliens are the occupied cells of
    the grid: no two aliens share a cell, a cell holds an alien, alive or
    not, exactly when it is set in the grid, and every alien stands in the
    middle of its cell. *)
Theorem aliens_are_the_occupied_cells (st : Game) :
  reachable st ->
  NoDup (map cellOf (aliens st)) /\
  (forall row col,
     (exists a, In a (aliens st) /\ a_row a = row /\ a_col a = col)
     <-> gridCell (grid st) row col = true) /\
  (forall a, In a (aliens st) ->
             a_x a = cellX (a_col a) /\ a_y a = cellY (a_row a)).
Proof.
  intro H. destruct (reachable_wellFormed st H) as (_ & _ & _ & (Hd & Hin & Hf) & _).
  split; [exact Hd|]. split.
  - intros row col. rewrite <- Hin, in_map_iff. split.
    + intros (a & Ha & <- & <-). exists a. split; [reflexivity | exact Ha].
    + intros (a & Hc & Ha). exists a. unfold cellOf in Hc.
      injection Hc as <- <-. auto.
  - rewrite Forall_forall in Hf. exact Hf.
Qed.

Lemma aliens_are_the_occupied_cells_witness :
  NoDup (map cellOf (aliens playedGame)) /\
  (forall row col,
     (exists a, In a (aliens playedGame) /\ a_row a = row /\ a_col a = col)
     <-> gridCell (grid playedGame) row col = true) /\
  (forall a, In a (aliens playedGame) ->
             a_x a = cellX (a_col a) /\ a_y a = cellY (a_row a)).
Proof.
  apply (aliens_are_the_occupied_cells playedGame).
  exact playedGame_reachable.
Defined.

(** X5.  In every state of a game the defender is 40 wide and 30 high,
    50 pixels above the bottom of the canvas, and wholly on the canvas:
    [0 <= x <= canvas.width - width]. *)
Theorem defender_stays_on_the_canvas (st : Game) :
  reachable st ->
  d_width (defender st) = 40%Q /\
  d_height (defender st) = 30%Q /\
  d_y (defender st) = (canvasHeight - 50)%Q /\
  (0 <= d_x (defender st))%Q /\
  (d_x (defender st) + d_width (defender st) <= canvasWidth)%Q.
Proof.
  intro H. destruct (reachable_wellFormed st H) as (_ & _ & _ & _ & Hd).
  destruct Hd as (Hy & Hw & Hh & H0 & H1).
  repeat split; auto. rewrite Hw. lra.
Qed.

Lemma defender_stays_on_the_canvas_witness :
  d_width (defender playedGame) = 40%Q /\
  d_height (defender playedGame) = 30%Q /\
  d_y (defender playedGame) = (canvasHeight - 50)%Q /\
  (0 <= d_x (defender playedGame))%Q /\
  (d_x (defender playedGame) + d_width (defender playedGame) <= canvasWidth)%Q.
Proof.
  apply (defender_stays_on_the_canvas playedGame).
  exact playedGame_reachable.
Defined.

(** X6.  A frame leaves the setting of the wave alone: in every state of a
    game, [update] changes neither the wave number and its loops, nor the
    budget and its cap, nor the boss flag, the cards taken, the grid and
    its rows, the tempo, the shot delay or the shots per turn of the AI. *)
Theorem frame_keeps_the_setting (env : Env) (st : Game) :
  reachable st -> fixedOf (update env st) = fixedOf st.
Proof.
  intro H. destruct (reachable_wellFormed st H) as (Hph & _).
  apply (update_keeps (fun s => fixedOf s = fixedOf st)); try exact Hph;
    try reflexivity; untouched.
Qed.

Lemma frame_keeps_the_setting_witness :
  fixedOf (update beatEnv playedGame) = fixedOf playedGame.
Proof.
  apply (frame_keeps_the_setting beatEnv playedGame).
  exact playedGame_reachable.
Defined.

(** ** The end of a wave by the loops *)

Lemma buildHeatmap_view {V : Type} (p : Game -> V) st :
  (forall v s, p (set_aiColumnHeatmap v s) = p s) -> p (buildHeatmap st) = p st.
Proof.
  intro H. unfold buildHeatmap. apply fold_left_keeps.
  intros s a. destruct (alive a); [apply H | reflexivity].
Qed.

Lemma markEvolved_view {V : Type} (p : Game -> V) st :
  (forall v s, p (set_evolvedCells v s) = p s) -> p (markEvolved st) = p st.
Proof.
  intro H. unfold markEvolved. apply fold_left_keeps.
  intros s a. destruct (alive a); [apply H | reflexivity].
Qed.

(** The loop check ends the game only after the last loop, with the
    defender alive. *)
Lemma loopCompleted_gameover st :
  wavePhase st <> gameover -> wavePhase (loopCompleted st) = gameover ->
  loopsPerWave st < currentLoop st + 1 /\
  0 < defenderHP (loopCompleted st) /\
  currentLoop (loopCompleted st) = currentLoop st + 1 /\
  currentStep (loopCompleted st) = currentStep st.
Proof.
  intro Hph. unfold loopCompleted. cbv zeta.
  set (s0 := set_currentLoop (currentLoop st + 1) st).
  set (s1 := if (currentLoop s0 =? 4) && negb (aiAdapting s0)
             then buildHeatmap (set_aiAdapting true s0) else s0).
  assert (H1 : (wavePhase s1, currentLoop s1, loopsPerWave s1, currentStep s1)
               = (wavePhase st, currentLoop st + 1, loopsPerWave st, currentStep st)).
  { unfold s1. destruct (_ && _); [|reflexivity].
    rewrite (buildHeatmap_view
               (fun s => (wavePhase s, currentLoop s, loopsPerWave s, currentStep s)))
      by reflexivity.
    reflexivity. }
  clearbody s1. clear s0.
  set (s2 := if currentLoop s1 =? 6
             then set_aiAccuracy (Qmin (95 # 100) (aiAccuracy s1 + (1 # 10))) s1 else s1).
  assert (H2 : (wavePhase s2, currentLoop s2, loopsPerWave s2, currentStep s2)
               = (wavePhase st, currentLoop st + 1, loopsPerWave st, currentStep st)).
  { unfold s2. destruct (_ =? _); exact H1. }
  clearbody s2. clear H1 s1.
  injection H2 as Ep El Elp Es.
  pose proof (markEvolved_view
                (fun s => (wavePhase s, currentLoop s, loopsPerWave s, currentStep s,
                           defenderHP s)) s2 (fun _ _ => eq_refl)) as Hm.
  cbv beta in Hm. injection Hm as Emp Eml Emlp Ems Emh.
  destruct (loopsPerWave s2 <? currentLoop s2) eqn:E.
  - apply Z.ltb_lt in E.
    destruct (0 <? defenderHP (markEvolved s2)) eqn:Eh.
    + intros _. apply Z.ltb_lt in Eh. unfold gameLost.
      cbn [defenderHP currentLoop currentStep set_gameOver set_wavePhase].
      rewrite Eml, Ems. repeat split; try congruence; lia.
    + intro H. congruence.
  - intro H. change (wavePhase s2 = gameover) in H. congruence.
Qed.

(** X7.  A frame of the playing phase ends the game only when the step
    that is due wraps the pattern around after the last loop, and then the
    defender is alive: no game is lost in the middle of a loop, nor with
    loops left. *)
Theorem game_is_lost_only_after_the_last_loop (env : Env) (st : Game) :
  wavePhase st = playing ->
  wavePhase (update env st) = gameover ->
  Qleb (stepInterval st) (perfNow env - lastStepTime st) = true /\
  currentStep (update env st) = 0%nat /\
  currentLoop (update env st) = currentLoop st + 1 /\
  loopsPerWave st < currentLoop (update env st) /\
  0 < defenderHP (update env st).
Proof.
  intros Hp Hover.
  assert (Hrun : isPaused st = false /\ freezeFrames st <= 0).
  { unfold update in Hover.
    destruct (isPaused st); [congruence|].
    destruct (0 <? freezeFrames st) eqn:E; [cbn in Hover; congruence|].
    apply Z.ltb_ge in E. auto. }
  destruct Hrun as [Hq Hf].
  rewrite (update_playing env st Hp Hq Hf) in *.
  destruct (sameBeat_eq _ _ (beforeStep_sameBeat env st))
    as (_ & Hbi & _ & Hbs & Hbt & _ & _).
  assert (Hbp : wavePhase (beforeStep env st) <> gameover).
  { apply (beforeStep_keeps (fun s => wavePhase s <> gameover));
      try (intros; discriminate); try untouched. congruence. }
  assert (Hbl : (currentLoop (beforeStep env st), loopsPerWave (beforeStep env st))
                = (currentLoop st, loopsPerWave st)).
  { apply (beforeStep_keeps
             (fun s => (currentLoop s, loopsPerWave s) = (currentLoop st, loopsPerWave st)));
      try reflexivity; untouched. }
  injection Hbl as Hbl Hblp.
  set (b := beforeStep env st) in *. clearbody b.
  assert (Hq' : forall s,
            (wavePhase (quickRespawnTick s), currentStep (quickRespawnTick s),
             currentLoop (quickRespawnTick s), defenderHP (quickRespawnTick s))
            = (wavePhase s, currentStep s, currentLoop s, defenderHP s)).
  { intro s. unfold quickRespawnTick. destruct (hasUpgrade quickRespawn s); reflexivity. }
  pose proof (Hq' (sequencer env b)) as Eq. injection Eq as Eq1 Eq2 Eq3 Eq4.
  rewrite Eq1 in Hover. rewrite Eq2, Eq3, Eq4. clear Eq1 Eq2 Eq3 Eq4 Hq'.
  unfold sequencer in *. rewrite Hbi, Hbt in *.
  destruct (Qleb (stepInterval st) (perfNow env - lastStepTime st)); [|congruence].
  split; [reflexivity|].
  unfold fireRows in *. rewrite fold_fireRow in *.
  cbn [wavePhase currentStep currentLoop defenderHP set_alienProjectiles set_soundLog] in *.
  unfold advanceStep in *. cbv zeta in *.
  set (s := set_currentStep ((currentStep (set_lastStepTime (perfNow env) b) + 1) mod gridCols)%nat
              (set_lastStepTime (perfNow env) b)) in *.
  assert (Hs : wavePhase s <> gameover) by exact Hbp.
  assert (Hsl : currentLoop s = currentLoop st) by exact Hbl.
  assert (Hslp : loopsPerWave s = loopsPerWave st) by exact Hblp.
  clearbody s.
  destruct (Nat.eqb (currentStep s) 0) eqn:E0; [|congruence].
  apply Nat.eqb_eq in E0.
  destruct (loopCompleted_gameover s Hs Hover) as (H1 & H2 & H3 & H4).
  rewrite H4, H3. repeat split; auto; lia.
Qed.

(** ** Pause *)




Lemma game_is_lost_only_after_the_last_loop_witness :
  Qleb (stepInterval lastLoopGame) (perfNow lastStepEnv - lastStepTime lastLoopGame) = true /\
  currentStep (update lastStepEnv lastLoopGame) = 0%nat /\
  currentLoop (update lastStepEnv lastLoopGame) = currentLoop lastLoopGame + 1 /\
  loopsPerWave lastLoopGame < currentLoop (update lastStepEnv lastLoopGame) /\
  0 < defenderHP (update lastStepEnv lastLoopGame).
Proof.
  apply (game_is_lost_only_after_the_last_loop lastStepEnv lastLoopGame).
  - reflexivity.
  - vm_compute. reflexivity.
Defined.

(** ** Presets and the budget *)

Lemma presetFilling_weaken pattern (v v' : nat -> nat -> Prop) s :
  (forall r c, v r c -> v' r c) -> presetFilling pattern v s -> presetFilling pattern v' s.
Proof.
  intros H (Hb & H0 & Hv). split; [exact Hb|]. split; [exact H0|].
  intros r c Hc. destruct (Hv r c Hc). split; auto.
Qed.

Lemma loadPresetCell_presetFilling pattern visited s row col :
  presetFilling pattern visited s -> ~ visited row col ->
  presetFilling pattern (fun r c => (r, c) = (row, col) \/ visited r c)
    (loadPresetCell pattern col row s).
Proof.
  intros Hf Hnew. unfold loadPresetCell.
  destruct (patternCell pattern row col) eqn:Ep;
    [|apply (presetFilling_weaken pattern visited); [auto | exact Hf]].
  destruct (costOf row <=? alienBudget s) eqn:E;
    [|apply (presetFilling_weaken pattern visited); [auto | exact Hf]].
  apply Z.leb_le in E. cbv zeta.
  destruct Hf as (Hb & H0 & Hv).
  assert (Hfree : gridCell (grid s) row col = false).
  { destruct (gridCell (grid s) row col) eqn:Ec; [|reflexivity].
    exfalso. apply Hnew. apply (Hv row col Ec). }
  unfold presetFilling, placedCost in *.
  cbn [grid alienBudget alienBudgetMax set_alienBudget set_aliens set_grid].
  rewrite placedCostFrom_setCell, Hfree.
  split; [lia|]. split; [lia|].
  intros r c. rewrite gridCell_setCell.
  destruct (Nat.eqb row r && Nat.eqb col c) eqn:Erc.
  - apply andb_prop in Erc. destruct Erc as [Er Ec].
    apply Nat.eqb_eq in Er. apply Nat.eqb_eq in Ec. subst. auto.
  - intro H. destruct (Hv r c H). auto.
Qed.

Lemma loadPreset_presetFilling pattern st :
  0 <= alienBudgetMax st ->
  presetFilling pattern (fun _ _ => True) (loadPreset pattern st).
Proof.
  intro Hcap. unfold loadPreset. cbv zeta.
  assert (H0 : presetFilling pattern (fun r c => In c (@nil nat)) (clearGrid st)).
  { unfold presetFilling, placedCost, clearGrid.
    cbn [grid alienBudget alienBudgetMax set_alienBudget set_aliens set_grid].
    rewrite placedCostFrom_empty. split; [lia|]. split; [exact Hcap|].
    intros r c. rewrite gridCell_emptyGrid. discriminate. }
  set (s0 := clearGrid st) in *. clearbody s0.
  apply (presetFilling_weaken pattern (fun r c => In c (rev (upto gridCols) ++ []))); [auto|].
  apply (fold_left_visit (fun s dcols => presetFilling pattern (fun r c => In c dcols) s));
    [ | apply seq_NoDup | intros x _ [] | exact H0].
  intros s dcols col Hs Hcol Hin.
  apply (presetFilling_weaken pattern
           (fun r c => (c = col /\ In r (rev (upto (gridRows s)) ++ [])) \/ In c dcols)).
  { intros r c [[-> _] | Hc]; [left; reflexivity | right; exact Hc]. }
  apply (fold_left_visit
           (fun s' drows =>
              presetFilling pattern (fun r c => (c = col /\ In r drows) \/ In c dcols) s'));
    [ | apply seq_NoDup | intros x _ [] | ].
  - intros s' drows row Hs' Hrow Hrin.
    apply (presetFilling_weaken pattern
             (fun r c => (r, c) = (row, col) \/ ((c = col /\ In r drows) \/ In c dcols))).
    { intros r c [E | [[-> Hr] | Hc]].
      - injection E as -> ->. left. split; [reflexivity | left; reflexivity].
      - left. split; [reflexivity | right; exact Hr].
      - right. exact Hc. }
    apply loadPresetCell_presetFilling; [exact Hs'|].
    intros [[_ Hr] | Hc]; contradiction.
  - apply (presetFilling_weaken pattern (fun r c => In c dcols)); [auto | exact Hs].
Qed.

(** What [loadPreset] writes: the grid, the aliens and the budget. *)
Lemma loadPreset_writes pattern st :
  exists g a b, loadPreset pattern st = set_alienBudget b (set_aliens a (set_grid g st)).
Proof.
  unfold loadPreset. cbv zeta.
  apply (fold_left_invariant
           (fun s => exists g a b, s = set_alienBudget b (set_aliens a (set_grid g st)))).
  - intros s col Hs.
    apply (fold_left_invariant
             (fun s => exists g a b, s = set_alienBudget b (set_aliens a (set_grid g st))));
      [|exact Hs].
    intros s' row (g & a & b & ->). unfold loadPresetCell.
    destruct (patternCell pattern row col); [|eauto].
    destruct (_ <=? _); [|eauto].
    cbv zeta. do 3 eexists. reflexivity.
  - unfold clearGrid. cbv zeta. do 3 eexists. reflexivity.
Qed.

(** X9.  [loadPreset] starts from a cleared grid whatever was on it: it
    sets only cells of its pattern, the budget that is left is the cap
    minus the cost of the cells it has set, and loading the same pattern a
    second time changes nothing. *)
Theorem loadPreset_fills_from_scratch (pattern : list (list Z)) (st : Game) :
  0 <= alienBudgetMax st ->
  (forall row col, gridCell (grid (loadPreset pattern st)) row col = true ->
                   patternCell pattern row col = true) /\
  0 <= alienBudget (loadPreset pattern st) /\
  alienBudget (loadPreset pattern st)
  = alienBudgetMax st - placedCost (loadPreset pattern st) /\
  loadPreset pattern (loadPreset pattern st) = loadPreset pattern st.
Proof.
  intro Hcap.
  destruct (loadPreset_presetFilling pattern st Hcap) as (Hb & H0 & Hv).
  destruct (loadPreset_writes pattern st) as (g & a & b & E).
  split; [intros row col H; apply (Hv row col H)|].
  split; [exact H0|]. split.
  - assert (Em : alienBudgetMax (loadPreset pattern st) = alienBudgetMax st)
      by (rewrite E; reflexivity).
    lia.
  - rewrite E at 1.
    change (loadPreset pattern (set_alienBudget b (set_aliens a (set_grid g st))))
      with (loadPreset pattern st).
    reflexivity.
Qed.

Lemma loadPreset_fills_from_scratch_witness :
  (forall row col, gridCell (grid (loadPreset rockPreset spentGame)) row col = true ->
                   patternCell rockPreset row col = true) /\
  0 <= alienBudget (loadPreset rockPreset spentGame) /\
  alienBudget (loadPreset rockPreset spentGame)
  = alienBudgetMax spentGame - placedCost (loadPreset rockPreset spentGame) /\
  loadPreset rockPreset (loadPreset rockPreset spentGame) = loadPreset rockPreset spentGame.
Proof.
  apply (loadPreset_fills_from_scratch rockPreset spentGame).
  vm_compute. discriminate.
Defined.

Lemma budget_exact_invariant st :
  editReach st ->
  placedCost st + alienBudget st = alienBudgetMax st /\ 0 <= alienBudget st.
Proof.
  induction 1 as [|urlBpm|st row col st' _ IH E|st pattern _ IH|st _ IH].
  - split; [reflexivity | discriminate].
  - unfold loadPatternFromURL, loadUrlBpm, loadUrlPattern.
    destruct urlBpm as [newBpm|]; [|split; [reflexivity | discriminate]].
    destruct (_ && _); split; try reflexivity; discriminate.
  - destruct IH as [Hb H0]. unfold placedCost in *.
    apply toggleGridCell_cases in E. destruct E as [Hm E].
    pose proof (costOf_pos row) as Hc.
    pose proof (placedCostFrom_nonneg 0 (grid st')) as Hp.
    rewrite Hm.
    destruct E as [(Hcell & Hg & Hbud) | [(Hcell & Hlt & Hg & Hbud) | (Hcell & Hle & Hg & Hbud)]];
      rewrite Hg in *; rewrite Hbud;
      try rewrite placedCostFrom_setCell in *; try rewrite Hcell in *; lia.
  - destruct IH as [Hb H0].
    pose proof (placedCostFrom_nonneg 0 (grid st)) as Hp. unfold placedCost in Hb.
    destruct (loadPreset_presetFilling pattern st) as (Hb' & H0' & _); [lia|].
    destruct (loadPreset_writes pattern st) as (g & a & b & E).
    assert (Em : alienBudgetMax (loadPreset pattern st) = alienBudgetMax st)
      by (rewrite E; reflexivity).
    split; [lia | exact H0'].
  - destruct IH as [Hb H0].
    pose proof (placedCostFrom_nonneg 0 (grid st)) as Hp.
    unfold placedCost, clearGrid in *.
    cbn [grid alienBudget alienBudgetMax set_alienBudget set_aliens set_grid].
    rewrite placedCostFrom_empty. lia.
Qed.

(** X10.  While the pattern is only edited ([toggleGridCell],
    [loadPreset], [clearGrid]) in a game constructed without a pattern in
    the hash of the page, the budget shown is exactly the cap minus the
    cost of the cells on the grid. *)
Theorem budget_is_cap_minus_placed_cost (st : Game) :
  editReach st -> alienBudget st = alienBudgetMax st - placedCost st.
Proof.
  intro H. destruct (budget_exact_invariant st H) as [Hb _]. lia.
Qed.

Lemma budget_is_cap_minus_placed_cost_witness :
  alienBudget spentGame = alienBudgetMax spentGame - placedCost spentGame.
Proof.
  apply (budget_is_cap_minus_placed_cost spentGame).
  assert (H1 : exists s1, toggleGridCell 0 0 newGame = Some s1 /\
           exists s2, toggleGridCell 0 4 s1 = Some s2 /\
           toggleGridCell 1 2 s2 = Some spentGame).
  { eexists. split; [reflexivity|]. eexists. split; reflexivity. }
  destruct H1 as (s1 & E1 & s2 & E2 & E3).
  apply (er_toggle s2 1 2); [|exact E3].
  apply (er_toggle s1 0 4); [|exact E2].
  apply (er_toggle newGame 0 0); [|exact E1].
  apply er_new.
Defined.

(** ** The cards that draw on the grid *)

Lemma mirrorCell_grid row col s :
  grid (mirrorCell row col s)
  = if gridCell (grid s) row col && negb (gridCell (grid s) row (gridCols - 1 - col))
    then setCell (grid s) row (gridCols - 1 - col) true
    else if negb (gridCell (grid s) row col) && gridCell (grid s) row (gridCols - 1 - col)
         then setCell (grid s) row col true
         else grid s.
Proof.
  unfold mirrorCell. cbv zeta.
  destruct (_ && _); [reflexivity|]. destruct (_ && _); reflexivity.
Qed.

Lemma mirrorCell_mirroring g row s dcols col :
  mirroring g row s dcols -> ~ In col dcols -> (col < 8)%nat ->
  mirroring g row (mirrorCell row col s) (col :: dcols).
Proof.
  intros (Hd & Hc & Ho) Hnew Hcol.
  assert (Hbig : forall d, In d dcols -> (d < 8)%nat).
  { rewrite Forall_forall in Hd. exact Hd. }
  assert (Hn1 : ~ mirrorSeen dcols col).
  { intros [H | H]; [contradiction|]. apply Hbig in H. unfold gridCols in H. lia. }
  assert (Hn2 : ~ mirrorSeen dcols (gridCols - 1 - col)).
  { intros [H | H].
    - apply Hbig in H. unfold gridCols in H. lia.
    - replace (gridCols - 1 - (gridCols - 1 - col))%nat with col in H
        by (unfold gridCols; lia).
      contradiction. }
  assert (HA : gridCell (grid s) row col = gridCell g row col).
  { apply Hc; [unfold gridCols; lia | exact Hn1]. }
  assert (HB : gridCell (grid s) row (gridCols - 1 - col)
               = gridCell g row (gridCols - 1 - col)).
  { apply Hc; [unfold gridCols; lia | exact Hn2]. }
  split; [constructor; assumption|].
  rewrite mirrorCell_grid, HA, HB.
  split.
  - intros c Hc16.
    assert (Hcase : c = col \/ c = (gridCols - 1 - col)%nat \/
                    (c <> col /\ c <> (gridCols - 1 - col)%nat)) by lia.
    destruct Hcase as [-> | [-> | [Hne1 Hne2]]].
    + split; [intros _ | intros Hns; exfalso; apply Hns; left; left; reflexivity].
      unfold mirrored.
      destruct (gridCell g row col) eqn:E1, (gridCell g row (gridCols - 1 - col)) eqn:E2;
        cbn [andb negb orb]; rewrite ?gridCell_setCell_same;
        try reflexivity; try congruence.
      rewrite gridCell_setCell_other; [congruence|].
      intro H. apply (f_equal snd) in H. cbn [snd] in H. unfold gridCols in H. lia.
    + split; [intros _ | intros Hns; exfalso; apply Hns; right; left;
                         unfold gridCols; lia].
      unfold mirrored.
      replace (gridCols - 1 - (gridCols - 1 - col))%nat with col
        by (unfold gridCols; lia).
      destruct (gridCell g row col) eqn:E1, (gridCell g row (gridCols - 1 - col)) eqn:E2;
        cbn [andb negb orb]; rewrite ?gridCell_setCell_same;
        try reflexivity; try congruence.
      rewrite gridCell_setCell_other; [congruence|].
      intro H. apply (f_equal snd) in H. cbn [snd] in H. unfold gridCols in H. lia.
    + assert (Hsame :
                gridCell
                  (if gridCell g row col && negb (gridCell g row (gridCols - 1 - col))
                   then setCell (grid s) row (gridCols - 1 - col) true
                   else if negb (gridCell g row col) && gridCell g row (gridCols - 1 - col)
                        then setCell (grid s) row col true
                        else grid s) row c
                = gridCell (grid s) row c).
      { destruct (_ && _); [apply gridCell_setCell_other; congruence|].
        destruct (_ && _); [apply gridCell_setCell_other; congruence | reflexivity]. }
      rewrite Hsame.
      assert (Hiff : mirrorSeen (col :: dcols) c <-> mirrorSeen dcols c).
      { unfold mirrorSeen. cbn [In]. unfold gridCols in *. split.
        - intros [[H | H] | [H | H]]; try lia; auto.
        - intros [H | H]; auto. }
      rewrite Hiff. apply Hc. exact Hc16.
  - intros r c Hr. rewrite <- (Ho r c Hr).
    destruct (_ && _); [apply gridCell_setCell_other; congruence|].
    destruct (_ && _); [apply gridCell_setCell_other; congruence | reflexivity].
Qed.

Lemma mirror_row g s row :
  mirroring g row s [] ->
  mirroring g row
    (fold_left (fun st col => mirrorCell row col st) (upto (gridCols / 2)) s)
    (rev (upto (gridCols / 2)) ++ []).
Proof.
  intro H0.
  apply (fold_left_visit (fun s' dcols => mirroring g row s' dcols));
    [ | apply seq_NoDup | intros x _ [] | exact H0].
  intros s' d col Hs' Hnew Hin. apply mirrorCell_mirroring; auto.
  apply in_seq in Hin. change (gridCols / 2)%nat with 8%nat in Hin. lia.
Qed.

Lemma mirrorSeen_all c :
  (c < gridCols)%nat -> mirrorSeen (rev (upto (gridCols / 2)) ++ []) c.
Proof.
  intro H. unfold mirrorSeen. rewrite app_nil_r.
  change (gridCols / 2)%nat with 8%nat. unfold gridCols in *.
  destruct (Nat.lt_ge_cases c 8); [left | right]; apply -> in_rev; apply in_seq; lia.
Qed.

(** X11.  The Mirror Beat card makes every row of the pattern symmetric:
    after it a cell is set exactly when it or its mirror image was set, so
    no cell is lost and the sixteen steps read the same in both
    directions. *)
Theorem mirrorBeat_makes_rows_symmetric (rnd : nat -> nat -> Q) (st : Game)
  (row col : nat) :
  (row < gridRows st)%nat -> (col < gridCols)%nat ->
  gridCell (grid (applyUpgrade rnd mirrorBeat st)) row col
  = gridCell (grid st) row col || gridCell (grid st) row (gridCols - 1 - col) /\
  gridCell (grid (applyUpgrade rnd mirrorBeat st)) row col
  = gridCell (grid (applyUpgrade rnd mirrorBeat st)) row (gridCols - 1 - col).
Proof.
  intros Hrow Hcol. cbn [applyUpgrade].
  assert (Hall : mirroredRows (grid st)
                   (fold_left (fun st0 row0 =>
                      fold_left (fun st1 col0 => mirrorCell row0 col0 st1)
                                (upto (gridCols / 2)) st0)
                      (upto (gridRows st)) st)
                   (rev (upto (gridRows st)) ++ [])).
  { apply (fold_left_visit (fun s drows => mirroredRows (grid st) s drows));
      [ | apply seq_NoDup | intros x _ [] | ].
    - intros s drows r Hs Hnew _.
      assert (H0 : mirroring (grid s) r s []).
      { split; [constructor|]. split; [|reflexivity].
        intros c _. split; [intros [[] | []] | reflexivity]. }
      destruct (mirror_row (grid s) s r H0) as (_ & Hc & Ho).
      intros r' c Hc16.
      destruct (Nat.eq_dec r' r) as [-> | Hne].
      + split; [intros _ | intros Hn; exfalso; apply Hn; left; reflexivity].
        destruct (Hc c Hc16) as [Hseen _]. rewrite (Hseen (mirrorSeen_all c Hc16)).
        unfold mirrored.
        destruct (Hs r c Hc16) as [_ H1]. rewrite (H1 Hnew).
        assert (Hc' : (gridCols - 1 - c < gridCols)%nat) by (unfold gridCols in *; lia).
        destruct (Hs r (gridCols - 1 - c)%nat Hc') as [_ H2]. rewrite (H2 Hnew).
        reflexivity.
      + rewrite (Ho r' c Hne). destruct (Hs r' c Hc16) as [H1 H2].
        split.
        * intros [E | Hin]; [congruence | exact (H1 Hin)].
        * intros Hn. apply H2. intro Hin. apply Hn. right. exact Hin.
    - intros r c _. split; [intros [] | reflexivity]. }
  assert (Hdone : forall r, (r < gridRows st)%nat -> In r (rev (upto (gridRows st)) ++ [])).
  { intros r Hr. rewrite app_nil_r. apply -> in_rev. apply in_seq. lia. }
  destruct (Hall row col Hcol) as [H1 _]. specialize (H1 (Hdone row Hrow)).
  assert (Hcol' : (gridCols - 1 - col < gridCols)%nat) by (unfold gridCols in *; lia).
  destruct (Hall row (gridCols - 1 - col)%nat Hcol') as [H2 _].
  specialize (H2 (Hdone row Hrow)).
  split; [exact H1|].
  rewrite H1, H2. unfold mirrored.
  replace (gridCols - 1 - (gridCols - 1 - col))%nat with col by (unfold gridCols in *; lia).
  apply orb_comm.
Qed.

Lemma mirrorBeat_makes_rows_symmetric_witness :
  gridCell (grid (applyUpgrade noDraw mirrorBeat spentGame)) 0 15
  = gridCell (grid spentGame) 0 15 || gridCell (grid spentGame) 0 (gridCols - 1 - 15) /\
  gridCell (grid (applyUpgrade noDraw mirrorBeat spentGame)) 0 15
  = gridCell (grid (applyUpgrade noDraw mirrorBeat spentGame)) 0 (gridCols - 1 - 15).
Proof.
  apply (mirrorBeat_makes_rows_symmetric noDraw spentGame 0 15).
  - vm_compute. lia.
  - vm_compute. lia.
Defined.

Lemma scrambling_ext rnd g (v v' : nat -> nat -> Prop) s :
  (forall r c, v r c <-> v' r c) -> scrambling rnd g v s -> scrambling rnd g v' s.
Proof.
  intros H Hs r c. destruct (Hs r c) as [H1 H2]. rewrite <- (H r c). auto.
Qed.

Lemma scrambleCell_scrambling rnd g visited s row col :
  scrambling rnd g visited s -> ~ visited row col ->
  scrambling rnd g (fun r c => (r, c) = (row, col) \/ visited r c)
    (scrambleCell (rnd row col) row col s).
Proof.
  intros Hs Hnew r c.
  assert (Hcur : gridCell (grid s) row col = gridCell g row col)
    by (apply (Hs row col); exact Hnew).
  assert (Hg : grid (scrambleCell (rnd row col) row col s)
               = if negb (gridCell (grid s) row col) && Qltb (rnd row col) (3 # 10)
                 then setCell (grid s) row col true else grid s).
  { unfold scrambleCell. destruct (_ && _); reflexivity. }
  rewrite Hg, Hcur.
  destruct (Nat.eq_dec r row) as [-> | Hr].
  - destruct (Nat.eq_dec c col) as [-> | Hc].
    + split; [intros _ | intros Hn; exfalso; apply Hn; left; reflexivity].
      destruct (gridCell g row col) eqn:E, (Qltb (rnd row col) (3 # 10));
        cbn [negb andb orb]; rewrite ?gridCell_setCell_same; congruence.
    + assert (Hsame : gridCell (if negb (gridCell g row col) && Qltb (rnd row col) (3 # 10)
                                then setCell (grid s) row col true else grid s) row c
                      = gridCell (grid s) row c).
      { match goal with
      | |- context [if ?b then _ else _] => destruct b
      end; [apply gridCell_setCell_other; congruence | reflexivity]. }
      rewrite Hsame. destruct (Hs row c) as [H1 H2]. split.
      * intros [E | Hv]; [congruence | exact (H1 Hv)].
      * intro Hn. apply H2. intro Hv. apply Hn. right. exact Hv.
  - assert (Hsame : gridCell (if negb (gridCell g row col) && Qltb (rnd row col) (3 # 10)
                              then setCell (grid s) row col true else grid s) r c
                    = gridCell (grid s) r c).
    { match goal with
      | |- context [if ?b then _ else _] => destruct b
      end; [apply gridCell_setCell_other; congruence | reflexivity]. }
    rewrite Hsame. destruct (Hs r c) as [H1 H2]. split.
    + intros [E | Hv]; [congruence | exact (H1 Hv)].
    + intro Hn. apply H2. intro Hv. apply Hn. right. exact Hv.
Qed.

(** X12.  The Scramble card never clears a cell and sets an empty cell of
    the grid exactly when the draw made for it is below 0.3; cells outside
    the grid are left alone. *)
Theorem scramble_fills_by_the_draws (rnd : nat -> nat -> Q) (st : Game) (row col : nat) :
  gridCell (grid (applyUpgrade rnd scramble st)) row col
  = if (row <? gridRows st)%nat && (col <? gridCols)%nat
    then gridCell (grid st) row col || Qltb (rnd row col) (3 # 10)
    else gridCell (grid st) row col.
Proof.
  cbn [applyUpgrade].
  assert (Hall : scrambling rnd (grid st)
                   (fun r c => In r (rev (upto (gridRows st)) ++ []) /\ (c < gridCols)%nat)
                   (fold_left (fun st0 row0 =>
                      fold_left (fun st1 col0 => scrambleCell (rnd row0 col0) row0 col0 st1)
                                (upto gridCols) st0)
                      (upto (gridRows st)) st)).
  { apply (fold_left_visit
             (fun s drows =>
                scrambling rnd (grid st) (fun r c => In r drows /\ (c < gridCols)%nat) s));
      [ | apply seq_NoDup | intros x _ [] | ].
    - intros s drows r Hs Hnew _.
      apply (scrambling_ext rnd (grid st)
               (fun r' c => (r' = r /\ In c (rev (upto gridCols) ++ []))
                            \/ (In r' drows /\ (c < gridCols)%nat))).
      { intros r' c. rewrite app_nil_r, <- in_rev. unfold upto. rewrite in_seq.
        cbn [In]. split.
        - intros [[-> H] | [H1 H2]]; split; auto; lia.
        - intros [[<- | H] Hc]; [left; split; [reflexivity | lia] | right; auto]. }
      apply (fold_left_visit
               (fun s' dcols =>
                  scrambling rnd (grid st)
                    (fun r' c => (r' = r /\ In c dcols)
                                 \/ (In r' drows /\ (c < gridCols)%nat)) s'));
        [ | apply seq_NoDup | intros x _ [] | ].
      + intros s' dcols c Hs' Hc _.
        apply (scrambling_ext rnd (grid st)
                 (fun r' c' => (r', c') = (r, c)
                               \/ ((r' = r /\ In c' dcols)
                                   \/ (In r' drows /\ (c' < gridCols)%nat)))).
        { intros r' c'. cbn [In]. split.
          - intros [E | [[-> H] | H]]; [injection E as -> ->|..]; auto.
          - intros [[-> [<- | H]] | H]; auto. }
        apply scrambleCell_scrambling; [exact Hs'|].
        intros [[_ H] | [H _]]; contradiction.
      + apply (scrambling_ext rnd (grid st) (fun r' c => In r' drows /\ (c < gridCols)%nat));
          [|exact Hs].
        intros r' c. cbn [In]. tauto.
    - intros r c. split; [intros [[] _] | reflexivity]. }
  destruct (Hall row col) as [H1 H2].
  destruct (row <? gridRows st)%nat eqn:Er; cbn [andb].
  - apply Nat.ltb_lt in Er.
    destruct (col <? gridCols)%nat eqn:Ec.
    + apply Nat.ltb_lt in Ec. apply H1. split; [|exact Ec].
      rewrite app_nil_r. apply -> in_rev. unfold upto. apply in_seq. lia.
    + apply Nat.ltb_ge in Ec. apply H2. intros [_ H]. lia.
  - apply Nat.ltb_ge in Er. apply H2. intros [H _].
    rewrite app_nil_r in H. apply in_rev in H. unfold upto in H. apply in_seq in H. lia.
Qed.

(** ** The cards on offer *)

Lemma randomIndex_inside (r : Q) (n : nat) :
  (0 <= r)%Q -> (r < 1)%Q -> (0 < n)%nat -> (randomIndex r n < n)%nat.
Proof.
  intros H0 H1 Hn. unfold randomIndex, nq.
  assert (Hlt : (r * inject_Z (Z.of_nat n) < inject_Z (Z.of_nat n))%Q).
  { rewrite <- (Qmult_1_l (inject_Z (Z.of_nat n))) at 2.
    apply Qmult_lt_compat_r; [|exact H1].
    change 0%Q with (inject_Z 0). rewrite <- Zlt_Qlt. lia. }
  assert (Hge : (0 <= r * inject_Z (Z.of_nat n))%Q).
  { apply Qmult_le_0_compat; [exact H0|].
    change 0%Q with (inject_Z 0). rewrite <- Zle_Qle. lia. }
  assert (Hf0 : 0 <= Qfloor (r * inject_Z (Z.of_nat n))).
  { change 0 with (Qfloor (inject_Z 0)) at 1. apply Qfloor_resp_le. exact Hge. }
  assert (Hf1 : Qfloor (r * inject_Z (Z.of_nat n)) < Z.of_nat n).
  { apply Z.lt_nge. intro Hle.
    apply (Qlt_not_le _ _ Hlt).
    apply Qle_trans with (inject_Z (Qfloor (r * inject_Z (Z.of_nat n)))).
    - rewrite <- Zle_Qle. exact Hle.
    - apply Qfloor_le. }
  lia.
Qed.

Lemma splice_nth_error {A : Type} (i : nat) (l : list A) (c : A) :
  nth_error l i = Some c ->
  exists l1 l2, l = l1 ++ c :: l2 /\ splice i l = l1 ++ l2.
Proof.
  revert l. induction i as [|i IH]; intros [|h t] H; cbn in H; try discriminate.
  - injection H as ->. exists [], t. split; reflexivity.
  - destruct (IH t H) as (l1 & l2 & -> & E).
    exists (h :: l1), l2. cbn [splice app]. rewrite E. split; reflexivity.
Qed.

Lemma pickCards_spec (rnd : nat -> Q) :
  (forall i, (0 <= rnd i)%Q /\ (rnd i < 1)%Q) ->
  forall k i pool choices,
    (k <= length pool)%nat -> NoDup pool ->
    exists picked,
      pickCards rnd i k pool choices = choices ++ picked /\
      length picked = k /\ NoDup picked /\ incl picked pool.
Proof.
  intros Hr. induction k as [|k IH]; intros i pool choices Hk Hnd; cbn [pickCards].
  - exists []. rewrite app_nil_r. repeat split; [constructor | intros x []].
  - cbv zeta.
    assert (Hidx : (randomIndex (rnd i) (length pool) < length pool)%nat).
    { destruct (Hr i). apply randomIndex_inside; auto. lia. }
    destruct (nth_error pool (randomIndex (rnd i) (length pool))) as [c|] eqn:E.
    + destruct (splice_nth_error _ _ _ E) as (l1 & l2 & Hp & Hs).
      rewrite Hs. subst pool.
      apply NoDup_remove in Hnd. destruct Hnd as [Hnd Hc].
      rewrite length_app in Hk. cbn [length] in Hk.
      destruct (IH (S i) (l1 ++ l2) (choices ++ [c])) as (picked & Ep & Hl & Hn & Hi);
        [rewrite length_app; lia | exact Hnd |].
      exists (c :: picked). rewrite Ep, <- app_assoc. cbn [app].
      split; [reflexivity|]. split; [cbn; lia|]. split.
      * constructor; [|exact Hn]. intro Hin. apply Hc, Hi, Hin.
      * intros x [<- | Hx]; [apply in_elt|].
        apply Hi in Hx. apply in_app_iff in Hx. apply in_app_iff.
        destruct Hx; [left | right; right]; assumption.
    + apply nth_error_None in E. lia.
Qed.

Lemma fillCards_spec (rnd : nat -> Q) :
  (forall i, (0 <= rnd i)%Q /\ (rnd i < 1)%Q) ->
  forall k i available choices,
    available <> [] ->
    exists extra,
      fillCards rnd i k available choices = choices ++ extra /\
      length extra = k /\ incl extra available.
Proof.
  intros Hr. induction k as [|k IH]; intros i available choices Ha; cbn [fillCards].
  - exists []. rewrite app_nil_r. repeat split. intros x [].
  - assert (Hidx : (randomIndex (rnd i) (length available) < length available)%nat).
    { destruct (Hr i). apply randomIndex_inside; auto.
      destruct available; [congruence | cbn; lia]. }
    destruct (nth_error available (randomIndex (rnd i) (length available))) as [c|] eqn:E.
    + destruct (IH (S i) available (choices ++ [c]) Ha) as (extra & Ep & Hl & Hi).
      exists (c :: extra). rewrite Ep, <- app_assoc. cbn [app].
      split; [reflexivity|]. split; [cbn; lia|].
      intros x [<- | Hx]; [eapply nth_error_In; exact E | apply Hi, Hx].
    + apply nth_error_None in E. lia.
Qed.

Lemma firstLoopTurns_bounds n :
  (firstLoopTurns n <= n)%nat /\ (firstLoopTurns n <= 3)%nat /\
  ((5 <= n)%nat -> firstLoopTurns n = 3%nat).
Proof.
  do 5 (destruct n as [|n]; [cbn; repeat split; lia|]).
  cbn. repeat split; lia.
Qed.

Lemma getCardPool_NoDup : NoDup getCardPool.
Proof.
  unfold getCardPool.
  repeat (constructor; [cbn; intuition discriminate|]). constructor.
Qed.


(** X13.  With draws in [0, 1), [generateCardChoices] always offers three
    cards.  While cards of the pool are left, every card offered is one
    that has not been taken, and with five or more left the three are
    different cards; when the whole pool has been taken the three
    repeatable boosts are offered. *)
Theorem generateCardChoices_offers_three (rnd : nat -> Q) (st : Game) :
  (forall i, (0 <= rnd i)%Q /\ (rnd i < 1)%Q) ->
  length (generateCardChoices rnd st) = 3%nat /\
  (availableCards st = [] ->
   generateCardChoices rnd st = [damageBoost; hpBoost; speedBoost]) /\
  (availableCards st <> [] ->
   forall c, In c (generateCardChoices rnd st) ->
             In c getCardPool /\ hasUpgrade c st = false) /\
  ((5 <= length (availableCards st))%nat -> NoDup (generateCardChoices rnd st)).
Proof.
  intro Hr. unfold generateCardChoices. fold (availableCards st).
  assert (Hnd : NoDup (availableCards st)).
  { unfold availableCards. apply NoDup_filter. apply getCardPool_NoDup. }
  assert (Hav : forall c, In c (availableCards st) ->
                          In c getCardPool /\ hasUpgrade c st = false).
  { intros c Hc. unfold availableCards in Hc. apply filter_In in Hc.
    destruct Hc as [H1 H2]. split; [exact H1|].
    destruct (hasUpgrade c st); [discriminate | reflexivity]. }
  destruct (availableCards st) as [|c0 rest] eqn:Ea.
  - split; [reflexivity|]. split; [reflexivity|].
    split; [congruence|]. intro H. cbn in H. lia.
  - cbv zeta. set (available := c0 :: rest) in *.
    destruct (firstLoopTurns_bounds (length available)) as (Ht1 & Ht2 & Ht3).
    destruct (pickCards_spec rnd Hr (firstLoopTurns (length available)) 0 available []
                Ht1 Hnd) as (picked & Ep & Hl & Hn & Hi).
    rewrite Ep. cbn [app].
    destruct (fillCards_spec rnd Hr (3 - length picked) (firstLoopTurns (length available))
                available picked) as (extra & Ef & Hle & Hie);
      [unfold available; discriminate|].
    rewrite Ef.
    split; [rewrite length_app; lia|].
    split; [unfold available; discriminate|].
    split.
    + intros _ c Hc. apply Hav. apply in_app_iff in Hc.
      destruct Hc as [Hc | Hc]; [apply Hi | apply Hie]; exact Hc.
    + intro H5. specialize (Ht3 H5).
      assert (Hex : extra = []).
      { destruct extra; [reflexivity | cbn [length] in Hle; lia]. }
      rewrite Hex, app_nil_r. exact Hn.
Qed.

Lemma generateCardChoices_offers_three_witness :
  length (generateCardChoices (rndCard cardEnv) wonGame) = 3%nat /\
  (availableCards wonGame = [] ->
   generateCardChoices (rndCard cardEnv) wonGame = [damageBoost; hpBoost; speedBoost]) /\
  (availableCards wonGame <> [] ->
   forall c, In c (generateCardChoices (rndCard cardEnv) wonGame) ->
             In c getCardPool /\ hasUpgrade c wonGame = false) /\
  ((5 <= length (availableCards wonGame))%nat ->
   NoDup (generateCardChoices (rndCard cardEnv) wonGame)).
Proof.
  apply (generateCardChoices_offers_three (rndCard cardEnv) wonGame).
  intro i. split; [discriminate | reflexivity].
Defined.

(** ** The heat map of the adapting AI *)

Lemma nth_setNth_None (col c : nat) (v : option Z) (heat : list (option Z)) :
  nth c (setNth None col v heat) None = if Nat.eqb col c then v else nth c heat None.
Proof.
  destruct (Nat.eqb col c) eqn:E.
  - apply Nat.eqb_eq in E. subst. apply nth_setNth_same.
  - apply Nat.eqb_neq in E. apply nth_setNth_other. exact E.
Qed.

Lemma heatUp_nth (col c : nat) (heat : list (option Z)) :
  nth c (heatUp col heat) None
  = if Nat.eqb col c then option_map (fun h => h + 1) (nth c heat None)
    else nth c heat None.
Proof.
  unfold heatUp. rewrite nth_setNth_None.
  destruct (Nat.eqb col c) eqn:E; [|reflexivity].
  apply Nat.eqb_eq in E. subst. reflexivity.
Qed.

(** The heat of a column after [buildHeatmap]: one more for every alive
    alien of the column, where the column holds a number. *)
Lemma buildHeatmap_nth (st : Game) (c : nat) :
  nth c (aiColumnHeatmap (buildHeatmap st)) None
  = option_map (fun h => h + Z.of_nat (countOnStep st c))
               (nth c (aiColumnHeatmap st) None).
Proof.
  unfold buildHeatmap, countOnStep.
  set (step := fun (st : Game) (alien : Alien) =>
                 if alive alien
                 then set_aiColumnHeatmap (heatUp (a_col alien) (aiColumnHeatmap st)) st
                 else st).
  assert (H : forall l s,
            nth c (aiColumnHeatmap (fold_left step l s)) None
            = option_map (fun h => h + Z.of_nat (length (filter (aliveInCol c) l)))
                         (nth c (aiColumnHeatmap s) None)).
  { induction l as [|a l IH]; intro s; cbn [fold_left filter].
    - cbn [length]. destruct (nth c (aiColumnHeatmap s) None); cbn; [f_equal; lia | reflexivity].
    - rewrite IH. unfold step, aliveInCol.
      destruct (alive a) eqn:Ea.
      + cbn [aiColumnHeatmap set_aiColumnHeatmap]. rewrite heatUp_nth.
        destruct (Nat.eqb (a_col a) c) eqn:Ec; cbn [andb].
        * destruct (nth c (aiColumnHeatmap s) None); cbn [option_map length];
            [f_equal; lia | reflexivity].
        * reflexivity.
      + rewrite andb_false_r. reflexivity. }
  apply H.
Qed.

(** X14.  On a heat map of sixteen zeros, as [selectCard] and
    [restartGame] leave it, [buildHeatmap] counts the alive aliens of every
    column. *)
Theorem heatmap_counts_alive_aliens (st : Game) (col : nat) :
  aiColumnHeatmap st = repeat (Some 0) gridCols -> (col < gridCols)%nat ->
  nth col (aiColumnHeatmap (buildHeatmap st)) None
  = Some (Z.of_nat (countOnStep st col)).
Proof.
  intros Hh Hc. rewrite buildHeatmap_nth, Hh.
  assert (E : nth col (repeat (Some 0) gridCols) None = Some 0).
  { apply nth_error_nth. rewrite nth_error_repeat by exact Hc. reflexivity. }
  rewrite E. reflexivity.
Qed.

Lemma heatmap_counts_alive_aliens_witness :
  nth 4 (aiColumnHeatmap (buildHeatmap (restartGame spentGame))) None
  = Some (Z.of_nat (countOnStep (restartGame spentGame) 4)).
Proof.
  apply (heatmap_counts_alive_aliens (restartGame spentGame) 4).
  - reflexivity.
  - unfold gridCols. lia.
Defined.

(** X15.  The heat map of the constructor has one cell only, [gridCols]
    being assigned after it.  Until a card or a restart replaces it,
    [buildHeatmap] counts the aliens of column 0, and every other column
    reads as no number, which the AI does not take for a threat. *)
Theorem first_heatmap_has_one_column (st : Game) (col : nat) :
  aiColumnHeatmap st = [Some 0] -> (1 <= col)%nat ->
  nth 0 (aiColumnHeatmap (buildHeatmap st)) None = Some (Z.of_nat (countOnStep st 0)) /\
  nth col (aiColumnHeatmap (buildHeatmap st)) None = None /\
  forall tm, heatThreat (aiColumnHeatmap (buildHeatmap st)) tm col = tm.
Proof.
  intros Hh Hc. split.
  - rewrite buildHeatmap_nth, Hh. reflexivity.
  - assert (E : nth col (aiColumnHeatmap (buildHeatmap st)) None = None).
    { rewrite buildHeatmap_nth, Hh.
      destruct col as [|col]; [lia|]. destruct col; reflexivity. }
    split; [exact E|]. intro tm. unfold heatThreat. rewrite E. reflexivity.
Qed.

Lemma first_heatmap_has_one_column_witness :
  nth 0 (aiColumnHeatmap (buildHeatmap beatGame)) None
  = Some (Z.of_nat (countOnStep beatGame 0)) /\
  nth 1 (aiColumnHeatmap (buildHeatmap beatGame)) None = None /\
  forall tm, heatThreat (aiColumnHeatmap (buildHeatmap beatGame)) tm 1 = tm.
Proof.
  apply (first_heatmap_has_one_column beatGame 1).
  - reflexivity.
  - lia.
Defined.

(** ** Restart *)


(** ** The clicks on the canvas *)

Lemma Qfloor_unique (q : Q) (z : Z) :
  (inject_Z z <= q)%Q -> (q < inject_Z (z + 1))%Q -> Qfloor q = z.
Proof.
  intros H0 H1.
  pose proof (Qfloor_le q) as Hf0. pose proof (Qlt_floor q) as Hf1.
  assert (Ha : (inject_Z z < inject_Z (Qfloor q + 1))%Q)
    by (eapply Qle_lt_trans; eassumption).
  assert (Hb : (inject_Z (Qfloor q) < inject_Z (z + 1))%Q)
    by (eapply Qle_lt_trans; eassumption).
  rewrite <- Zlt_Qlt in Ha, Hb. lia.
Qed.

Lemma nq_plus_1 (n : nat) : (nq n + 1 == inject_Z (Z.of_nat n + 1))%Q.
Proof. unfold nq. rewrite inject_Z_plus. reflexivity. Qed.

Lemma click_col (col : nat) (x : Q) :
  (nq col * cellWidth <= x)%Q -> (x < (nq col + 1) * cellWidth)%Q ->
  Qfloor (x / cellWidth) = Z.of_nat col.
Proof.
  intros H0 H1. unfold cellWidth, canvasWidth, gridCols, nq in *.
  assert (E : (x / (800 / inject_Z (Z.of_nat 16)) == x * (1 # 50))%Q) by field.
  rewrite (Qfloor_comp _ _ E).
  assert (E1 : (inject_Z (Z.of_nat col) * (800 / inject_Z (Z.of_nat 16))
                == inject_Z (Z.of_nat col) * 50)%Q) by field.
  assert (E2 : ((inject_Z (Z.of_nat col) + 1) * (800 / inject_Z (Z.of_nat 16))
                == (inject_Z (Z.of_nat col) + 1) * 50)%Q) by field.
  rewrite E1 in H0. rewrite E2 in H1.
  apply Qfloor_unique.
  - lra.
  - rewrite inject_Z_plus. change (inject_Z 1) with 1%Q. lra.
Qed.

Lemma click_row (row : nat) (y : Q) :
  (gridYOffset + nq row * cellHeight <= y)%Q ->
  (y < gridYOffset + (nq row + 1) * cellHeight)%Q ->
  Qfloor ((y - gridYOffset) / cellHeight) = Z.of_nat row.
Proof.
  intros H0 H1. unfold cellHeight, gridYOffset, nq in *.
  assert (E : ((y - 100) / 40 == (y - 100) * (1 # 40))%Q) by field.
  rewrite (Qfloor_comp _ _ E).
  apply Qfloor_unique.
  - lra.
  - rewrite inject_Z_plus. change (inject_Z 1) with 1%Q. lra.
Qed.

(** X17.  While the pattern can be edited, a click on the canvas toggles
    the cell whose rectangle holds the point, and the alien of that cell
    stands in this rectangle; a click above or below the grid does
    nothing. *)
Theorem click_toggles_the_cell_under_the_pointer (rnd : nat -> nat -> Q)
  (st : Game) (row col : nat) (x y : Q) :
  wavePhase st <> gameover -> wavePhase st <> cardpick ->
  (row < gridRows st)%nat -> (col < gridCols)%nat ->
  inCellRect row col x y ->
  canvasClick rnd x y st = toggleGridCell row col st /\
  canvasClick rnd x y st = onCanvasClick (onCell row col) st /\
  inCellRect row col (cellX col) (cellY row) /\
  (forall x' y', (y' < gridYOffset)%Q \/ (gridYOffset + nq (gridRows st) * cellHeight < y')%Q ->
                 canvasClick rnd x' y' st = Some st).
Proof.
  intros Hg Hc Hrow Hcol (Hx0 & Hx1 & Hy0 & Hy1).
  assert (Ep1 : Phase_eqb (wavePhase st) gameover = false)
    by (destruct (wavePhase st); try reflexivity; congruence).
  assert (Ep2 : Phase_eqb (wavePhase st) cardpick = false)
    by (destruct (wavePhase st); try reflexivity; congruence).
  assert (Hclick : canvasClick rnd x y st = toggleGridCell row col st).
  { unfold canvasClick. rewrite Ep1, Ep2. cbv zeta.
    rewrite (click_col col x Hx0 Hx1), (click_row row y Hy0 Hy1), !Nat2Z.id.
    assert (E1 : Qleb gridYOffset y = true).
    { apply Qleb_true. unfold gridYOffset, cellHeight, nq in *.
      assert (0 <= inject_Z (Z.of_nat row))%Q
        by (change 0%Q with (inject_Z 0); rewrite <- Zle_Qle; lia).
      nra. }
    assert (E2 : Qleb y (gridYOffset + nq (gridRows st) * cellHeight) = true).
    { apply Qleb_true. unfold gridYOffset, cellHeight, nq in *.
      assert (inject_Z (Z.of_nat row) + 1 <= inject_Z (Z.of_nat (gridRows st)))%Q.
      { change 1%Q with (inject_Z 1). rewrite <- inject_Z_plus, <- Zle_Qle. lia. }
      nra. }
    rewrite E1, E2. cbn [andb].
    assert (E3 : (0 <=? Z.of_nat col) = true) by (apply Z.leb_le; lia).
    assert (E4 : (Z.of_nat col <? Z.of_nat gridCols) = true) by (apply Z.ltb_lt; lia).
    assert (E5 : (0 <=? Z.of_nat row) = true) by (apply Z.leb_le; lia).
    assert (E6 : (Z.of_nat row <? Z.of_nat (gridRows st)) = true) by (apply Z.ltb_lt; lia).
    rewrite E3, E4, E5, E6. reflexivity. }
  split; [exact Hclick|]. split.
  - rewrite Hclick. unfold onCanvasClick.
    apply Nat.ltb_lt in Hrow. apply Nat.ltb_lt in Hcol.
    destruct (wavePhase st); try congruence; rewrite Hrow, Hcol; reflexivity.
  - split.
    + unfold inCellRect, cellX, cellY, cellWidth, cellHeight, gridYOffset, canvasWidth,
        gridCols, nq.
      assert (E : (800 / inject_Z (Z.of_nat 16) == 50)%Q) by reflexivity.
      assert (E25 : (50 / 2 == 25)%Q) by reflexivity.
      assert (E20 : (40 / 2 == 20)%Q) by reflexivity.
      rewrite !E, E25, E20. repeat split; lra.
    + intros x' y' Hout. unfold canvasClick. rewrite Ep1, Ep2. cbv zeta.
      destruct Hout as [Hout | Hout].
      * assert (E : Qleb gridYOffset y' = false).
        { destruct (Qleb gridYOffset y') eqn:E; [|reflexivity].
          apply Qleb_true in E. lra. }
        rewrite E. reflexivity.
      * assert (E : Qleb y' (gridYOffset + nq (gridRows st) * cellHeight) = false).
        { destruct (Qleb y' _) eqn:E; [|reflexivity].
          apply Qleb_true in E. lra. }
        rewrite E, andb_false_r. reflexivity.
Qed.

Lemma click_toggles_the_cell_under_the_pointer_witness :
  canvasClick noDraw 430 130 newGame = toggleGridCell 0 8 newGame /\
  canvasClick noDraw 430 130 newGame = onCanvasClick (onCell 0 8) newGame /\
  inCellRect 0 8 (cellX 8) (cellY 0) /\
  (forall x' y', (y' < gridYOffset)%Q
                 \/ (gridYOffset + nq (gridRows newGame) * cellHeight < y')%Q ->
                 canvasClick noDraw x' y' newGame = Some newGame).
Proof.
  apply (click_toggles_the_cell_under_the_pointer noDraw newGame 0 8 430 130).
  - discriminate.
  - discriminate.
  - cbn. lia.
  - unfold gridCols. lia.
  - unfold inCellRect. repeat split; vm_compute; try reflexivity; discriminate.
Defined.






Lemma getClickedCardIndex_range (x y : Q) (st : Game) :
  getClickedCardIndex x y st = -1 \/
  (0 <= getClickedCardIndex x y st < 3 /\ currentCardChoices st <> []).
Proof.
  unfold getClickedCardIndex.
  destruct (currentCardChoices st) as [|c l]; [left; reflexivity|].
  cbn [length Nat.eqb].
  destruct (find (cardHit x y) (upto 3)) as [j|] eqn:E; [|left; reflexivity].
  apply find_some in E. destruct E as [Hj _]. apply in_seq in Hj.
  right. split; [lia | discriminate].
Qed.




(** ** The link of a pattern *)

Lemma allChars_app p a b : allChars p (a ++ b)%string = allChars p a && allChars p b.
Proof.
  induction a as [|c a IH]; cbn [append allChars]; [reflexivity|].
  rewrite IH, andb_assoc. reflexivity.
Qed.

Lemma allChars_weaken (p q : ascii -> bool) s :
  (forall c, p c = true -> q c = true) -> allChars p s = true -> allChars q s = true.
Proof.
  intro Hpq. induction s as [|c s IH]; cbn [allChars]; [reflexivity|].
  rewrite !andb_true_iff. intros [H1 H2]. split; [apply Hpq; exact H1 | apply IH; exact H2].
Qed.

Lemma hexDigit_plain c : isDigitOf 16 c = true -> plainDigit c = true.
Proof.
  destruct c as [[] [] [] [] [] [] [] []]; vm_compute; intro H;
    first [reflexivity | discriminate H].
Qed.

Lemma isDigitOf_mono r r' c : r <= r' -> isDigitOf r c = true -> isDigitOf r' c = true.
Proof.
  unfold isDigitOf. destruct (digitValue c); [|auto].
  intros Hr H. apply Z.ltb_lt in H. apply Z.ltb_lt. lia.
Qed.

Lemma digitValue_digitChar d : 0 <= d < 36 -> digitValue (digitChar d) = Some d.
Proof.
  intro Hd.
  assert (H : forallb (fun k => match digitValue (digitChar (Z.of_nat k)) with
                                | Some v => v =? Z.of_nat k
                                | None => false
                                end) (upto 36) = true) by reflexivity.
  rewrite forallb_forall in H. specialize (H (Z.to_nat d)).
  rewrite Z2Nat.id in H by lia.
  destruct (digitValue (digitChar d)) as [v|].
  - f_equal. apply Z.eqb_eq. apply H. apply in_seq. lia.
  - discriminate H. apply in_seq. lia.
Qed.

Lemma isDigitOf_digitChar radix d :
  radix <= 36 -> 0 <= d < radix -> isDigitOf radix (digitChar d) = true.
Proof.
  intros Hr Hd. unfold isDigitOf. rewrite digitValue_digitChar by lia.
  apply Z.ltb_lt. lia.
Qed.

(** The digits that [toString] writes are read back by [parseInt]. *)
Lemma readDigits_digitsOf radix fuel :
  2 <= radix <= 36 ->
  forall n acc, 0 <= n < radix ^ Z.of_nat (S fuel) ->
  exists ds, readDigits radix (digitsOf radix (S fuel) n acc) = ds ++ readDigits radix acc /\
             ds <> [] /\ mathInt radix ds = n.
Proof.
  intro Hr. induction fuel as [|fuel IH]; intros n acc Hn.
  - change (Z.of_nat 1) with 1 in Hn. rewrite Z.pow_1_r in Hn.
    cbn [digitsOf]. rewrite Z.div_small by lia. cbn [Z.eqb].
    rewrite Z.mod_small by lia.
    exists [n]. cbn [readDigits]. rewrite digitValue_digitChar by lia.
    assert (E : (n <? radix) = true) by (apply Z.ltb_lt; lia). rewrite E.
    split; [reflexivity|]. split; [discriminate|]. unfold mathInt. cbn. lia.
  - assert (Hm : 0 <= n mod radix < radix) by (apply Z.mod_pos_bound; lia).
    assert (Hq : 0 <= n / radix < radix ^ Z.of_nat (S fuel)).
    { split; [apply Z.div_pos; lia|].
      apply Z.div_lt_upper_bound; [lia|].
      rewrite <- Z.pow_succ_r by lia. rewrite <- Nat2Z.inj_succ. lia. }
    change (digitsOf radix (S (S fuel)) n acc)
      with (if n / radix =? 0 then String (digitChar (n mod radix)) acc
            else digitsOf radix (S fuel) (n / radix) (String (digitChar (n mod radix)) acc)).
    assert (Er : readDigits radix (String (digitChar (n mod radix)) acc)
                 = n mod radix :: readDigits radix acc).
    { cbn [readDigits]. rewrite digitValue_digitChar by lia.
      assert (E : (n mod radix <? radix) = true) by (apply Z.ltb_lt; lia).
      rewrite E. reflexivity. }
    destruct (n / radix =? 0) eqn:E0.
    + apply Z.eqb_eq in E0. exists [n mod radix]. rewrite Er.
      split; [reflexivity|]. split; [discriminate|].
      unfold mathInt. cbn. pose proof (Z.div_mod n radix). lia.
    + destruct (IH (n / radix) (String (digitChar (n mod radix)) acc) Hq)
        as (ds & E & Hne & Hv).
      exists (ds ++ [n mod radix]). rewrite E, Er, <- app_assoc.
      split; [reflexivity|]. split; [destruct ds; discriminate|].
      unfold mathInt in *. rewrite fold_left_app, Hv. cbn.
      pose proof (Z.div_mod n radix). lia.
Qed.

Lemma allChars_digitsOf radix fuel n acc :
  2 <= radix <= 36 ->
  allChars (isDigitOf radix) acc = true ->
  allChars (isDigitOf radix) (digitsOf radix fuel n acc) = true.
Proof.
  intro Hr. revert n acc. induction fuel as [|fuel IH]; intros n acc Ha; [exact Ha|].
  assert (Hc : allChars (isDigitOf radix) (String (digitChar (n mod radix)) acc) = true).
  { cbn [allChars]. rewrite Ha, andb_true_r.
    apply isDigitOf_digitChar; [lia | apply Z.mod_pos_bound; lia]. }
  cbn [digitsOf]. destruct (n / radix =? 0); [exact Hc | apply IH; exact Hc].
Qed.

Lemma enough_digits radix n :
  2 <= radix -> 0 <= n -> n < radix ^ Z.of_nat (S (Z.to_nat (Z.log2 n))).
Proof.
  intros Hr Hn. rewrite Nat2Z.inj_succ, Z2Nat.id by apply Z.log2_nonneg.
  destruct (Z.eq_dec n 0) as [->|Hz].
  - apply Z.pow_pos_nonneg; [lia | cbn; lia].
  - pose proof (Z.log2_spec n ltac:(lia)) as [_ H].
    eapply Z.lt_le_trans; [exact H|].
    apply Z.pow_le_mono_l. lia.
Qed.

(** The string of a number that is not negative, in digits. *)
Lemma numberToString_digits radix n :
  2 <= radix <= 36 -> 0 <= n ->
  exists ds, readDigits radix (numberToString radix n) = ds /\ ds <> [] /\
             mathInt radix ds = n /\
             allChars (isDigitOf radix) (numberToString radix n) = true /\
             numberToString radix n <> ""%string.
Proof.
  intros Hr Hn. unfold numberToString.
  assert (E : (n <? 0) = false) by (apply Z.ltb_ge; lia). rewrite E.
  destruct (readDigits_digitsOf radix (Z.to_nat (Z.log2 n)) Hr n ""%string)
    as (ds & Eds & Hne & Hv).
  { split; [exact Hn | apply enough_digits; lia]. }
  exists ds. cbn [readDigits] in Eds. rewrite app_nil_r in Eds.
  split; [exact Eds|]. split; [exact Hne|]. split; [exact Hv|].
  split; [apply allChars_digitsOf; [exact Hr | reflexivity]|].
  intro E0. rewrite E0 in Eds. cbn in Eds. subst ds. apply Hne. reflexivity.
Qed.

Lemma trimStart_plain c t : plainDigit c = true -> trimStart (String c t) = String c t.
Proof.
  unfold plainDigit. rewrite !andb_true_iff, !negb_true_iff.
  intros (((((((((_ & _) & _) & _) & _) & _) & _) & _) & H1) & H2).
  apply Z.ltb_lt in H2.
  cbn [trimStart]. rewrite H1.
  destruct t as [|b u]; [reflexivity|].
  assert (E2 : space2 c b = false).
  { unfold space2. assert (E : (codeOf c =? 194) = false) by (apply Z.eqb_neq; lia).
    rewrite E. reflexivity. }
  rewrite E2. destruct u as [|d v]; [reflexivity|].
  assert (E3 : space3 c b d = false).
  { unfold space3. cbv zeta.
    assert (Ea : (codeOf c =? 225) = false) by (apply Z.eqb_neq; lia).
    assert (Eb : (codeOf c =? 226) = false) by (apply Z.eqb_neq; lia).
    assert (Ec : (codeOf c =? 227) = false) by (apply Z.eqb_neq; lia).
    assert (Ed : (codeOf c =? 239) = false) by (apply Z.eqb_neq; lia).
    rewrite Ea, Eb, Ec, Ed. reflexivity. }
  rewrite E3. reflexivity.
Qed.

(** [parseInt] on a string of digits, with the radix 16 or with none. *)
Lemma parseDigits_digits (s : string) (radix R : Z) :
  (radix = 16 /\ R = 16) \/ (radix = 0 /\ R = 10) ->
  allChars (isDigitOf R) s = true -> s <> ""%string ->
  parseDigits s radix = Some (mathInt R (readDigits R s)).
Proof.
  intros HR Hs Hne.
  destruct s as [|a t]; [congruence|].
  assert (Hs16 : allChars plainDigit (String a t) = true).
  { apply (allChars_weaken (isDigitOf R)); [|exact Hs].
    intros c Hc. apply hexDigit_plain. apply (isDigitOf_mono R); [lia | exact Hc]. }
  cbn [allChars] in Hs, Hs16. apply andb_true_iff in Hs, Hs16.
  destruct Hs as [Ha Ht], Hs16 as [Pa Pt].
  unfold parseDigits. cbv zeta.
  assert (Epre : match String a t with
                 | String a0 (String b _) =>
                   Ascii.eqb a0 "0" && (Ascii.eqb b "x" || Ascii.eqb b "X")
                 | _ => false
                 end = false).
  { destruct t as [|b u]; [reflexivity|].
    cbn [allChars] in Pt. apply andb_true_iff in Pt. destruct Pt as [Pb _].
    unfold plainDigit in Pb. rewrite !andb_true_iff, !negb_true_iff in Pb.
    destruct Pb as (((((((((_ & _) & _) & _) & _) & _) & Ex) & EX) & _) & _).
    rewrite Ex, EX, andb_false_r. reflexivity. }
  rewrite Epre, !andb_false_r.
  assert (Erd : exists d ds, readDigits R (String a t) = d :: ds).
  { cbn [readDigits]. unfold isDigitOf in Ha. destruct (digitValue a) as [d|]; [|discriminate].
    rewrite Ha. eauto. }
  destruct Erd as (d & ds & Erd).
  destruct HR as [[-> ->] | [-> ->]]; cbn [Z.eqb negb andb orb Z.ltb Z.compare];
    rewrite Erd; reflexivity.
Qed.

Lemma parseInt_digits (s : string) (radix R : Z) :
  (radix = 16 /\ R = 16) \/ (radix = 0 /\ R = 10) ->
  allChars (isDigitOf R) s = true -> s <> ""%string ->
  parseInt s radix = Some (mathInt R (readDigits R s)) /\
  parseInt (String "-" s) radix = Some (- mathInt R (readDigits R s)).
Proof.
  intros HR Hs Hne.
  pose proof (parseDigits_digits s radix R HR Hs Hne) as Hp.
  destruct s as [|a t]; [congruence|].
  assert (Pa : plainDigit a = true).
  { cbn [allChars] in Hs. apply andb_true_iff in Hs. destruct Hs as [Ha _].
    apply hexDigit_plain. apply (isDigitOf_mono R); [lia | exact Ha]. }
  pose proof Pa as Pa'. unfold plainDigit in Pa'.
  rewrite !andb_true_iff, !negb_true_iff in Pa'.
  destruct Pa' as (((((((((Em & Ep) & _) & _) & _) & _) & _) & _) & _) & _).
  split.
  - unfold parseInt. rewrite (trimStart_plain a t Pa). cbv zeta.
    rewrite Em, Ep. cbn [orb]. rewrite Hp. f_equal; lia.
  - assert (Et : trimStart (String "-" (String a t)) = String "-" (String a t)).
    { cbn [trimStart]. change (space1 "-") with false. cbv iota.
      change (space2 "-" a) with false. cbv iota.
      destruct t as [|b u]; [reflexivity|]. change (space3 "-" a b) with false.
      reflexivity. }
    unfold parseInt. rewrite Et. cbv zeta.
    change (Ascii.eqb "-" "-") with true. change (Ascii.eqb "-" "+") with false.
    cbn [orb]. cbv iota. rewrite Hp. f_equal; lia.
Qed.

Lemma readDigits_zeros radix k s :
  0 < radix ->
  readDigits radix (zeros k ++ s)%string = repeat 0 k ++ readDigits radix s.
Proof.
  intro Hr. induction k as [|k IH]; [reflexivity|].
  cbn [zeros append readDigits repeat app].
  change (digitValue "0") with (Some 0). cbv beta iota.
  assert (E : (0 <? radix) = true) by (apply Z.ltb_lt; lia).
  rewrite E, IH. reflexivity.
Qed.

Lemma mathInt_zeros radix k ds : mathInt radix (repeat 0 k ++ ds) = mathInt radix ds.
Proof.
  unfold mathInt. rewrite fold_left_app. f_equal.
  induction k as [|k IH]; [reflexivity|]. cbn [repeat fold_left].
  rewrite Z.mul_0_l, Z.add_0_l. exact IH.
Qed.

Lemma allChars_zeros radix k : 0 < radix -> allChars (isDigitOf radix) (zeros k) = true.
Proof.
  intro Hr. induction k as [|k IH]; [reflexivity|].
  cbn [zeros allChars]. rewrite IH, andb_true_r.
  unfold isDigitOf. change (digitValue "0") with (Some 0). apply Z.ltb_lt. lia.
Qed.

(** A row of four hexadecimal digits is read back as it was written. *)
Lemma parseRow_padStart n :
  0 <= n < 2 ^ 16 ->
  parseRow (padStart 4 (numberToString 16 n)) = n /\
  allChars (isDigitOf 16) (padStart 4 (numberToString 16 n)) = true /\
  padStart 4 (numberToString 16 n) <> ""%string.
Proof.
  intros [Hn Hhi].
  destruct (numberToString_digits 16 n ltac:(lia) Hn) as (ds & Eds & Hne & Hv & Hall & Hs).
  assert (Hall' : allChars (isDigitOf 16) (padStart 4 (numberToString 16 n)) = true).
  { unfold padStart. rewrite allChars_app, Hall, allChars_zeros by lia. reflexivity. }
  assert (Hs' : padStart 4 (numberToString 16 n) <> ""%string).
  { unfold padStart. destruct (zeros _); cbn [append]; [exact Hs | discriminate]. }
  split; [|split; assumption].
  unfold parseRow.
  destruct (parseInt_digits _ 16 16 ltac:(left; split; reflexivity) Hall' Hs') as [Hp _].
  rewrite Hp.
  unfold padStart. rewrite readDigits_zeros, mathInt_zeros, Eds, Hv by lia.
  unfold nearestDouble. cbv zeta.
  assert (El : (Z.log2 (Z.abs n) <=? 52) = true).
  { apply Z.leb_le. rewrite Z.abs_eq by lia.
    destruct (Z.eq_dec n 0) as [->|Hz]; [cbn; lia|].
    assert (Z.log2 n < 16) by (apply Z.log2_lt_pow2; lia). lia. }
  rewrite El. reflexivity.
Qed.

(** A tempo is read back as the template wrote it. *)
Lemma parseInt_numberToString n :
  parseInt (numberToString 10 n) 0 = Some n /\
  allChars (fun c => isDigitOf 10 c || Ascii.eqb c "-") (numberToString 10 n) = true /\
  numberToString 10 n <> ""%string.
Proof.
  destruct (Z.ltb_spec n 0) as [Hneg | Hpos].
  - destruct (numberToString_digits 10 (- n) ltac:(lia) ltac:(lia))
      as (ds & Eds & Hne & Hv & Hall & Hs).
    assert (E : numberToString 10 n = String "-" (numberToString 10 (- n))).
    { unfold numberToString.
      assert (E1 : (n <? 0) = true) by (apply Z.ltb_lt; lia).
      assert (E2 : (- n <? 0) = false) by (apply Z.ltb_ge; lia).
      rewrite E1, E2. reflexivity. }
    rewrite E. split; [|split; [|discriminate]].
    + destruct (parseInt_digits _ 0 10 ltac:(right; split; reflexivity) Hall Hs) as [_ Hp].
      rewrite Hp, Eds, Hv. f_equal; lia.
    + cbn [allChars]. change (Ascii.eqb "-" "-") with true. rewrite orb_true_r.
      cbn [andb]. apply (allChars_weaken (isDigitOf 10)); [|exact Hall].
      intros c Hc. rewrite Hc. reflexivity.
  - destruct (numberToString_digits 10 n ltac:(lia) Hpos)
      as (ds & Eds & Hne & Hv & Hall & Hs).
    split; [|split; [|exact Hs]].
    + destruct (parseInt_digits _ 0 10 ltac:(right; split; reflexivity) Hall Hs) as [Hp _].
      rewrite Hp, Eds, Hv. reflexivity.
    + apply (allChars_weaken (isDigitOf 10)); [|exact Hall].
      intros c Hc. rewrite Hc. reflexivity.
Qed.

Lemma append_assoc (a b c : string) : ((a ++ b) ++ c = a ++ (b ++ c))%string.
Proof. induction a as [|x a IH]; cbn [append]; [reflexivity | rewrite IH; reflexivity]. Qed.

Lemma splitOn_plain sep s :
  allChars (fun c => negb (Ascii.eqb c sep)) s = true -> splitOn sep s = [s].
Proof.
  induction s as [|c s IH]; cbn [allChars splitOn]; [reflexivity|].
  rewrite andb_true_iff, negb_true_iff. intros [H1 H2].
  rewrite H1, (IH H2). reflexivity.
Qed.

Lemma splitOn_app sep a b :
  allChars (fun c => negb (Ascii.eqb c sep)) a = true ->
  splitOn sep (a ++ String sep b)%string = a :: splitOn sep b.
Proof.
  induction a as [|c a IH]; cbn [allChars append splitOn].
  - intros _. rewrite Ascii.eqb_refl. reflexivity.
  - rewrite andb_true_iff, negb_true_iff. intros [H1 H2].
    rewrite H1, (IH H2). reflexivity.
Qed.

Lemma plusToSpace_plain s :
  allChars (fun c => negb (Ascii.eqb c "+")) s = true -> plusToSpace s = s.
Proof.
  induction s as [|c s IH]; cbn [allChars plusToSpace]; [reflexivity|].
  rewrite andb_true_iff, negb_true_iff. intros [H1 H2].
  rewrite H1, (IH H2). reflexivity.
Qed.

Lemma percentDecode_plain s :
  allChars (fun c => negb (Ascii.eqb c "%")) s = true -> percentDecode s = s.
Proof.
  induction s as [|c s IH]; cbn [allChars percentDecode]; [reflexivity|].
  rewrite andb_true_iff, negb_true_iff. intros [H1 H2].
  rewrite H1, (IH H2). reflexivity.
Qed.

Lemma linkChar_hashSafe c : linkChar c = true -> hashSafe c = true.
Proof.
  destruct c as [[] [] [] [] [] [] [] []]; vm_compute; intro H;
    first [reflexivity | discriminate H].
Qed.

Lemma decimal_linkChar c : isDigitOf 10 c || Ascii.eqb c "-" = true -> linkChar c = true.
Proof.
  destruct c as [[] [] [] [] [] [] [] []]; vm_compute; intro H;
    first [reflexivity | discriminate H].
Qed.

(** A value of a link comes out of [URLSearchParams] as it went in. *)
Lemma value_survives s :
  allChars linkChar s = true -> percentDecode (plusToSpace s) = s.
Proof.
  intro H.
  assert (Hs : allChars hashSafe s = true)
    by (apply (allChars_weaken linkChar); [apply linkChar_hashSafe | exact H]).
  rewrite plusToSpace_plain, percentDecode_plain; [reflexivity | |];
    (apply (allChars_weaken hashSafe); [|exact Hs]);
    intros c Hc; unfold hashSafe in Hc; rewrite !andb_true_iff in Hc; tauto.
Qed.

(** The two values of the hash that [encodePatternToURL] writes. *)
Lemma params_of_link (P B : string) :
  allChars linkChar P = true -> allChars linkChar B = true ->
  getParam "pattern" (URLSearchParams ("pattern=" ++ P ++ "&bpm=" ++ B)) = Some P /\
  getParam "bpm" (URLSearchParams ("pattern=" ++ P ++ "&bpm=" ++ B)) = Some B.
Proof.
  intros HP HB.
  assert (HPs : allChars hashSafe P = true)
    by (apply (allChars_weaken linkChar); [apply linkChar_hashSafe | exact HP]).
  assert (HBs : allChars hashSafe B = true)
    by (apply (allChars_weaken linkChar); [apply linkChar_hashSafe | exact HB]).
  assert (Hamp : forall s, allChars hashSafe s = true ->
                           allChars (fun c => negb (Ascii.eqb c "&")) s = true).
  { intros s Hs. apply (allChars_weaken hashSafe); [|exact Hs].
    intros c Hc. unfold hashSafe in Hc. rewrite !andb_true_iff in Hc. tauto. }
  assert (Heq : forall s, allChars hashSafe s = true ->
                          allChars (fun c => negb (Ascii.eqb c "=")) s = true).
  { intros s Hs. apply (allChars_weaken hashSafe); [|exact Hs].
    intros c Hc. unfold hashSafe in Hc. rewrite !andb_true_iff in Hc. tauto. }
  assert (Esplit : splitOn "&" ("pattern=" ++ P ++ "&bpm=" ++ B)
                   = [("pattern=" ++ P)%string; ("bpm=" ++ B)%string]).
  { change ("pattern=" ++ P ++ "&bpm=" ++ B)%string
      with ("pattern=" ++ (P ++ String "&" ("bpm=" ++ B)))%string.
    rewrite <- append_assoc, splitOn_app.
    - rewrite splitOn_plain; [reflexivity|].
      cbn [append allChars]. rewrite (Hamp B HBs). reflexivity.
    - rewrite allChars_app, (Hamp P HPs). reflexivity. }
  unfold URLSearchParams.
  change (match ("pattern=" ++ P ++ "&bpm=" ++ B)%string with
          | String c t => if Ascii.eqb c "?" then t else ("pattern=" ++ P ++ "&bpm=" ++ B)%string
          | EmptyString => ("pattern=" ++ P ++ "&bpm=" ++ B)%string
          end) with ("pattern=" ++ P ++ "&bpm=" ++ B)%string.
  rewrite Esplit. cbn [flat_map app].
  change (emptyb ("pattern=" ++ P)) with false.
  change (emptyb ("bpm=" ++ B)) with false. cbv iota.
  change (nameValue ("pattern=" ++ P)) with (let (n, v) := nameValue (String "=" P) in
           (("pattern" ++ n)%string, v)).
  change (nameValue ("bpm=" ++ B)) with (let (n, v) := nameValue (String "=" B) in
           (("bpm" ++ n)%string, v)).
  cbn [nameValue]. change (Ascii.eqb "=" "=") with true. cbv iota beta.
  cbn [append].
  rewrite (value_survives P HP), (value_survives B HB).
  split; reflexivity.
Qed.

(** ** The rows of a link *)

Lemma rowBits_fold (g : list (list bool)) (row : nat) (l : list nat) (acc n : Z) :
  0 <= n ->
  Z.testbit
    (fold_left (fun rowBits col =>
       if gridCell g row col then Z.lor rowBits (Z.shiftl 1 (Z.of_nat (15 - col)))
       else rowBits) l acc) n
  = Z.testbit acc n ||
    existsb (fun col => gridCell g row col && (Z.of_nat (15 - col) =? n)) l.
Proof.
  intro Hn. revert acc. induction l as [|col l IH]; intro acc; cbn [fold_left existsb].
  - rewrite orb_false_r. reflexivity.
  - rewrite IH. destruct (gridCell g row col); cbn [andb orb]; [|reflexivity].
    rewrite Z.lor_spec, Z.shiftl_1_l, Z.pow2_bits_eqb by lia.
    rewrite orb_assoc. reflexivity.
Qed.

Lemma rowBits_bound (g : list (list bool)) (row : nat) (l : list nat) (acc : Z) :
  0 <= acc < 2 ^ 16 ->
  0 <= fold_left (fun rowBits col =>
         if gridCell g row col then Z.lor rowBits (Z.shiftl 1 (Z.of_nat (15 - col)))
         else rowBits) l acc < 2 ^ 16.
Proof.
  revert acc. induction l as [|col l IH]; intros acc Hacc; cbn [fold_left]; [exact Hacc|].
  apply IH. destruct (gridCell g row col); [|exact Hacc].
  rewrite Z.shiftl_1_l.
  assert (Hp : 0 < 2 ^ Z.of_nat (15 - col)) by (apply Z.pow_pos_nonneg; lia).
  assert (Hl : Z.log2 (2 ^ Z.of_nat (15 - col)) = Z.of_nat (15 - col))
    by (apply Z.log2_pow2; lia).
  split; [apply Z.lor_nonneg; lia|].
  assert (H0 : 0 <= Z.lor acc (2 ^ Z.of_nat (15 - col))) by (apply Z.lor_nonneg; lia).
  assert (Hne : Z.lor acc (2 ^ Z.of_nat (15 - col)) <> 0).
  { intro E. apply Z.lor_eq_0_iff in E. lia. }
  apply Z.log2_lt_pow2; [lia|].
  rewrite Z.log2_lor by lia. rewrite Hl.
  destruct (Z.eq_dec acc 0) as [->|Hz]; [cbn [Z.log2]; lia|].
  assert (Z.log2 acc < 16) by (apply Z.log2_lt_pow2; lia). lia.
Qed.

(** The bits of a row of the link are its cells, the first column in the
    highest of sixteen bits. *)
Lemma rowBitsOf_spec (g : list (list bool)) (row : nat) :
  0 <= rowBitsOf g row < 2 ^ 16 /\
  forall col, (col < 16)%nat ->
              Z.testbit (rowBitsOf g row) (Z.of_nat (15 - col)) = gridCell g row col.
Proof.
  split; [apply rowBits_bound; lia|].
  intros col Hcol. unfold rowBitsOf. rewrite rowBits_fold by lia.
  rewrite Z.testbit_0_l, orb_false_l.
  destruct (gridCell g row col) eqn:E.
  - apply existsb_exists. exists col. split; [apply in_seq; lia|].
    rewrite E, Z.eqb_refl. reflexivity.
  - apply not_true_is_false. intro H. apply existsb_exists in H.
    destruct H as (c & Hc & H). apply in_seq in Hc.
    apply andb_true_iff in H. destruct H as [H1 H2]. apply Z.eqb_eq in H2.
    assert (c = col) by lia. subst c. congruence.
Qed.

(** ** What the loader writes *)

Lemma urlCell_cells (rows : list Z) (V : nat -> nat -> Prop) (row col : nat) (s : Game) :
  (forall r c, gridCell (grid s) r c = true <-> V r c /\ urlBit rows r c = true) ->
  forall r c, gridCell (grid (urlCell rows row col s)) r c = true
              <-> ((r, c) = (row, col) \/ V r c) /\ urlBit rows r c = true.
Proof.
  intros H r c. unfold urlCell. fold (urlBit rows row col).
  destruct (urlBit rows row col) eqn:Eb.
  - cbn [grid set_aliens set_grid]. rewrite gridCell_setCell.
    destruct (Nat.eqb row r && Nat.eqb col c) eqn:E.
    + apply andb_true_iff in E. destruct E as [E1 E2].
      apply Nat.eqb_eq in E1, E2. subst r c. split; [|reflexivity].
      intros _. split; [left; reflexivity | exact Eb].
    + rewrite H. split.
      * intros [H1 H2]. split; [right; exact H1 | exact H2].
      * intros [[E' | H1] H2]; [|split; assumption].
        injection E' as -> ->. rewrite !Nat.eqb_refl in E. discriminate.
  - rewrite H. split.
    + intros [H1 H2]. split; [right; exact H1 | exact H2].
    + intros [[E' | H1] H2]; [|split; assumption].
      injection E' as -> ->. congruence.
Qed.

(** The cells that a pattern of three rows or more sets are the bits of
    its first three rows. *)
Lemma loadUrlPattern_cells (rows : list Z) (st : Game) (r c : nat) :
  (3 <= length rows)%nat ->
  gridCell (grid (loadUrlPattern (Some rows) st)) r c = true
  <-> ((r < 3)%nat /\ (c < 16)%nat) /\ urlBit rows r c = true.
Proof.
  intro H3. unfold loadUrlPattern.
  assert (E3 : (3 <=? length rows)%nat = true) by (apply Nat.leb_le; exact H3).
  rewrite E3. cbv zeta.
  replace (Nat.min (length rows) 3) with 3%nat by lia.
  set (s0 := clearGrid st).
  assert (H0 : forall r c, gridCell (grid s0) r c = true
                           <-> (In r (@nil nat) /\ (c < 16)%nat) /\ urlBit rows r c = true).
  { intros r' c'. unfold s0, clearGrid. cbn [grid set_alienBudget set_aliens set_grid].
    rewrite gridCell_emptyGrid. split; [discriminate | intros [[[] _] _]]. }
  clearbody s0.
  pose proof (fold_left_visit
                (fun s drows => forall r c, gridCell (grid s) r c = true
                                <-> (In r drows /\ (c < 16)%nat) /\ urlBit rows r c = true)
                (fun st row =>
                   fold_left (fun st col => urlCell rows row col st) (upto 16) st)
                (upto 3) s0 []) as Hfold.
  cbv beta in Hfold.
  assert (Hall : forall r c,
             gridCell (grid (fold_left (fun st row =>
                fold_left (fun st col => urlCell rows row col st) (upto 16) st)
                (upto 3) s0)) r c = true
             <-> (In r (rev (upto 3) ++ []) /\ (c < 16)%nat) /\ urlBit rows r c = true).
  { apply Hfold; [ | apply seq_NoDup | intros x _ [] | exact H0].
    intros s drows row Hs Hrow Hin.
    pose proof (fold_left_visit
                  (fun s' dcols => forall r c, gridCell (grid s') r c = true
                     <-> ((r = row /\ In c dcols) \/ (In r drows /\ (c < 16)%nat))
                         /\ urlBit rows r c = true)
                  (fun st col => urlCell rows row col st)
                  (upto 16) s []) as Hinner.
    cbv beta in Hinner.
    assert (Hrow16 : forall r c,
               gridCell (grid (fold_left (fun st col => urlCell rows row col st)
                                 (upto 16) s)) r c = true
               <-> ((r = row /\ In c (rev (upto 16) ++ []))
                    \/ (In r drows /\ (c < 16)%nat)) /\ urlBit rows r c = true).
    { apply Hinner; [ | apply seq_NoDup | intros x _ [] | ].
      - intros s' dcols col Hs' Hcol Hcin r' c'.
        rewrite (urlCell_cells rows
                   (fun r c => (r = row /\ In c dcols) \/ (In r drows /\ (c < 16)%nat))
                   row col s' Hs').
        split; intros [HV Hb]; (split; [|exact Hb]).
        + destruct HV as [E | [[-> Hc] | Hd]].
          * injection E as -> ->. left. split; [reflexivity | left; reflexivity].
          * left. split; [reflexivity | right; exact Hc].
          * right. exact Hd.
        + destruct HV as [[-> [<- | Hc]] | Hd].
          * left. reflexivity.
          * right. left. split; [reflexivity | exact Hc].
          * right. right. exact Hd.
      - intros r' c'. rewrite Hs. split; intros [HV Hb]; (split; [|exact Hb]).
        + right. exact HV.
        + destruct HV as [[_ []] | HV]. exact HV. }
    intros r' c'. rewrite Hrow16. rewrite app_nil_r, <- in_rev. unfold upto.
    rewrite in_seq. cbn [In].
    split; intros [HV Hb]; (split; [|exact Hb]).
    + destruct HV as [[-> Hc] | [Hd Hc]]; [split; [left; reflexivity | lia]|].
      split; [right; exact Hd | exact Hc].
    + destruct HV as [[<- | Hd] Hc]; [left; split; [reflexivity | lia]|].
      right. split; assumption. }
  rewrite Hall. rewrite app_nil_r, <- in_rev. unfold upto. rewrite in_seq.
  split; intros [[Hr Hc] Hb]; (split; [split; [lia | exact Hc] | exact Hb]).
Qed.

(** A game is constructed with the grid and the aliens of the pattern of
    its link; nothing else of the new game changes. *)
Lemma loadUrlPattern_writes (pattern : option (list Z)) :
  exists g a, loadUrlPattern pattern newGame = set_aliens a (set_grid g newGame).
Proof.
  unfold loadUrlPattern. destruct pattern as [rows|];
    [|exists (grid newGame), (aliens newGame); reflexivity].
  destruct (3 <=? length rows)%nat;
    [|exists (grid newGame), (aliens newGame); reflexivity].
  cbv zeta.
  apply (fold_left_invariant
           (fun s => exists g a, s = set_aliens a (set_grid g newGame))).
  - intros s row Hs.
    apply (fold_left_invariant
             (fun s => exists g a, s = set_aliens a (set_grid g newGame))); [|exact Hs].
    intros s' col (g & a & ->). unfold urlCell.
    destruct (Z.testbit _ _); [|eauto].
    cbv zeta. do 2 eexists. reflexivity.
  - exists (emptyGrid 3 gridCols), []. reflexivity.
Qed.

Lemma emptyb_false s : s <> ""%string -> emptyb s = false.
Proof. destruct s; [congruence | reflexivity]. Qed.

Lemma emptyb_app a c b : emptyb (a ++ String c b) = false.
Proof. destruct a; reflexivity. Qed.

Lemma hexDigits_linkChar s :
  allChars (isDigitOf 16) s = true ->
  allChars linkChar s = true /\ allChars (fun c => negb (Ascii.eqb c "-")) s = true.
Proof.
  intro H. split.
  - apply (allChars_weaken (isDigitOf 16)); [|exact H].
    intros c Hc. unfold linkChar. rewrite Hc. reflexivity.
  - apply (allChars_weaken (isDigitOf 16)); [|exact H].
    intros c Hc. apply hexDigit_plain in Hc. unfold plainDigit in Hc.
    rewrite !andb_true_iff in Hc. tauto.
Qed.

(** What [loadUrlBpm] leaves of a game that [loadUrlPattern] has built. *)
Lemma loadUrlBpm_newGame (urlBpm : option Z) (g : list (list bool)) (a : list Alien) :
  let st' := loadUrlBpm urlBpm (set_aliens a (set_grid g newGame)) in
  grid st' = g /\ aliens st' = a /\ gridRows st' = 3%nat /\
  alienBudget st' = 8 /\ alienBudgetMax st' = 8 /\ currentWave st' = 1 /\
  60 <= bpm st' <= 200 /\
  stepInterval st' = stepIntervalOf (bpm st') /\
  match urlBpm with
  | Some b =>
    if (60 <=? b) && (b <=? 200)
    then bpm st' = b /\
         d_speed (defender st') = zq (Qround_js (5 * speedScale b))
    else bpm st' = 120 /\ d_speed (defender st') = 5%Q
  | None => bpm st' = 120 /\ d_speed (defender st') = 5%Q
  end.
Proof.
  unfold loadUrlBpm. destruct urlBpm as [b|].
  - destruct ((60 <=? b) && (b <=? 200)) eqn:E.
    + apply andb_true_iff in E. destruct E as [E1 E2].
      apply Z.leb_le in E1, E2. cbv zeta.
      repeat split; try reflexivity; cbn; lia.
    + cbv zeta. repeat split; try reflexivity; cbn; lia.
  - cbv zeta. repeat split; try reflexivity; cbn; lia.
Qed.

(** The game that a link constructs. *)
Lemma loadPatternFromHash_steps (hash : string) :
  exists pattern urlBpm,
    loadPatternFromHash hash newGame = loadPatternFromURL pattern urlBpm newGame.
Proof.
  unfold loadPatternFromHash. destruct (emptyb hash).
  - exists None, None. reflexivity.
  - cbv zeta. do 2 eexists. reflexivity.
Qed.

(** X19.  A link written by [encodePatternToURL] brings the pattern back:
    the game that the page constructs from the hash has the first three
    rows of the grid that was shared, three rows in all, and the budget of
    a new game whatever the cells cost.  It has the tempo that was shared
    when that is between 60 and 200, with the speed of the defender that
    goes with it, and the tempo 120 of a new game otherwise. *)
Theorem shared_link_restores_the_pattern (st : Game) :
  gridShape st ->
  exists hash,
    encodePatternToURL st = Some hash /\
    (forall row col,
       gridCell (grid (loadPatternFromHash hash newGame)) row col
       = (row <? 3)%nat && gridCell (grid st) row col) /\
    gridRows (loadPatternFromHash hash newGame) = 3%nat /\
    alienBudget (loadPatternFromHash hash newGame) = 8 /\
    (if (60 <=? bpm st) && (bpm st <=? 200)
     then bpm (loadPatternFromHash hash newGame) = bpm st /\
          d_speed (defender (loadPatternFromHash hash newGame))
          = zq (Qround_js (5 * speedScale (bpm st)))
     else bpm (loadPatternFromHash hash newGame) = 120 /\
          d_speed (defender (loadPatternFromHash hash newGame)) = 5%Q) /\
    stepInterval (loadPatternFromHash hash newGame)
    = stepIntervalOf (bpm (loadPatternFromHash hash newGame)).
Proof.
  intros (Hlen & Hcols & Hrows).
  assert (H3 : (3 <=? length (grid st))%nat = true).
  { apply Nat.leb_le. destruct Hrows as [E | E]; rewrite Hlen, E; lia. }
  unfold encodePatternToURL. rewrite H3. cbv zeta.
  cbn [upto seq map join].
  set (r0 := rowBitsOf (grid st) 0). set (r1 := rowBitsOf (grid st) 1).
  set (r2 := rowBitsOf (grid st) 2).
  destruct (rowBitsOf_spec (grid st) 0) as [Hb0 Hc0].
  destruct (rowBitsOf_spec (grid st) 1) as [Hb1 Hc1].
  destruct (rowBitsOf_spec (grid st) 2) as [Hb2 Hc2].
  fold r0 in Hb0, Hc0. fold r1 in Hb1, Hc1. fold r2 in Hb2, Hc2.
  destruct (parseRow_padStart r0 Hb0) as (Hp0 & Hd0 & _).
  destruct (parseRow_padStart r1 Hb1) as (Hp1 & Hd1 & _).
  destruct (parseRow_padStart r2 Hb2) as (Hp2 & Hd2 & _).
  set (h0 := padStart 4 (numberToString 16 r0)) in *.
  set (h1 := padStart 4 (numberToString 16 r1)) in *.
  set (h2 := padStart 4 (numberToString 16 r2)) in *.
  destruct (hexDigits_linkChar h0 Hd0) as [Hl0 Hm0].
  destruct (hexDigits_linkChar h1 Hd1) as [Hl1 Hm1].
  destruct (hexDigits_linkChar h2 Hd2) as [Hl2 Hm2].
  destruct (parseInt_numberToString (bpm st)) as (HpB & HdB & HneB).
  set (B := numberToString 10 (bpm st)) in *.
  set (P := (h0 ++ "-" ++ h1 ++ "-" ++ h2)%string).
  assert (HlP : allChars linkChar P = true).
  { unfold P. rewrite !allChars_app, Hl0, Hl1, Hl2. reflexivity. }
  assert (HlB : allChars linkChar B = true).
  { apply (allChars_weaken (fun c => isDigitOf 10 c || Ascii.eqb c "-"));
      [apply decimal_linkChar | exact HdB]. }
  destruct (params_of_link P B HlP HlB) as [EP EB].
  assert (Esplit : splitOn "-" P = [h0; h1; h2]).
  { unfold P. change ("-" ++ h1 ++ "-" ++ h2)%string
      with (String "-" (h1 ++ String "-" h2)).
    rewrite (splitOn_app "-" h0 _ Hm0), (splitOn_app "-" h1 _ Hm1),
      (splitOn_plain "-" h2 Hm2). reflexivity. }
  assert (EmP : emptyb P = false).
  { unfold P. change ("-" ++ h1 ++ "-" ++ h2)%string
      with (String "-" (h1 ++ String "-" h2)). apply emptyb_app. }
  assert (Eload : loadPatternFromHash ("pattern=" ++ P ++ "&bpm=" ++ B) newGame
                  = loadPatternFromURL (Some [r0; r1; r2]) (Some (bpm st)) newGame).
  { unfold loadPatternFromHash.
    change (emptyb ("pattern=" ++ P ++ "&bpm=" ++ B)) with false. cbv zeta iota.
    rewrite EP, EB, EmP, (emptyb_false B HneB), Esplit, HpB.
    cbn [map]. rewrite Hp0, Hp1, Hp2. reflexivity. }
  exists ("pattern=" ++ P ++ "&bpm=" ++ B)%string.
  split; [reflexivity|].
  rewrite Eload. unfold loadPatternFromURL.
  destruct (loadUrlPattern_writes (Some [r0; r1; r2])) as (g & a & Ew).
  pose proof (loadUrlPattern_cells [r0; r1; r2] newGame) as Hcells.
  rewrite Ew in Hcells. cbn [grid set_aliens set_grid] in Hcells.
  rewrite Ew.
  destruct (loadUrlBpm_newGame (Some (bpm st)) g a)
    as (Eg & _ & Er & Ebud & _ & _ & _ & Estep & Ebpm).
  split.
  { intros row col. rewrite Eg. apply eq_true_iff_eq.
    rewrite Hcells by (cbn; lia).
    rewrite andb_true_iff, Nat.ltb_lt. unfold urlBit. split.
    - intros [[Hr Hc] Hbit]. split; [exact Hr|].
      destruct row as [|[|[|row]]]; [| | |lia]; cbn [nth] in Hbit;
        [rewrite <- (Hc0 col Hc) | rewrite <- (Hc1 col Hc) | rewrite <- (Hc2 col Hc)];
        exact Hbit.
    - intros [Hr Hcell].
      assert (Hc : (col < 16)%nat).
      { destruct (Nat.lt_ge_cases col 16) as [Hlt | Hge]; [exact Hlt|].
        rewrite (gridCell_outside_cols (grid st) row col Hcols) in Hcell
          by (unfold gridCols; lia).
        discriminate. }
      split; [split; assumption|].
      destruct row as [|[|[|row]]]; [| | |lia]; cbn [nth];
        [rewrite (Hc0 col Hc) | rewrite (Hc1 col Hc) | rewrite (Hc2 col Hc)];
        exact Hcell. }
  split; [exact Er|]. split; [exact Ebud|]. split; [|exact Estep].
  destruct ((60 <=? bpm st) && (bpm st <=? 200)); exact Ebpm.
Qed.

Lemma shared_link_restores_the_pattern_witness :
  exists hash,
    encodePatternToURL spentGame = Some hash /\
    (forall row col,
       gridCell (grid (loadPatternFromHash hash newGame)) row col
       = (row <? 3)%nat && gridCell (grid spentGame) row col) /\
    gridRows (loadPatternFromHash hash newGame) = 3%nat /\
    alienBudget (loadPatternFromHash hash newGame) = 8 /\
    (if (60 <=? bpm spentGame) && (bpm spentGame <=? 200)
     then bpm (loadPatternFromHash hash newGame) = bpm spentGame /\
          d_speed (defender (loadPatternFromHash hash newGame))
          = zq (Qround_js (5 * speedScale (bpm spentGame)))
     else bpm (loadPatternFromHash hash newGame) = 120 /\
          d_speed (defender (loadPatternFromHash hash newGame)) = 5%Q) /\
    stepInterval (loadPatternFromHash hash newGame)
    = stepIntervalOf (bpm (loadPatternFromHash hash newGame)).
Proof.
  apply (shared_link_restores_the_pattern spentGame).
  unfold gridShape. split; [reflexivity|].
  split; [vm_compute; repeat constructor | left; reflexivity].
Defined.

Lemma loadUrlBpm_grid (urlBpm : option Z) (st : Game) :
  grid (loadUrlBpm urlBpm st) = grid st.
Proof.
  unfold loadUrlBpm. destruct urlBpm as [b|]; [|reflexivity].
  destruct (_ && _); reflexivity.
Qed.

(** X20.  Whatever the hash of the page holds, the game that is
    constructed from it is well formed: its aliens are the occupied cells
    of a grid of three rows, it is at wave 1 with the budget 8 of 8
    untouched by the cells of the link, and its tempo is between 60 and
    200 with the step interval of that tempo.  A cell is occupied only
    when the hash has a pattern of three rows or more, and then it is a
    bit of one of the first three rows. *)
Theorem link_never_breaks_the_game (hash : string) :
  reachable (loadPatternFromHash hash newGame) /\
  wellFormed (loadPatternFromHash hash newGame) /\
  gridRows (loadPatternFromHash hash newGame) = 3%nat /\
  currentWave (loadPatternFromHash hash newGame) = 1 /\
  alienBudget (loadPatternFromHash hash newGame) = 8 /\
  alienBudgetMax (loadPatternFromHash hash newGame) = 8 /\
  60 <= bpm (loadPatternFromHash hash newGame) <= 200 /\
  stepInterval (loadPatternFromHash hash newGame)
  = stepIntervalOf (bpm (loadPatternFromHash hash newGame)) /\
  (forall row col,
     gridCell (grid (loadPatternFromHash hash newGame)) row col = true ->
     exists p, getParam "pattern" (URLSearchParams hash) = Some p /\
               (3 <= length (splitOn "-" p))%nat /\
               (row < 3)%nat /\ (col < 16)%nat /\
               urlBit (map parseRow (splitOn "-" p)) row col = true).
Proof.
  destruct (loadPatternFromHash_steps hash) as (pattern & urlBpm & E).
  split; [rewrite E; apply reach_url|].
  split; [rewrite E; apply loadPatternFromURL_wellFormed, wellFormed_newGame|].
  assert (Hrest : gridRows (loadPatternFromHash hash newGame) = 3%nat /\
                  currentWave (loadPatternFromHash hash newGame) = 1 /\
                  alienBudget (loadPatternFromHash hash newGame) = 8 /\
                  alienBudgetMax (loadPatternFromHash hash newGame) = 8 /\
                  60 <= bpm (loadPatternFromHash hash newGame) <= 200 /\
                  stepInterval (loadPatternFromHash hash newGame)
                  = stepIntervalOf (bpm (loadPatternFromHash hash newGame))).
  { rewrite E. unfold loadPatternFromURL.
    destruct (loadUrlPattern_writes pattern) as (g & a & Ew). rewrite Ew.
    destruct (loadUrlBpm_newGame urlBpm g a)
      as (_ & _ & Er & Ebud & Emax & Ewave & Ebpm & Estep & _).
    repeat split; try assumption; lia. }
  destruct Hrest as (H1 & H2 & H3 & H4 & H5 & H6).
  repeat (split; [assumption|]).
  intros row col. unfold loadPatternFromHash.
  destruct (emptyb hash);
    [change (grid newGame) with (emptyGrid 3 gridCols);
     rewrite gridCell_emptyGrid; discriminate|].
  cbv zeta. unfold loadPatternFromURL. rewrite loadUrlBpm_grid.
  destruct (getParam "pattern" (URLSearchParams hash)) as [p|];
    [|cbn [loadUrlPattern]; intro H; exfalso; revert H;
      change (grid newGame) with (emptyGrid 3 gridCols);
      rewrite gridCell_emptyGrid; discriminate].
  destruct (emptyb p);
    [cbn [loadUrlPattern]; intro H; exfalso; revert H;
     change (grid newGame) with (emptyGrid 3 gridCols);
     rewrite gridCell_emptyGrid; discriminate|].
  destruct (Nat.le_gt_cases 3 (length (map parseRow (splitOn "-" p)))) as [Hge | Hlt].
  - intro Hcell. apply (loadUrlPattern_cells _ newGame row col Hge) in Hcell.
    destruct Hcell as [[Hr Hc] Hbit].
    exists p. rewrite length_map in Hge. repeat split; assumption.
  - unfold loadUrlPattern.
    assert (El : (3 <=? length (map parseRow (splitOn "-" p)))%nat = false)
      by (apply Nat.leb_gt; exact Hlt).
    rewrite El. change (grid newGame) with (emptyGrid 3 gridCols).
    rewrite gridCell_emptyGrid. discriminate.
Qed.

(** ** The tutorial *)

Lemma skip_test (x y : Q) :
  Qleb (canvasWidth - 90) x && Qleb x (canvasWidth - 10) && Qleb 10 y && Qleb y 40 = true
  <-> onSkipButton x y.
Proof.
  unfold onSkipButton. rewrite !andb_true_iff, !Qleb_true. tauto.
Qed.

(** A click that misses the skip button turns one page of an open
    tutorial, and the third one closes it. *)
Lemma pageClick_advance storage rnd x y p :
  0 <= tutorialStep p -> ~ onSkipButton x y ->
  pageClick storage rnd x y p = Some (advanceTutorial storage p).
Proof.
  intros Hs Hmiss. unfold pageClick.
  assert (E : (0 <=? tutorialStep p) = true) by (apply Z.leb_le; lia). rewrite E.
  destruct (_ && _) eqn:Eb; [|reflexivity].
  exfalso. apply Hmiss. apply skip_test. exact Eb.
Qed.

Lemma pageClicks_tutorial storage rnd clicks :
  Forall (fun c => ~ onSkipButton (fst c) (snd c)) clicks ->
  forall p, 0 <= tutorialStep p <= 2 ->
  (tutorialStep p + Z.of_nat (length clicks) <= 3) ->
  exists p', pageClicks storage rnd clicks p = Some p' /\ game p' = game p /\
             tutorialStep p'
             = (if tutorialStep p + Z.of_nat (length clicks) =? 3 then -1
                else tutorialStep p + Z.of_nat (length clicks)) /\
             (tutorialStep p + Z.of_nat (length clicks) = 3 -> storage = true ->
              clicks <> [] -> tutorialSeen p' = Some "true"%string).
Proof.
  induction 1 as [|[x y] clicks Hmiss _ IH]; intros p Hs Hlen.
  - exists p. cbn [length pageClicks] in *. rewrite Z.add_0_r.
    split; [reflexivity|]. split; [reflexivity|]. split.
    + destruct (tutorialStep p =? 3) eqn:E; [|reflexivity].
      apply Z.eqb_eq in E. lia.
    + intros _ _ H. congruence.
  - cbn [length] in Hlen. rewrite Nat2Z.inj_succ in Hlen.
    cbn [pageClicks fst snd] in *.
    rewrite (pageClick_advance storage rnd x y p (proj1 Hs) Hmiss).
    unfold advanceTutorial.
    destruct (2 <=? tutorialStep p) eqn:E2.
    + apply Z.leb_le in E2.
      assert (Hnil : clicks = []) by (destruct clicks; [reflexivity | cbn [length] in Hlen; lia]).
      subst clicks. cbn [pageClicks length].
      assert (E3 : (tutorialStep p + Z.of_nat 1 =? 3) = true) by (apply Z.eqb_eq; lia).
      rewrite E3. eexists. split; [reflexivity|]. unfold skipTutorial.
      destruct storage; cbn; repeat split; auto; discriminate.
    + apply Z.leb_gt in E2.
      destruct (IH (mkPage (game p) (tutorialStep p + 1) (tutorialSeen p)))
        as (p' & E' & G' & S' & M'); cbn [tutorialStep game]; [lia | lia |].
      exists p'. split; [exact E'|]. split; [exact G'|].
      cbn [tutorialStep game] in S', M'. cbn [length]. rewrite Nat2Z.inj_succ.
      replace (tutorialStep p + Z.succ (Z.of_nat (length clicks)))
        with (tutorialStep p + 1 + Z.of_nat (length clicks)) by lia.
      split; [exact S'|].
      intros H3 Hst _. apply M'; [exact H3 | exact Hst|].
      intro En. subst clicks. cbn [length] in H3. lia.
Qed.

(** X21.  On a first visit the page opens at step 0 of its tutorial.
    The clicks on the canvas then turn its pages instead of reaching the
    game: up to three clicks that miss the skip button leave the game as
    it is, the third of them closes the tutorial, and a click on the skip
    button closes it at once.  A closed tutorial stays closed, its clicks
    go to the game, and when [localStorage] works the page opens without
    the tutorial from then on. *)
Theorem tutorial_takes_the_first_clicks (storage : bool) (rnd : nat -> nat -> Q)
  (clicks : list (Q * Q)) (seen : option string) (st : Game) :
  (seen = None \/ seen = Some ""%string) ->
  Forall (fun c => ~ onSkipButton (fst c) (snd c)) clicks ->
  (length clicks <= 3)%nat ->
  tutorialStep (openPage true seen st) = 0 /\
  (exists p', pageClicks storage rnd clicks (openPage true seen st) = Some p' /\
              game p' = st /\
              tutorialStep p' = (if Nat.eqb (length clicks) 3 then -1
                                 else Z.of_nat (length clicks)) /\
              (length clicks = 3%nat -> storage = true ->
               forall st', tutorialStep (openPage true (tutorialSeen p') st') = -1)) /\
  (forall x y p, 0 <= tutorialStep p -> onSkipButton x y ->
                 exists p', pageClick storage rnd x y p = Some p' /\
                            game p' = game p /\ tutorialStep p' = -1) /\
  (forall x y p p', tutorialStep p = -1 -> pageClick storage rnd x y p = Some p' ->
                    tutorialStep p' = -1 /\
                    canvasClick rnd x y (game p) = Some (game p')).
Proof.
  intros Hseen Hmiss Hlen.
  assert (Hopen : openPage true seen st = mkPage st 0 seen).
  { destruct Hseen as [-> | ->]; reflexivity. }
  split; [rewrite Hopen; reflexivity|]. split; [|split].
  - destruct (pageClicks_tutorial storage rnd clicks Hmiss (openPage true seen st))
      as (p' & E & G & S & M); rewrite ?Hopen; cbn [tutorialStep]; [lia | lia |].
    rewrite Hopen in E, G, S, M. cbn [tutorialStep game] in G, S, M.
    exists p'. split; [exact E|]. split; [exact G|]. split.
    + rewrite S. destruct (Nat.eqb_spec (length clicks) 3) as [E3 | E3].
      * rewrite E3. reflexivity.
      * destruct (0 + Z.of_nat (length clicks) =? 3) eqn:Ez; [|lia].
        apply Z.eqb_eq in Ez. lia.
    + intros H3 Hst st'. rewrite M; [reflexivity | lia | exact Hst|].
      intro En. subst clicks. discriminate H3.
  - intros x y p Hs Hon. unfold pageClick.
    assert (E : (0 <=? tutorialStep p) = true) by (apply Z.leb_le; lia). rewrite E.
    apply skip_test in Hon. rewrite Hon.
    eexists. split; [reflexivity|]. unfold skipTutorial. destruct storage; split; reflexivity.
  - intros x y p p' Hs. unfold pageClick. rewrite Hs. cbn [Z.leb Z.compare].
    destruct (canvasClick rnd x y (game p)) as [s|]; [|discriminate].
    intro E. injection E as <-. split; reflexivity.
Qed.

Lemma tutorial_takes_the_first_clicks_witness :
  tutorialStep (openPage true None newGame) = 0 /\
  (exists p', pageClicks true noDraw [(400, 130); (400, 130); (400, 130)]%Q
                (openPage true None newGame) = Some p' /\
              game p' = newGame /\
              tutorialStep p'
              = (if Nat.eqb (length [(400, 130); (400, 130); (400, 130)]%Q) 3 then -1
                 else Z.of_nat (length [(400, 130); (400, 130); (400, 130)]%Q)) /\
              (length [(400, 130); (400, 130); (400, 130)]%Q = 3%nat -> true = true ->
               forall st', tutorialStep (openPage true (tutorialSeen p') st') = -1)) /\
  (forall x y p, 0 <= tutorialStep p -> onSkipButton x y ->
                 exists p', pageClick true noDraw x y p = Some p' /\
                            game p' = game p /\ tutorialStep p' = -1) /\
  (forall x y p p', tutorialStep p = -1 -> pageClick true noDraw x y p = Some p' ->
                    tutorialStep p' = -1 /\
                    canvasClick noDraw x y (game p) = Some (game p')).
Proof.
  apply (tutorial_takes_the_first_clicks true noDraw
           [(400, 130); (400, 130); (400, 130)]%Q None newGame).
  - left. reflexivity.
  - repeat constructor; cbn [fst snd]; unfold onSkipButton, canvasWidth;
      intros (H1 & _); vm_compute in H1; apply H1; reflexivity.
  - cbn. lia.
Defined.

(** ** The cost of a preset *)

Lemma cellsCost_cons on x l :
  cellsCost on (x :: l) = (if on (fst x) (snd x) then costOf (fst x) else 0) + cellsCost on l.
Proof. reflexivity. Qed.

Lemma cellsCost_app on l l' : cellsCost on (l ++ l') = cellsCost on l + cellsCost on l'.
Proof.
  induction l as [|x l IH]; [reflexivity|].
  cbn [app]. rewrite !cellsCost_cons, IH. lia.
Qed.

Lemma cellsCost_rev on l : cellsCost on (rev l) = cellsCost on l.
Proof.
  induction l as [|x l IH]; [reflexivity|].
  cbn [rev]. rewrite cellsCost_app, IH, !cellsCost_cons. cbn [cellsCost fold_right]. lia.
Qed.

Lemma cellsCost_nonneg on l : 0 <= cellsCost on l.
Proof.
  induction l as [|x l IH]; [cbn; lia|].
  rewrite cellsCost_cons. pose proof (costOf_pos (fst x)). destruct (on _ _); lia.
Qed.

Lemma cellsCost_ext on on' l :
  (forall r c, In (r, c) l -> on r c = on' r c) -> cellsCost on l = cellsCost on' l.
Proof.
  induction l as [|[r c] l IH]; intro H; [reflexivity|].
  rewrite !cellsCost_cons. cbn [fst snd].
  rewrite (H r c) by (left; reflexivity).
  rewrite IH; [reflexivity|]. intros r' c' Hin. apply H. right. exact Hin.
Qed.

Lemma cellsCost_le on on' l :
  (forall r c, In (r, c) l -> on r c = true -> on' r c = true) ->
  cellsCost on l <= cellsCost on' l.
Proof.
  induction l as [|[r c] l IH]; intro H; [cbn; lia|].
  rewrite !cellsCost_cons. cbn [fst snd].
  assert (IH' : cellsCost on l <= cellsCost on' l).
  { apply IH. intros r' c' Hin. apply H. right. exact Hin. }
  pose proof (costOf_pos r).
  destruct (on r c) eqn:E.
  - rewrite (H r c) by (auto; left; reflexivity). lia.
  - destruct (on' r c); lia.
Qed.

(** The cost of a part of the cells is at most the cost of all of them. *)
Lemma cellsCost_incl on l :
  NoDup l -> forall l', incl l l' -> cellsCost on l <= cellsCost on l'.
Proof.
  induction 1 as [|x l Hx Hnd IH]; intros l' Hin.
  - apply cellsCost_nonneg.
  - destruct (in_split x l' (Hin x (or_introl eq_refl))) as (l1 & l2 & ->).
    rewrite cellsCost_app, !cellsCost_cons.
    assert (Hl : cellsCost on l <= cellsCost on (l1 ++ l2)).
    { apply IH. intros y Hy.
      assert (Hy' : In y (l1 ++ x :: l2)) by (apply Hin; right; exact Hy).
      apply in_app_iff in Hy'. apply in_app_iff.
      destruct Hy' as [Hy' | [Hy' | Hy']]; [left; exact Hy' | | right; exact Hy'].
      subst y. contradiction. }
    rewrite cellsCost_app in Hl. lia.
Qed.

Lemma presetCells_In rows r c :
  In (r, c) (presetCells rows) <-> (r < rows)%nat /\ (c < gridCols)%nat.
Proof.
  unfold presetCells. rewrite in_flat_map. split.
  - intros (col & Hcol & Hin). apply in_map_iff in Hin.
    destruct Hin as (row & E & Hrow). injection E as <- <-.
    unfold upto in *. rewrite in_seq in Hcol, Hrow. lia.
  - intros [Hr Hc]. exists c. split; [unfold upto; apply in_seq; lia|].
    apply in_map_iff. exists r. split; [reflexivity | unfold upto; apply in_seq; lia].
Qed.

Lemma NoDup_map_injective {A B : Type} (f : A -> B) (l : list A) :
  (forall a b, f a = f b -> a = b) -> NoDup l -> NoDup (map f l).
Proof.
  intros Hf. induction 1 as [|x l Hx Hl IH]; cbn [map]; constructor; [|exact IH].
  intro H. apply in_map_iff in H. destruct H as (y & E & Hy).
  apply Hf in E. subst y. contradiction.
Qed.

Lemma presetCells_NoDup rows : NoDup (presetCells rows).
Proof.
  unfold presetCells. apply NoDup_flat_map.
  - apply seq_NoDup.
  - intros col _. apply NoDup_map_injective; [|apply seq_NoDup].
    intros a b E. injection E as E. exact E.
  - intros col col' x _ _ H1 H2. apply in_map_iff in H1, H2.
    destruct H1 as (r1 & E1 & _), H2 as (r2 & E2 & _). subst x.
    injection E2 as _ E2. symmetry. exact E2.
Qed.

Lemma loadPresetCell_gridRows pattern col row s :
  gridRows (loadPresetCell pattern col row s) = gridRows s.
Proof.
  unfold loadPresetCell. destruct (patternCell pattern row col); [|reflexivity].
  destruct (_ <=? _); reflexivity.
Qed.

Lemma fold_left_map {A B : Type} (f : Game -> B -> Game) (g : A -> B) (l : list A) s :
  fold_left f (map g l) s = fold_left (fun st a => f st (g a)) l s.
Proof. revert s. induction l as [|a l IH]; intro s; [reflexivity | apply IH]. Qed.

(** The two loops of [loadPreset] as one loop over the cells. *)
Lemma loadPreset_cells pattern st :
  loadPreset pattern st
  = fold_left (fun s x => loadPresetCell pattern (snd x) (fst x) s)
              (presetCells (gridRows st)) (clearGrid st).
Proof.
  unfold loadPreset, presetCells. cbv zeta.
  assert (H0 : gridRows (clearGrid st) = gridRows st) by reflexivity.
  revert H0. generalize (clearGrid st) as s. generalize (upto gridCols) as cols.
  induction cols as [|col cols IH]; intros s Hs; [reflexivity|].
  cbn [fold_left flat_map]. rewrite fold_left_app, fold_left_map. cbn [fst snd].
  rewrite Hs. apply IH.
  apply (fold_left_invariant (fun s' => gridRows s' = gridRows st)); [|exact Hs].
  intros s' row Hs'. rewrite loadPresetCell_gridRows. exact Hs'.
Qed.

Lemma loadPresetCell_presetLoop pattern cap rows s done row col :
  presetLoop pattern cap rows s done -> ~ In (row, col) done ->
  In (row, col) (presetCells rows) ->
  presetLoop pattern cap rows (loadPresetCell pattern col row s) ((row, col) :: done).
Proof.
  intros (Ha & Hb & Hc & Hd & Hnd & Hinc) Hnew Hin.
  assert (Hoff : gridCell (grid s) row col = false).
  { destruct (gridCell (grid s) row col) eqn:E; [|reflexivity].
    destruct (Hc row col E) as [H _]. contradiction. }
  assert (Hnd' : NoDup ((row, col) :: done)) by (constructor; assumption).
  assert (Hinc' : incl ((row, col) :: done) (presetCells rows)).
  { intros y [<- | Hy]; [exact Hin | apply Hinc; exact Hy]. }
  assert (Hsame : patternCell pattern row col = false \/ alienBudget s < costOf row ->
                  presetLoop pattern cap rows s ((row, col) :: done)).
  { intros Hcase. split; [|split; [exact Hb|split; [|split; [|split; assumption]]]].
    - rewrite cellsCost_cons. cbn [fst snd]. rewrite Hoff. lia.
    - intros r c H. destruct (Hc r c H) as [H1 H2]. split; [right; exact H1 | exact H2].
    - intros Hcost r c [E | Hdone] Hp; [|apply Hd; assumption].
      injection E as <- <-. exfalso.
      destruct Hcase as [Hcase | Hcase]; [congruence|].
      assert (H1 : cellsCost (patternCell pattern) ((row, col) :: done)
                   <= presetCost pattern rows)
        by (apply cellsCost_incl; assumption).
      rewrite cellsCost_cons in H1. cbn [fst snd] in H1. rewrite Hp in H1.
      assert (H2 : cellsCost (gridCell (grid s)) done
                   <= cellsCost (patternCell pattern) done).
      { apply cellsCost_le. intros r c _ H. apply (Hc r c H). }
      lia. }
  unfold loadPresetCell.
  destruct (patternCell pattern row col) eqn:Ep;
    [|apply Hsame; left; reflexivity].
  destruct (costOf row <=? alienBudget s) eqn:El.
  - apply Z.leb_le in El. cbv zeta. unfold presetLoop.
    cbn [grid alienBudget set_alienBudget set_aliens set_grid].
    assert (Hother : forall r c, In (r, c) done ->
              gridCell (setCell (grid s) row col true) r c = gridCell (grid s) r c).
    { intros r c Hrc. apply gridCell_setCell_other. intro E. injection E as -> ->.
      contradiction. }
    split; [|split; [lia|split; [|split; [|split; assumption]]]].
    + rewrite cellsCost_cons. cbn [fst snd].
      rewrite (cellsCost_ext _ (gridCell (grid s)) done Hother).
      rewrite gridCell_setCell, !Nat.eqb_refl. cbn [andb]. lia.
    + intros r c. rewrite gridCell_setCell.
      destruct (Nat.eqb row r && Nat.eqb col c) eqn:E.
      * apply andb_true_iff in E. destruct E as [E1 E2].
        apply Nat.eqb_eq in E1, E2. subst r c. intros _. split; [left; reflexivity | exact Ep].
      * intro H. destruct (Hc r c H) as [H1 H2]. split; [right; exact H1 | exact H2].
    + intros Hcost r c [E | Hdone] Hp.
      * injection E as <- <-. rewrite gridCell_setCell, !Nat.eqb_refl. reflexivity.
      * rewrite (Hother r c Hdone). apply Hd; assumption.
  - apply Z.leb_gt in El. apply Hsame. right. exact El.
Qed.

Lemma loadPreset_presetLoop pattern st :
  0 <= alienBudgetMax st ->
  presetLoop pattern (alienBudgetMax st) (gridRows st) (loadPreset pattern st)
    (rev (presetCells (gridRows st)) ++ []).
Proof.
  intro Hcap. rewrite loadPreset_cells.
  apply (fold_left_visit (presetLoop pattern (alienBudgetMax st) (gridRows st))
           (fun s x => loadPresetCell pattern (snd x) (fst x) s)).
  - intros s d [row col] Hs Hnew Hin. cbn [fst snd].
    apply loadPresetCell_presetLoop; assumption.
  - apply presetCells_NoDup.
  - intros x _ [].
  - unfold presetLoop, clearGrid.
    cbn [grid alienBudget alienBudgetMax set_alienBudget set_aliens set_grid].
    cbn [cellsCost fold_right]. split; [lia|]. split; [exact Hcap|].
    split; [intros r c; rewrite gridCell_emptyGrid; discriminate|].
    split; [intros _ r c []|]. split; [constructor | intros x []].
Qed.

(** X22.  [loadPreset] goes through the cells column by column and places
    every cell of its pattern that the budget still pays for, leaving out
    the others.  So the pattern is on the grid in full exactly when the
    cost of all its cells is within the cap of the wave. *)
Theorem loadPreset_is_full_when_affordable (pattern : list (list Z)) (st : Game) :
  0 <= alienBudgetMax st ->
  ((forall row col, (row < gridRows st)%nat -> (col < gridCols)%nat ->
                    gridCell (grid (loadPreset pattern st)) row col
                    = patternCell pattern row col)
   <-> presetCost pattern (gridRows st) <= alienBudgetMax st).
Proof.
  intro Hcap.
  destruct (loadPreset_presetLoop pattern st Hcap) as (Ha & Hb & Hc & Hd & _ & _).
  rewrite app_nil_r in *. rewrite cellsCost_rev in Ha.
  split.
  - intro Hfull. unfold presetCost.
    rewrite <- (cellsCost_ext (gridCell (grid (loadPreset pattern st)))
                  (patternCell pattern) (presetCells (gridRows st))).
    + lia.
    + intros r c Hin. apply presetCells_In in Hin. destruct Hin as [Hr Hcl].
      apply Hfull; assumption.
  - intros Hcost row col Hr Hcl.
    assert (Hin : In (row, col) (rev (presetCells (gridRows st)))).
    { apply in_rev. rewrite rev_involutive. apply presetCells_In. split; assumption. }
    destruct (patternCell pattern row col) eqn:Ep.
    + apply (Hd Hcost row col Hin Ep).
    + destruct (gridCell (grid (loadPreset pattern st)) row col) eqn:Eg; [|reflexivity].
      destruct (Hc row col Eg) as [_ H]. congruence.
Qed.

Lemma loadPreset_is_full_when_affordable_witness :
  (forall row col, (row < gridRows newGame)%nat -> (col < gridCols)%nat ->
                   gridCell (grid (loadPreset rockPreset newGame)) row col
                   = patternCell rockPreset row col)
  <-> presetCost rockPreset (gridRows newGame) <= alienBudgetMax newGame.
Proof.
  apply (loadPreset_is_full_when_affordable rockPreset newGame).
  vm_compute. discriminate.
Defined.
